(** * Notion-with-Markdown: validator, cipher wrapper, store and publisher

    A shallow embedding of the server-side core of the repository:

    - [Validator]  : [extractPageId] of utils/validator.js, with the four
                     regular expressions it uses and a backtracking matcher
                     ([Regex]) for the fragment of ECMAScript regular
                     expressions they are written in;
    - [Crypto]     : [encrypt] / [decrypt] of utils/crypto.js over node:crypto
                     taken as an interface;
    - [Storage]    : the [StorageService] of services/storage.js, as state
                     passing over the lowdb document; what the environment
                     supplies (ids, time stamps, initialisation vectors) is an
                     argument;
    - [Notion]     : [createPage] / [appendBlocks] of services/notion.js, with
                     the requests they send.

    JavaScript strings are modelled as lists of code units below 256
    ([list ascii]); [lit] turns a string literal into one. The text that
    crypto.js encrypts, and so the API key the store keeps, is a string in
    full ([Js.utf16], lists of 16-bit code units), because the cipher
    treats surrogates in a way of its own.

    The modules [RegexSpec], [ValidatorSpec], [StorageSpec] and [NotionSpec]
    hold the notions the specification is worded in; the [...Facts] modules
    hold the proofs. *)

From Stdlib Require Import Ascii String.
From Stdlib Require Import List Arith ZArith Lia Bool.
From Equations Require Import Equations.
Import ListNotations.

Set Implicit Arguments.

(** ** JavaScript strings and arrays *)

Module Js.

Definition str : Type := list ascii.

Definition lit (s : string) : str := list_ascii_of_string s.
Arguments lit s%_string.

Definition code_unit (c : ascii) : N := N_of_ascii c.

Definition in_range (lo hi : ascii) (c : ascii) : bool :=
  (code_unit lo <=? code_unit c)%N && (code_unit c <=? code_unit hi)%N.

Definition ascii_eqb (a b : ascii) : bool := Ascii.eqb a b.

Fixpoint str_eqb (a b : str) : bool :=
  match a, b with
  | [], [] => true
  | x :: a', y :: b' => ascii_eqb x y && str_eqb a' b'
  | _, _ => false
  end.

(** A string is truthy when it is not empty. *)
Definition truthy {A : Type} (s : list A) : bool :=
  match s with [] => false | _ :: _ => true end.

(** WhiteSpace and LineTerminator code units below 256: TAB, LF, VT, FF, CR,
    SPACE and NBSP. *)
Definition is_ws (c : ascii) : bool :=
  let n := code_unit c in
  ((9 <=? n) && (n <=? 13) || (n =? 32) || (n =? 160))%N.

Fixpoint trimStart (s : str) : str :=
  match s with
  | c :: s' => if is_ws c then trimStart s' else s
  | [] => []
  end.

Fixpoint trimEnd (s : str) : str :=
  match s with
  | [] => []
  | c :: s' =>
      match trimEnd s' with
      | [] => if is_ws c then [] else [c]
      | t => c :: t
      end
  end.

(** [String.prototype.trim]. *)
Definition trim (s : str) : str := trimEnd (trimStart s).

(** [String.prototype.toLowerCase] on code units below 256: the letters A-Z
    and the Latin-1 capitals U+00C0-U+00DE (U+00D7 is the multiplication
    sign) move 32 places up. *)
Definition lower_char (c : ascii) : ascii :=
  let n := code_unit c in
  if ((65 <=? n) && (n <=? 90))%N then ascii_of_N (n + 32)
  else if ((192 <=? n) && (n <=? 222))%N && negb (n =? 215)%N
       then ascii_of_N (n + 32)
  else c.

Definition toLowerCase (s : str) : str := map lower_char s.

Fixpoint startsWith (p s : str) : bool :=
  match p, s with
  | [], _ => true
  | x :: p', y :: s' => ascii_eqb x y && startsWith p' s'
  | _ :: _, [] => false
  end.

(** [String.prototype.includes]. *)
Fixpoint includes (s p : str) : bool :=
  startsWith p s ||
  match s with
  | [] => false
  | _ :: s' => includes s' p
  end.

(** [s.split(':')]: the pieces between the separators, at least one. *)
Fixpoint split_on (sep : ascii) (s : str) : list str :=
  match s with
  | [] => [[]]
  | c :: s' =>
      if ascii_eqb c sep then [] :: split_on sep s'
      else match split_on sep s' with
           | p :: ps => (c :: p) :: ps
           | [] => [[c]]
           end
  end.

(** [Array.prototype.slice(start, end)] with integer arguments: a negative
    index counts from the end, and both are clamped to the array. *)
Definition clamp_index (len : nat) (i : Z) : nat :=
  if (i <? 0)%Z then Z.to_nat (Z.max (Z.of_nat len + i) 0)
  else Nat.min (Z.to_nat i) len.

Definition slice {A : Type} (l : list A) (start : Z) (stop : option Z) : list A :=
  let len := length l in
  let k := clamp_index len start in
  let final := match stop with
               | Some e => clamp_index len e
               | None => len
               end in
  firstn (final - k) (skipn k l).

(** An [Error] object, as far as the program looks into one, and the outcome
    of a call that may throw. *)
Record JsError : Type :=
  mkError { code : option str; status : option str; message : option str }.

Definition Error (msg : str) : JsError := mkError None None (Some msg).

Inductive result (A : Type) : Type :=
| Ok (a : A)
| Throw (e : JsError).

Arguments Ok {A} a.
Arguments Throw {A} e.

(** [x || d] and [!!x] for a value that is a string, null or undefined. *)
Definition or_else {A : Type} (x : option (list A)) (d : option (list A))
  : option (list A) :=
  match x with
  | Some s => if truthy s then Some s else d
  | None => d
  end.

Definition truthy_opt {A : Type} (x : option (list A)) : bool :=
  match x with
  | Some s => truthy s
  | None => false
  end.

(** *** Strings in full

    A JavaScript string is a sequence of UTF-16 code units; one is given
    here by its high and its low byte. [str] holds the strings whose code
    units are all below 256, and [wide] reads such a string as a string in
    full. A code unit in D800-DBFF is a high surrogate, one in DC00-DFFF a
    low surrogate; a surrogate outside a pair of a high one and a low one
    is unpaired. *)
Definition unit16 : Type := (Byte.byte * Byte.byte)%type.

Definition utf16 : Type := list unit16.

Definition wide (s : str) : utf16 :=
  map (fun c => (Byte.x00, byte_of_ascii c)) s.

Definition is_high (u : unit16) : bool :=
  let h := Byte.to_N (fst u) in ((216 <=? h) && (h <=? 219))%N.

Definition is_low (u : unit16) : bool :=
  let h := Byte.to_N (fst u) in ((220 <=? h) && (h <=? 223))%N.

(** U+FFFD, the replacement character. *)
Definition replacement : unit16 := (Byte.xff, Byte.xfd).

(** [s.isWellFormed()]: no surrogate is unpaired. *)
Fixpoint isWellFormed (s : utf16) : bool :=
  match s with
  | [] => true
  | u :: rest =>
      if is_high u then
        match rest with
        | v :: rest' => is_low v && isWellFormed rest'
        | [] => false
        end
      else negb (is_low u) && isWellFormed rest
  end.

(** [s.toWellFormed()]: every unpaired surrogate becomes U+FFFD. *)
Fixpoint toWellFormed (s : utf16) : utf16 :=
  match s with
  | [] => []
  | u :: rest =>
      if is_high u then
        match rest with
        | v :: rest' =>
            if is_low v then u :: v :: toWellFormed rest'
            else replacement :: toWellFormed rest
        | [] => [replacement]
        end
      else if is_low u then replacement :: toWellFormed rest
      else u :: toWellFormed rest
  end.

End Js.

(** ** A backtracking matcher for the regular expressions of validator.js *)

Module Regex.
Import Js.

(** The fragment of ECMAScript patterns the validator uses. There is one
    capture group, [Grp]. Character classes are predicates, which is where
    the [i] flag is taken into account. *)
Inductive regex : Type :=
| Eps
| Bol                          (* ^ *)
| Eol                          (* $, no multiline flag *)
| Chr (p : ascii -> bool)      (* a class, or a literal character *)
| Seq (r1 r2 : regex)
| Alt (r1 r2 : regex)          (* r1|r2 *)
| Opt (r : regex)              (* (?:r)?, greedy *)
| Star (r : regex)             (* (?:r)*, greedy *)
| Grp (r : regex).             (* (r), capture group 1 *)

(** [r+] and [r{n}]. *)
Definition Plus (r : regex) : regex := Seq r (Star r).

Fixpoint Rep (n : nat) (r : regex) : regex :=
  match n with
  | 0 => Eps
  | S n' => Seq r (Rep n' r)
  end.

(** A position in the input: how many code units lie before it, and the
    code units from it on. *)
Record state : Type := mkState { idx : nat; rest : str }.

Definition cap : Type := option str.

Definition cont : Type := state -> cap -> option cap.

(** Greedy iteration: try one more round of the body, which has to consume
    something, before trying what follows. *)
Fixpoint star_loop (body : state -> cap -> cont -> option cap) (k : cont)
         (n : nat) (st : state) (c : cap) : option cap :=
  match n with
  | 0 => k st c
  | S n' =>
      match body st c (fun st' c' =>
                         if length (rest st') <? length (rest st)
                         then star_loop body k n' st' c'
                         else None) with
      | Some x => Some x
      | None => k st c
      end
  end.

(** [m r st c k]: match [r] at [st], then hand over to [k]; the first
    alternative that leads to overall success wins. *)
Fixpoint m (r : regex) (st : state) (c : cap) (k : cont) : option cap :=
  match r with
  | Eps => k st c
  | Bol => if idx st =? 0 then k st c else None
  | Eol => match rest st with [] => k st c | _ :: _ => None end
  | Chr p =>
      match rest st with
      | x :: s' => if p x then k (mkState (S (idx st)) s') c else None
      | [] => None
      end
  | Seq r1 r2 => m r1 st c (fun st' c' => m r2 st' c' k)
  | Alt r1 r2 =>
      match m r1 st c k with
      | Some x => Some x
      | None => m r2 st c k
      end
  | Opt r1 =>
      match m r1 st c k with
      | Some x => Some x
      | None => k st c
      end
  | Star r1 => star_loop (m r1) k (length (rest st)) st c
  | Grp r1 =>
      m r1 st c (fun st' _ =>
                   k st' (Some (firstn (idx st' - idx st) (rest st))))
  end.

Definition accept : cont := fun _ c => Some c.

(** Try the pattern at every start position, leftmost first. *)
Fixpoint search_from (r : regex) (i : nat) (s : str) : option cap :=
  match m r (mkState i s) None accept with
  | Some c => Some c
  | None =>
      match s with
      | [] => None
      | _ :: s' => search_from r (S i) s'
      end
  end.

(** [s.match(r)] for a pattern without the [g] flag: the captures of the
    leftmost match, or null. *)
Definition exec (r : regex) (s : str) : option cap := search_from r 0 s.

(** [r.test(s)]. *)
Definition test (r : regex) (s : str) : bool :=
  match exec r s with Some _ => true | None => false end.

End Regex.

(** ** utils/validator.js *)

Module Validator.
Import Js Regex.

(** Canonicalize of the [i] flag, on code units below 256: a-z and the
    Latin-1 small letters U+00E0-U+00FE (U+00F7 is the division sign) go to
    their capitals. The micro sign, the sharp s and y with diaeresis have no
    capital below 256 and stay. *)
Definition canonicalize (c : ascii) : ascii :=
  let n := code_unit c in
  if ((97 <=? n) && (n <=? 122))%N then ascii_of_N (n - 32)
  else if ((224 <=? n) && (n <=? 254))%N && negb (n =? 247)%N
       then ascii_of_N (n - 32)
  else c.

Definition all_chars : list ascii := map ascii_of_nat (seq 0 256).

(** A class under the [i] flag matches a character when some member of the
    class has the same canonical form. *)
Definition class_i (members : ascii -> bool) (c : ascii) : bool :=
  existsb (fun a => members a && ascii_eqb (canonicalize a) (canonicalize c))
          all_chars.

(** [[a-f0-9]] *)
Definition hex_members (a : ascii) : bool :=
  in_range "a" "f" a || in_range "0" "9" a.

Definition hex : regex := Chr (class_i hex_members).

(** A literal character, and a negated one-character class [[^x]]. *)
Definition chr (x : ascii) : regex := Chr (class_i (ascii_eqb x)).
Definition notchr (x : ascii) : regex :=
  Chr (fun c => negb (class_i (ascii_eqb x) c)).

Fixpoint literal (s : str) : regex :=
  match s with
  | [] => Eps
  | x :: s' => Seq (chr x) (literal s')
  end.

(** [/^[a-f0-9]{32}$/i] *)
Definition re_id : regex := Seq Bol (Seq (Rep 32 hex) Eol).

Definition dash : regex := chr "-".

(** [/^[a-f0-9]{8}-[a-f0-9]{4}-[a-f0-9]{4}-[a-f0-9]{4}-[a-f0-9]{12}$/i] *)
Definition re_uuid : regex :=
  Seq Bol
 (Seq (Seq (Rep 8 hex) (Seq dash
      (Seq (Rep 4 hex) (Seq dash
      (Seq (Rep 4 hex) (Seq dash
      (Seq (Rep 4 hex) (Seq dash
           (Rep 12 hex)))))))))
      Eol).

(** [/notion\.so\/(?:[^/]+\/)?(?:[^-]+-)*([a-f0-9]{32})/i] *)
Definition url_prefix : regex :=
  Seq (literal (lit "notion.so/"))
      (Seq (Opt (Seq (Plus (notchr "/")) (chr "/")))
           (Star (Seq (Plus (notchr "-")) dash))).

Definition re_url : regex := Seq url_prefix (Grp (Rep 32 hex)).

(** [/([a-f0-9]{32})(?:\?|$)/i] *)
Definition re_last : regex :=
  Seq (Grp (Rep 32 hex)) (Alt (chr "?") Eol).

(** [s.replace(/-/g, '')] *)
Definition remove_dashes (s : str) : str :=
  filter (fun c => negb (ascii_eqb c "-")) s.

(** [extractPageId(input)] for a string [input]; every caller passes a
    request field that the route schema declares a string. [None] is
    null. *)
Definition extractPageId (input : str) : option str :=
  if negb (truthy input) then None
  else
    let trimmed := trim input in
    if test re_id trimmed then Some trimmed
    else if test re_uuid trimmed then Some (remove_dashes trimmed)
    else
      match exec re_url trimmed with
      | Some urlMatch => urlMatch
      | None =>
          match exec re_last trimmed with
          | Some lastHexMatch => lastHexMatch
          | None => None
          end
      end.

End Validator.

(** ** utils/crypto.js *)

Module Crypto.
Import Js.

Definition bytes : Type := list Byte.byte.

(** What crypto.js takes from node:crypto and Buffer. *)
Class NodeCrypto : Type := {
  (** The input encoding ['utf8'] of [cipher.update] and of
      [createHash(..).update], and the output encoding ['utf8'] of
      [decipher.update] followed by [decipher.final] *)
  utf8_encode : utf16 -> bytes;
  utf8_decode : bytes -> utf16;
  (** [buf.toString('base64')] and [Buffer.from(s, 'base64')] *)
  base64_encode : bytes -> str;
  base64_decode : str -> bytes;
  (** [createHash('sha256').update(s).digest()] *)
  sha256 : bytes -> bytes;
  (** [createCipheriv('aes-256-cbc', key, iv)], [update] then [final] *)
  aes_256_cbc_encrypt : bytes -> bytes -> bytes -> bytes;
  (** [createDecipheriv('aes-256-cbc', key, iv)], [update] then [final];
      throws on an IV of the wrong length and on a bad final block *)
  aes_256_cbc_decrypt : bytes -> bytes -> bytes -> result bytes
}.

Definition IV_LENGTH : nat := 16.

Section Cipher.
Context {lib : NodeCrypto}.

(** [process.env.SECRET_KEY], fixed for the life of the process. *)
Variable SECRET_KEY : option utf16.

Definition getSecretKey : bytes :=
  let secretKey :=
    match or_else SECRET_KEY
                  (Some (wide (lit "default_secret_key_32_characters!"))) with
    | Some k => k
    | None => []
    end in
  sha256 (utf8_encode secretKey).

(** [encrypt(text)]; [iv] is what [crypto.randomBytes(IV_LENGTH)] returns.
    [update] and [final] with an output encoding share one decoder, so
    their concatenation is the encoding of the whole ciphertext. *)
Definition encrypt (iv : bytes) (text : option utf16) : option str :=
  if negb (truthy_opt text) then None
  else
    let text := match text with Some t => t | None => [] end in
    let key := getSecretKey in
    let encrypted := base64_encode (aes_256_cbc_encrypt key iv (utf8_encode text)) in
    Some (base64_encode iv ++ lit ":" ++ encrypted).

(** [decrypt(encryptedText)] *)
Definition decrypt (encryptedText : option str) : result (option utf16) :=
  if negb (truthy_opt encryptedText) then Ok None
  else
    let encryptedText := match encryptedText with Some t => t | None => [] end in
    let parts := split_on ":" encryptedText in
    let ivBase64 := nth_error parts 0 in
    let encrypted := nth_error parts 1 in
    if negb (truthy_opt ivBase64) || negb (truthy_opt encrypted)
    then Throw (Error (lit "Invalid encrypted text format"))
    else
      let iv := base64_decode (match ivBase64 with Some x => x | None => [] end) in
      let key := getSecretKey in
      match aes_256_cbc_decrypt key iv
              (base64_decode (match encrypted with Some x => x | None => [] end)) with
      | Ok plain => Ok (Some (utf8_decode plain))
      | Throw e => Throw e
      end.

End Cipher.

(** The facts about the library that the round trip rests on. UTF-8 has
    no encoding of a surrogate alone: the encoder writes U+FFFD for an
    unpaired one, and what it wrote for a string without any is decoded to
    that string. *)
Class NodeCryptoLaws (lib : NodeCrypto) : Prop := {
  utf8_scrub : forall s, utf8_encode s = utf8_encode (toWellFormed s);
  utf8_round : forall s,
      isWellFormed s = true -> utf8_decode (utf8_encode s) = s;
  base64_round : forall b, base64_decode (base64_encode b) = b;
  base64_alphabet : forall b, ~ In ":"%char (base64_encode b);
  base64_nonempty : forall b, b <> [] -> base64_encode b <> [];
  sha256_length : forall b, length (sha256 b) = 32;
  cbc_nonempty : forall key iv p, aes_256_cbc_encrypt key iv p <> [];
  cbc_round : forall key iv p,
      length key = 32 -> length iv = IV_LENGTH ->
      aes_256_cbc_decrypt key iv (aes_256_cbc_encrypt key iv p) = Ok p
}.

End Crypto.

(** ** services/storage.js *)

Module Page.
Import Js.
Record t : Type := mk {
  id : str;
  name : str;
  pageId : str;
  url : option str;
  isDefault : bool;
  createdAt : str;
  updatedAt : option str
}.

Definition set_isDefault (b : bool) (p : t) : t :=
  mk (id p) (name p) (pageId p) (url p) b (createdAt p) (updatedAt p).
End Page.

Module HistoryRecord.
Import Js.
Record t : Type := mk {
  id : str;
  title : str;
  pageConfigId : str;
  notionPageId : option str;
  notionUrl : option str;
  status : str;
  error : option str;
  createdAt : str
}.
End HistoryRecord.

Module Storage.
Import Js.

Record Config : Type := mkConfig {
  apiKey : option str;
  defaultPageId : option str
}.

Record Settings : Type := mkSettings {
  autoOpenNotion : bool;
  autoClearInput : bool;
  maxFileSize : Z
}.

(** The lowdb document, [this.db.data]. *)
Record Db : Type := mkDb {
  config : Config;
  pages : list Page.t;
  history : list HistoryRecord.t;
  settings : Settings
}.

Definition defaultData : Db :=
  mkDb (mkConfig None None) [] [] (mkSettings false true 10485760).

Definition set_apiKey (k : option str) (d : Db) : Db :=
  mkDb (mkConfig k (defaultPageId (config d))) (pages d) (history d) (settings d).

Definition set_defaultPageId (i : option str) (d : Db) : Db :=
  mkDb (mkConfig (apiKey (config d)) i) (pages d) (history d) (settings d).

Definition set_pages (ps : list Page.t) (d : Db) : Db :=
  mkDb (config d) ps (history d) (settings d).

Definition set_history (hs : list HistoryRecord.t) (d : Db) : Db :=
  mkDb (config d) (pages d) hs (settings d).

(** [Array.prototype.findIndex]; [None] is -1. *)
Fixpoint findIndex {A : Type} (f : A -> bool) (l : list A) : option nat :=
  match l with
  | [] => None
  | x :: l' =>
      if f x then Some 0
      else match findIndex f l' with
           | Some i => Some (S i)
           | None => None
           end
  end.

(** [l[i] = x] for an index inside the array. *)
Fixpoint set_nth {A : Type} (i : nat) (x : A) (l : list A) : list A :=
  match l, i with
  | [], _ => []
  | _ :: l', 0 => x :: l'
  | y :: l', S i' => y :: set_nth i' x l'
  end.

(** [l.splice(i, 1)] *)
Fixpoint remove_nth {A : Type} (i : nat) (l : list A) : list A :=
  match l, i with
  | [], _ => []
  | _ :: l', 0 => l'
  | y :: l', S i' => y :: remove_nth i' l'
  end.

(** *** API key *)

(** The calls a method makes into crypto.js, in order. *)
Inductive crypto_call : Type :=
| CallEncrypt (text : utf16)
| CallDecrypt (encryptedText : str).

Section ApiKey.
Context {lib : Crypto.NodeCrypto}.
Variable SECRET_KEY : option utf16.

Definition getApiKey (d : Db) : result (option utf16) * list crypto_call :=
  let encrypted := apiKey (config d) in
  match encrypted with
  | Some e =>
      if truthy e then (Crypto.decrypt SECRET_KEY encrypted, [CallDecrypt e])
      else (Ok None, [])
  | None => (Ok None, [])
  end.

(** [iv] is the initialisation vector [encrypt] draws. *)
Definition setApiKey (iv : Crypto.bytes) (key : option utf16) (d : Db)
  : Db * list crypto_call :=
  match key with
  | Some k =>
      if truthy k then (set_apiKey (Crypto.encrypt SECRET_KEY iv key) d, [CallEncrypt k])
      else (set_apiKey None d, [])
  | None => (set_apiKey None d, [])
  end.

Definition hasApiKey (d : Db) : bool * list crypto_call :=
  (truthy_opt (apiKey (config d)), []).

End ApiKey.

(** *** Page configurations *)

(** The argument of [addPage]. *)
Record PageSpec : Type := mkPageSpec {
  spec_name : str;
  spec_pageId : str;
  spec_url : option str;
  spec_isDefault : option bool
}.

(** [addPage(page)]; [fresh] is the id [nanoid()] returns and [now] the
    time stamp [dayjs().toISOString()]. *)
Definition addPage (fresh now : str) (page : PageSpec) (d : Db) : Db * Page.t :=
  let newPage :=
    Page.mk fresh (spec_name page) (spec_pageId page)
            (or_else (spec_url page) None)
            (match spec_isDefault page with Some b => b | None => false end)
            now None in
  if Page.isDefault newPage || (length (pages d) =? 0) then
    let demoted := map (Page.set_isDefault false) (pages d) in
    let newPage := Page.set_isDefault true newPage in
    (set_pages (demoted ++ [newPage]) (set_defaultPageId (Some fresh) d), newPage)
  else
    (set_pages (pages d ++ [newPage]) d, newPage).

(** The [updates] object of [updatePage], for the properties a page has. *)
Record PageUpdates : Type := mkUpdates {
  upd_id : option str;
  upd_name : option str;
  upd_pageId : option str;
  upd_url : option (option str);
  upd_isDefault : option bool;
  upd_createdAt : option str
}.

Definition opt_else {A : Type} (x : option A) (d : A) : A :=
  match x with Some a => a | None => d end.

(** [Object.assign(page, updates, { updatedAt: now })] *)
Definition assign (page : Page.t) (updates : PageUpdates) (now : str) : Page.t :=
  Page.mk (opt_else (upd_id updates) (Page.id page))
          (opt_else (upd_name updates) (Page.name page))
          (opt_else (upd_pageId updates) (Page.pageId page))
          (opt_else (upd_url updates) (Page.url page))
          (opt_else (upd_isDefault updates) (Page.isDefault page))
          (opt_else (upd_createdAt updates) (Page.createdAt page))
          (Some now).

(** [updatePage(id, updates)]; [None] is null, the page is not known. The
    page returned is the stored object, as it is when the method ends. *)
Definition updatePage (now : str) (id : str) (updates : PageUpdates) (d : Db)
  : Db * option Page.t :=
  match findIndex (fun p => str_eqb (Page.id p) id) (pages d) with
  | None => (d, None)
  | Some index =>
      match nth_error (pages d) index with
      | None => (d, None)
      | Some page =>
          let ps := set_nth index (assign page updates now) (pages d) in
          let d' :=
            if opt_else (upd_isDefault updates) false then
              set_pages
                (map (fun p => if negb (str_eqb (Page.id p) id)
                               then Page.set_isDefault false p else p) ps)
                (set_defaultPageId (Some id) d)
            else set_pages ps d in
          (d', nth_error (pages d') index)
      end
  end.

(** [deletePage(id)] *)
Definition deletePage (id : str) (d : Db) : Db * bool :=
  match findIndex (fun p => str_eqb (Page.id p) id) (pages d) with
  | None => (d, false)
  | Some index =>
      let wasDefault :=
        match nth_error (pages d) index with
        | Some p => Page.isDefault p
        | None => false
        end in
      let ps := remove_nth index (pages d) in
      match ps with
      | first :: others =>
          if wasDefault then
            (set_pages (Page.set_isDefault true first :: others)
                       (set_defaultPageId (Some (Page.id first)) d), true)
          else (set_pages ps d, true)
      | [] => (set_pages [] (set_defaultPageId None d), true)
      end
  end.

Definition getPages (d : Db) : list Page.t := pages d.

Definition getDefaultPage (d : Db) : option Page.t :=
  find Page.isDefault (pages d).

(** *** History *)

(** The argument of [addHistory]. *)
Record HistorySpec : Type := mkHistorySpec {
  spec_title : str;
  spec_pageConfigId : str;
  spec_notionPageId : option str;
  spec_notionUrl : option str;
  spec_status : str;
  spec_error : option str
}.

Definition newRecord (fresh now : str) (record : HistorySpec) : HistoryRecord.t :=
  HistoryRecord.mk fresh (spec_title record) (spec_pageConfigId record)
                   (spec_notionPageId record) (spec_notionUrl record)
                   (spec_status record) (or_else (spec_error record) None) now.

(** [addHistory(record)] *)
Definition addHistory (fresh now : str) (record : HistorySpec) (d : Db)
  : Db * HistoryRecord.t :=
  let r := newRecord fresh now record in
  let h := r :: history d in
  let h := if 100 <? length h then slice h 0 (Some 100%Z) else h in
  (set_history h d, r).

(** [getHistory(limit = 50, search = '')]; [None] is an argument left out. *)
Definition getHistory (limit : option Z) (search : option str) (d : Db)
  : list HistoryRecord.t :=
  let limit := opt_else limit 50%Z in
  let search := opt_else search [] in
  let history := history d in
  let history :=
    if truthy search then
      let searchLower := toLowerCase search in
      filter (fun h => includes (toLowerCase (HistoryRecord.title h)) searchLower)
             history
    else history in
  slice history 0 (Some limit).

End Storage.

(** ** services/notion.js *)

Module Notion.
Import Js.

(** Maximum blocks per API call. *)
Definition MAX_BLOCKS_PER_REQUEST : nat := 100.

(** [errorMessages[code]], for a code that does not name a property the
    object literal inherits from [Object.prototype] ([constructor],
    [toString], ...); the codes of the Notion client and of node:crypto
    name none. *)
Definition errorMessages (code : str) : option str :=
  if str_eqb code (lit "unauthorized") then
    Some (lit "Invalid API key. Please check your Notion integration token.")
  else if str_eqb code (lit "object_not_found") then
    Some (lit "Page not found. Please check if the page exists and is shared with your integration.")
  else if str_eqb code (lit "rate_limited") then
    Some (lit "Too many requests. Please wait a moment and try again.")
  else if str_eqb code (lit "validation_error") then
    Some (lit "Invalid request format. Please check your input.")
  else if str_eqb code (lit "internal_server_error") then
    Some (lit "Notion server error. Please try again later.")
  else if str_eqb code (lit "service_unavailable") then
    Some (lit "Notion service is temporarily unavailable. Please try again later.")
  else None.

(** [formatError(error)] *)
Definition formatError (error : JsError) : str :=
  let code := or_else (code error) (status error) in
  let message :=
    Storage.opt_else (or_else (message error) None)
                     (lit "Unknown error occurred") in
  match code with
  | Some c => Storage.opt_else (errorMessages c) message
  | None => message
  end.

Section Publisher.
Context {lib : Crypto.NodeCrypto}.
Variable SECRET_KEY : option utf16.

(** A block is whatever the Markdown converter produced. *)
Variable block : Type.

(** The requests sent to the Notion API. *)
Inductive remote_call : Type :=
| PagesCreate (parent title : str) (children : list block)
| BlocksChildrenAppend (block_id : str) (children : list block).

Record PageResponse : Type := mkResponse { resp_id : str; resp_url : str }.

(** The remote service: it has a state of its own, and answers a request
    or makes the client throw. *)
Variable world : Type.
Variable pages_create :
  world -> str -> str -> list block -> world * result PageResponse.
Variable blocks_children_append :
  world -> str -> list block -> world * result unit.

(** [initClient()]: the stored API key, or an error. No request is sent. *)
Definition initClient (d : Storage.Db) : result utf16 :=
  match fst (Storage.getApiKey SECRET_KEY d) with
  | Ok apiKey =>
      if truthy_opt apiKey then Ok (Storage.opt_else apiKey [])
      else Throw (Error (lit "Notion API key is not configured"))
  | Throw e => Throw e
  end.

(** What a method did: the state the service is left in, the requests
    sent, oldest first, and the value returned or the error thrown. *)
Definition outcome (A : Type) : Type := world * list remote_call * A.

(** The loop of [appendBlocks]:
    [for (let i = 0; i < blocks.length; i += MAX_BLOCKS_PER_REQUEST)]. *)
Equations? appendLoop (pageId : str) (blocks : list block) (i : nat) (w : world)
  : outcome (result unit) by wf (length blocks - i) lt :=
appendLoop pageId blocks i w with lt_dec i (length blocks) := {
  | right _ => (w, [], Ok tt)
  | left _ with blocks_children_append w pageId
                  (slice blocks (Z.of_nat i)
                         (Some (Z.of_nat (i + MAX_BLOCKS_PER_REQUEST)))) := {
    | (w', Throw e) =>
        (w',
         [BlocksChildrenAppend pageId
            (slice blocks (Z.of_nat i)
                   (Some (Z.of_nat (i + MAX_BLOCKS_PER_REQUEST))))],
         Throw e)
    | (w', Ok _) =>
        let '(w'', calls, r) :=
          appendLoop pageId blocks (i + MAX_BLOCKS_PER_REQUEST) w' in
        (w'',
         BlocksChildrenAppend pageId
            (slice blocks (Z.of_nat i)
                   (Some (Z.of_nat (i + MAX_BLOCKS_PER_REQUEST)))) :: calls,
         r) } }.
Proof.
  unfold MAX_BLOCKS_PER_REQUEST. lia.
Qed.

(** [appendBlocks(pageId, blocks)] *)
Definition appendBlocks (d : Storage.Db) (pageId : str) (blocks : list block)
           (w : world) : outcome (result unit) :=
  match initClient d with
  | Throw e => (w, [], Throw e)
  | Ok _ => appendLoop pageId blocks 0 w
  end.

(** What [createPage] resolves to. *)
Inductive CreateResult : Type :=
| Success (id url title : str)
| Failure (error : str).

(** [createPage(parentPageId, title, blocks)] *)
Definition createPage (d : Storage.Db) (parentPageId title : str)
           (blocks : list block) (w : world) : outcome CreateResult :=
  match initClient d with
  | Throw e => (w, [], Failure (formatError e))
  | Ok _ =>
      let initialBlocks :=
        slice blocks 0 (Some (Z.of_nat MAX_BLOCKS_PER_REQUEST)) in
      let remainingBlocks :=
        slice blocks (Z.of_nat MAX_BLOCKS_PER_REQUEST) None in
      let create := PagesCreate parentPageId title initialBlocks in
      match pages_create w parentPageId title initialBlocks with
      | (w1, Throw e) => (w1, [create], Failure (formatError e))
      | (w1, Ok response) =>
          if 0 <? length remainingBlocks then
            match appendBlocks d (resp_id response) remainingBlocks w1 with
            | (w2, calls, Throw e) =>
                (w2, create :: calls, Failure (formatError e))
            | (w2, calls, Ok _) =>
                (w2, create :: calls,
                 Success (resp_id response) (resp_url response) title)
            end
          else
            (w1, [create], Success (resp_id response) (resp_url response) title)
      end
  end.

End Publisher.

End Notion.

(** ** What a pattern matches, stated without the matcher *)

Module RegexSpec.
Import Js Regex.

(** [Match r st c st' c']: the pattern [r] can match from position [st] to
    position [st'], turning the capture [c] into [c']. Every round of an
    iteration consumes at least one code unit. *)
Inductive Match : regex -> state -> cap -> state -> cap -> Prop :=
| MEps st c : Match Eps st c st c
| MBol st c : idx st = 0 -> Match Bol st c st c
| MEol st c : rest st = [] -> Match Eol st c st c
| MChr p i x s c :
    p x = true -> Match (Chr p) (mkState i (x :: s)) c (mkState (S i) s) c
| MSeq r1 r2 st c st1 c1 st2 c2 :
    Match r1 st c st1 c1 -> Match r2 st1 c1 st2 c2 ->
    Match (Seq r1 r2) st c st2 c2
| MAltL r1 r2 st c st' c' :
    Match r1 st c st' c' -> Match (Alt r1 r2) st c st' c'
| MAltR r1 r2 st c st' c' :
    Match r2 st c st' c' -> Match (Alt r1 r2) st c st' c'
| MOptSome r st c st' c' :
    Match r st c st' c' -> Match (Opt r) st c st' c'
| MOptNone r st c : Match (Opt r) st c st c
| MStarDone r st c : Match (Star r) st c st c
| MStarMore r st c st1 c1 st2 c2 :
    Match r st c st1 c1 ->
    length (rest st1) < length (rest st) ->
    Match (Star r) st1 c1 st2 c2 ->
    Match (Star r) st c st2 c2
| MGrp r st c st' c' :
    Match r st c st' c' ->
    Match (Grp r) st c st' (Some (firstn (idx st' - idx st) (rest st))).

(** The pattern matches somewhere in [s], with capture [c]. *)
Definition MatchIn (r : regex) (s : str) (c : cap) : Prop :=
  exists pre s0 st',
    s = pre ++ s0 /\ Match r (mkState (length pre) s0) None st' c.

(** Patterns without anchors and without the group. *)
Fixpoint plain (r : regex) : bool :=
  match r with
  | Eps | Chr _ => true
  | Bol | Eol | Grp _ => false
  | Seq r1 r2 | Alt r1 r2 => plain r1 && plain r2
  | Opt r1 | Star r1 => plain r1
  end.

(** The words of a plain pattern. *)
Fixpoint Lang (r : regex) (w : str) : Prop :=
  match r with
  | Eps => w = []
  | Chr p => exists x, w = [x] /\ p x = true
  | Seq r1 r2 => exists u v, w = u ++ v /\ Lang r1 u /\ Lang r2 v
  | Alt r1 r2 => Lang r1 w \/ Lang r2 w
  | Opt r1 => w = [] \/ Lang r1 w
  | Star r1 =>
      exists ws, w = concat ws /\ Forall (fun u => u <> [] /\ Lang r1 u) ws
  | Bol | Eol | Grp _ => False
  end.

(** Going from [st] to [st'] reads the code units [w]. *)
Definition Consumes (st : state) (w : str) (st' : state) : Prop :=
  rest st = w ++ rest st' /\ idx st' = idx st + length w.

End RegexSpec.

(** ** The rules of the identifier extractor, as the specification words
    them *)

Module ValidatorSpec.
Import Js.

(** A hexadecimal digit, in either case. *)
Definition is_hex (c : ascii) : bool :=
  in_range "0" "9" c || in_range "a" "f" c || in_range "A" "F" c.

(** A run of exactly [n] hexadecimal digits. *)
Definition hex_run (n : nat) (w : str) : Prop :=
  length w = n /\ forallb is_hex w = true.

(** Rule 1: exactly 32 hexadecimal characters. *)
Definition is_id (s : str) : Prop := hex_run 32 s.

(** Rule 2: the dashed 8-4-4-4-12 shape; [bare] is [s] without the
    dashes, each digit as it was written. *)
Definition is_uuid (s bare : str) : Prop :=
  exists a b c d e,
    s = a ++ lit "-" ++ b ++ lit "-" ++ c ++ lit "-" ++ d ++ lit "-" ++ e /\
    bare = a ++ b ++ c ++ d ++ e /\
    hex_run 8 a /\ hex_run 4 b /\ hex_run 4 c /\ hex_run 4 d /\ hex_run 12 e.

(** A segment: something not empty and free of [sep], then [sep]. *)
Definition segment (sep : ascii) (w : str) : Prop :=
  exists body, body <> [] /\ ~ In sep body /\ w = body ++ [sep].

(** Rule 3: [notion.so/] in any case, an optional workspace segment closed
    by a slash, any number of slug segments closed by a dash, and then the
    32-digit run. *)
Definition url_id (s run : str) : Prop :=
  exists pre host workspace slugs post,
    s = pre ++ host ++ workspace ++ concat slugs ++ run ++ post /\
    toLowerCase host = lit "notion.so/" /\
    (workspace = [] \/ segment "/" workspace) /\
    Forall (segment "-") slugs /\
    hex_run 32 run.

(** Rule 4: a 32-digit run with the end of the string or a question mark
    right behind it. *)
Definition bare_id (s run : str) : Prop :=
  exists pre post,
    s = pre ++ run ++ post /\
    hex_run 32 run /\
    (post = [] \/ exists q, post = "?"%char :: q).

(** The rules in their order of precedence, the first that applies wins:
    [rules s res] holds when [res] is what they give for the string [s]. *)
Definition rules (s : str) (res : option str) : Prop :=
  (is_id s -> res = Some s) /\
  (~ is_id s ->
   forall bare, is_uuid s bare -> res = Some bare) /\
  (~ is_id s -> (forall bare, ~ is_uuid s bare) ->
   (exists run, url_id s run) ->
   exists run, url_id s run /\ res = Some run) /\
  (~ is_id s -> (forall bare, ~ is_uuid s bare) ->
   (forall run, ~ url_id s run) ->
   (exists run, bare_id s run) ->
   exists run, bare_id s run /\ res = Some run) /\
  (~ is_id s -> (forall bare, ~ is_uuid s bare) ->
   (forall run, ~ url_id s run) -> (forall run, ~ bare_id s run) ->
   res = None).

End ValidatorSpec.

(** ** A small library that meets the laws

    Not node:crypto: a stand-in with two bytes per code unit, two letters
    per byte and a cipher that only frames the plain text. It shows that
    the laws of [NodeCryptoLaws] can be met together. *)

Module CryptoModel.
Import Js Crypto.

Definition enc_byte (b : Byte.byte) : str :=
  let n := Byte.to_N b in
  [ascii_of_N (65 + n / 16); ascii_of_N (65 + n mod 16)].

Definition dec_byte (x y : ascii) : Byte.byte :=
  match Byte.of_N ((N_of_ascii x - 65) * 16 + (N_of_ascii y - 65)) with
  | Some b => b
  | None => Byte.x00
  end.

Fixpoint encode (b : bytes) : str :=
  match b with
  | [] => []
  | x :: b' => enc_byte x ++ encode b'
  end.

Fixpoint decode (s : str) : bytes :=
  match s with
  | x :: y :: s' => dec_byte x y :: decode s'
  | _ => []
  end.

(** The code units of a text byte by byte, and back. *)
Definition unit_bytes (s : utf16) : bytes :=
  flat_map (fun u => [fst u; snd u]) (toWellFormed s).

Fixpoint byte_units (b : bytes) : utf16 :=
  match b with
  | h :: l :: b' => (h, l) :: byte_units b'
  | _ => []
  end.

Definition frame (key iv plain : bytes) : bytes := Byte.x01 :: plain.

Definition unframe (key iv cipher : bytes) : result bytes :=
  match cipher with
  | _ :: plain =>
      if length iv =? IV_LENGTH then Ok plain
      else Throw (mkError (Some (lit "ERR_CRYPTO_INVALID_IV")) None
                          (Some (lit "Invalid initialization vector")))
  | [] => Throw (Error (lit "bad decrypt"))
  end.

#[export] Instance model : NodeCrypto := {
  utf8_encode := unit_bytes;
  utf8_decode := byte_units;
  base64_encode := encode;
  base64_decode := decode;
  sha256 := fun _ => repeat Byte.x00 32;
  aes_256_cbc_encrypt := frame;
  aes_256_cbc_decrypt := unframe
}.

End CryptoModel.

(** ** The store, as the specification speaks of it *)

Module StorageSpec.
Import Js Storage.

(** How many pages are marked default. *)
Definition default_count (ps : list Page.t) : nat :=
  length (filter Page.isDefault ps).

(** The invariant of the page collection: when there is a page, exactly
    one is the default. *)
Definition one_default (d : Db) : Prop :=
  pages d <> [] -> default_count (pages d) = 1.

(** The operations on page configurations, with what the environment
    supplies to each (the fresh id, the time stamp). *)
Inductive page_op : Type :=
| OpAdd (fresh now : str) (page : PageSpec)
| OpUpdate (now id : str) (updates : PageUpdates)
| OpDelete (id : str).

Definition run_op (o : page_op) (d : Db) : Db :=
  match o with
  | OpAdd fresh now page => fst (addPage fresh now page d)
  | OpUpdate now id updates => fst (updatePage now id updates d)
  | OpDelete id => fst (deletePage id d)
  end.

Definition run_ops (ops : list page_op) (d : Db) : Db :=
  fold_left (fun d o => run_op o d) ops d.

(** Operations that leave the default alone or move it: a page is added
    under an id not in use, and an update neither changes the id of the
    page nor sets [isDefault] to false. *)
Definition keeps_default (o : page_op) (d : Db) : Prop :=
  match o with
  | OpAdd fresh _ _ => ~ In fresh (map Page.id (pages d))
  | OpUpdate _ _ updates =>
      upd_id updates = None /\ upd_isDefault updates <> Some false
  | OpDelete _ => True
  end.

Fixpoint all_keep_default (ops : list page_op) (d : Db) : Prop :=
  match ops with
  | [] => True
  | o :: ops' => keeps_default o d /\ all_keep_default ops' (run_op o d)
  end.

(** One [addHistory] call: the id and time stamp drawn, and the record. *)
Definition append : Type := (str * str * HistorySpec)%type.

Definition stored (a : append) : HistoryRecord.t :=
  let '(fresh, now, record) := a in newRecord fresh now record.

(** A sequence of [addHistory] calls, the first of the list first. *)
Definition appendAll (calls : list append) (d : Db) : Db :=
  fold_left (fun d a => let '(fresh, now, record) := a in
                        fst (addHistory fresh now record d)) calls d.

(** [title] contains [text], letter case aside. *)
Definition ci_substring (text title : str) : Prop :=
  exists pre post, toLowerCase title = pre ++ toLowerCase text ++ post.

End StorageSpec.

(** ** The publisher, as the specification speaks of it *)

Module NotionSpec.
Import Js Notion.

(** The blocks a request carries. *)
Definition children {block : Type} (c : remote_call block) : list block :=
  match c with
  | PagesCreate _ _ bs => bs
  | BlocksChildrenAppend _ bs => bs
  end.

(** The batches of [blocks] from index [i] on: the next
    [MAX_BLOCKS_PER_REQUEST] blocks, as often as blocks remain. *)
Definition batches_from {block : Type} (i : nat) (blocks : list block)
  : list (list block) :=
  map (fun k => firstn MAX_BLOCKS_PER_REQUEST
                       (skipn (i + MAX_BLOCKS_PER_REQUEST * k) blocks))
      (seq 0 ((length blocks - i + (MAX_BLOCKS_PER_REQUEST - 1))
              / MAX_BLOCKS_PER_REQUEST)).

End NotionSpec.

(** ** utils/validator.js, the other functions *)

Module ValidatorRest.
Import Js Regex.

(** A literal character and a literal string of a pattern without the [i]
    flag. *)
Definition exact (x : ascii) : regex := Chr (ascii_eqb x).

Fixpoint exact_literal (s : str) : regex :=
  match s with
  | [] => Eps
  | x :: s' => Seq (exact x) (exact_literal s')
  end.

(** [[a-zA-Z0-9]] *)
Definition alnum (c : ascii) : bool :=
  in_range "a" "z" c || in_range "A" "Z" c || in_range "0" "9" c.

(** [/^(secret_|ntn_)[a-zA-Z0-9]+$/] *)
Definition re_api_key : regex :=
  Seq Bol
 (Seq (Seq (Grp (Alt (exact_literal (lit "secret_")) (exact_literal (lit "ntn_"))))
           (Plus (Chr alnum)))
      Eol).

(** [isValidApiKeyFormat(apiKey)] for a string. *)
Definition isValidApiKeyFormat (apiKey : str) : bool :=
  if negb (truthy apiKey) then false
  else test re_api_key (trim apiKey).

(** [Buffer.byteLength(s, 'utf8')] for code units below 256: one byte
    below U+0080, two from there on. *)
Definition utf8_byteLength (s : str) : nat :=
  list_sum (map (fun c => if (code_unit c <? 128)%N then 1 else 2) s).

(** What [validateMarkdown] returns: [{ valid, error }]. *)
Record Validation : Type := mkValidation { valid : bool; error : option str }.

Section ValidateMarkdown.

(** The text of the size error, which formats the two sizes in megabytes
    with [toFixed(2)]; it is given the byte size and the maximum. *)
Variable sizeError : nat -> Z -> str.

(** [validateMarkdown(markdown, maxSize = 10 * 1024 * 1024)]; [None] is a
    maximum left out. *)
Definition validateMarkdown (markdown : str) (maxSize : option Z) : Validation :=
  let maxSize := match maxSize with Some z => z | None => (10 * 1024 * 1024)%Z end in
  if negb (truthy markdown)
  then mkValidation false (Some (lit "Markdown content is required"))
  else
    let trimmed := trim markdown in
    if length trimmed =? 0
    then mkValidation false (Some (lit "Markdown content cannot be empty"))
    else
      let byteSize := utf8_byteLength trimmed in
      if (maxSize <? Z.of_nat byteSize)%Z
      then mkValidation false (Some (sizeError byteSize maxSize))
      else mkValidation true None.

End ValidateMarkdown.

(** [s.split(/\s+/)]: the pieces between the runs of white space; a run at
    the start or at the end leaves an empty piece there. [cur] is the piece
    being read, last character first, and [in_sep] tells that a run of
    white space is being skipped. *)
Fixpoint split_ws_from (cur : str) (in_sep : bool) (s : str) : list str :=
  match s with
  | [] => [rev cur]
  | c :: s' =>
      if is_ws c then
        if in_sep then split_ws_from [] true s'
        else rev cur :: split_ws_from [] true s'
      else split_ws_from (c :: cur) false s'
  end.

Definition split_ws (s : str) : list str := split_ws_from [] false s.

Definition newline : ascii := "010"%char.

(** What [getMarkdownStats] returns. *)
Record Stats : Type := mkStats { chars : nat; lines : nat; words : nat }.

(** [getMarkdownStats(markdown)] *)
Definition getMarkdownStats (markdown : str) : Stats :=
  if negb (truthy markdown) then mkStats 0 0 0
  else
    mkStats (length markdown)
            (length (split_on newline markdown))
            (length (filter (fun w => 0 <? length w)
                            (split_ws (trim markdown)))).

End ValidatorRest.

(** ** services/markdown.js *)

Module MarkdownService.
Import Js ValidatorRest.

Definition defaultTitle : str := lit "New Markdown Page".

(** The first loop of [extractTitle]: the first line that is a heading of
    level one or two. *)
Fixpoint firstHeading (lines : list str) : option str :=
  match lines with
  | [] => None
  | line :: rest =>
      let trimmed := trim line in
      if startsWith (lit "# ") trimmed then Some (trim (skipn 2 trimmed))
      else if startsWith (lit "## ") trimmed then Some (trim (skipn 3 trimmed))
      else firstHeading rest
  end.

(** The second loop: the first line that is not blank, cut at 50. *)
Fixpoint firstText (lines : list str) : option str :=
  match lines with
  | [] => None
  | line :: rest =>
      let trimmed := trim line in
      if 0 <? length trimmed then
        Some (if 50 <? length trimmed then firstn 50 trimmed ++ lit "..."
              else trimmed)
      else firstText rest
  end.

(** [extractTitle(markdown)] *)
Definition extractTitle (markdown : str) : str :=
  if negb (truthy markdown) then defaultTitle
  else
    let lines := split_on newline markdown in
    match firstHeading lines with
    | Some title => title
    | None =>
        match firstText lines with
        | Some title => title
        | None => defaultTitle
        end
    end.

(** [`${x}`] for a string that may be undefined. *)
Definition to_text (x : option str) : str :=
  match x with Some s => s | None => lit "undefined" end.

Section Converter.

(** [markdownToBlocks] of @tryfabric/martian. *)
Variable block : Type.
Variable markdownToBlocks : str -> result (list block).

(** [convertToBlocks(markdown)] *)
Definition convertToBlocks (markdown : str) : result (list block) :=
  if negb (truthy markdown) then Ok []
  else
    match markdownToBlocks markdown with
    | Ok blocks => Ok blocks
    | Throw e =>
        Throw (Error (lit "Failed to convert markdown: " ++ to_text (message e)))
    end.

End Converter.

End MarkdownService.

(** ** routes/history.js and routes/upload.js *)

Module Routes.
Import Js Storage Notion ValidatorRest MarkdownService.

(** *** GET /api/history *)

Definition unknownPage : str := lit "Unknown Page".

(** [pageConfig?.name || 'Unknown Page'], [pageConfig] being the page the
    record refers to. *)
Definition pageConfigName (pages : list Page.t) (record : HistoryRecord.t) : str :=
  match find (fun p => str_eqb (Page.id p) (HistoryRecord.pageConfigId record))
             pages with
  | Some pageConfig =>
      if truthy (Page.name pageConfig) then Page.name pageConfig else unknownPage
  | None => unknownPage
  end.

(** The handler, for a query that passed the schema: the records with the
    name of their page, and their number as [total]. *)
Definition historyRoute (limit : option Z) (search : option str) (d : Db)
  : list (HistoryRecord.t * str) * nat :=
  let limit := opt_else limit 50%Z in
  let search := opt_else search [] in
  let history := getHistory (Some limit) (Some search) d in
  let pages := getPages d in
  let enrichedHistory := map (fun record => (record, pageConfigName pages record))
                             history in
  (enrichedHistory, length enrichedHistory).

(** *** POST /api/upload *)

(** The body of the request. *)
Record UploadBody : Type := mkUploadBody {
  body_markdown : str;
  body_pageConfigId : option str;
  body_title : option str
}.

(** What the handler answers: an error with its status code, or the page
    created with the statistics of the text. *)
Inductive UploadReply : Type :=
| ReplyError (statusCode : nat) (error : str)
| ReplyUploaded (id url title : str) (stats : Stats).

(** Reading [storage.db.data] while [storage.db] is still null. *)
Definition nullData : JsError :=
  mkError None None (Some (lit "Cannot read properties of null (reading 'data')")).

Section Upload.
Context {lib : Crypto.NodeCrypto}.
Variable SECRET_KEY : option utf16.
Variable block : Type.
Variable world : Type.
Variable pages_create :
  world -> str -> str -> list block -> world * result PageResponse.
Variable blocks_children_append :
  world -> str -> list block -> world * result unit.
Variable markdownToBlocks : str -> result (list block).
Variable sizeError : nat -> Z -> str.

(** The handler. [db] is [storage.db.data], or [None] while no method of
    the store has been called and [storage.db] is null; [fresh] and [now]
    are the id and the time stamp [addHistory] draws. The result has the
    state of the service, the requests sent, the store, and the reply or
    the error thrown. *)
Definition upload (fresh now : str) (body : UploadBody) (db : option Db)
           (w : world)
  : world * list (remote_call block) * option Db * result UploadReply :=
  match db with
  | None => (w, [], None, Throw nullData)
  | Some d =>
      let markdown := body_markdown body in
      let validation :=
        validateMarkdown sizeError markdown (Some (maxFileSize (settings d))) in
      if negb (valid validation) then
        (w, [], Some d, Ok (ReplyError 400 (opt_else (error validation) [])))
      else
        let targetPage :=
          if truthy_opt (body_pageConfigId body) then
            find (fun p => str_eqb (Page.id p)
                                   (opt_else (body_pageConfigId body) []))
                 (getPages d)
          else getDefaultPage d in
        match targetPage with
        | None =>
            (w, [], Some d,
             Ok (ReplyError 400
                   (lit "No target page configured. Please add a page configuration first.")))
        | Some targetPage =>
            let pageTitle :=
              opt_else (or_else (body_title body) None) (extractTitle markdown) in
            match convertToBlocks markdownToBlocks markdown with
            | Throw e =>
                (w, [], Some d,
                 Ok (ReplyError 400
                       (lit "Failed to convert markdown: " ++ to_text (message e))))
            | Ok blocks =>
                let '(w', calls, result) :=
                  createPage SECRET_KEY pages_create blocks_children_append
                             d (Page.pageId targetPage) pageTitle blocks w in
                match result with
                | Success id url title =>
                    let record :=
                      mkHistorySpec pageTitle (Page.id targetPage)
                                    (Some id) (Some url) (lit "success") None in
                    (w', calls, Some (fst (addHistory fresh now record d)),
                     Ok (ReplyUploaded id url title (getMarkdownStats markdown)))
                | Failure err =>
                    let record :=
                      mkHistorySpec pageTitle (Page.id targetPage)
                                    None None (lit "failed")
                                    (or_else (Some err) None) in
                    (w', calls, Some (fst (addHistory fresh now record d)),
                     Ok (ReplyError 500 err))
                end
            end
        end
  end.

End Upload.

End Routes.

(** ** routes/config.js, with the checks of services/notion.js they call *)

Module ConfigRoutes.
Import Js Storage Notion Validator ValidatorRest.

(** The user [validateApiKey] reports, and the page [validatePageAccess]
    reports. *)
Record User : Type := mkUser {
  user_id : str;
  user_name : option str;
  user_type : str;
  user_avatarUrl : option str
}.

Record PageInfo : Type := mkPageInfo {
  info_id : str;
  info_title : str;
  info_url : str;
  info_createdTime : str;
  info_lastEditedTime : str
}.

(** What [pages.retrieve] answers, as far as it is read:
    [title_text] is [properties?.title?.title?.[0]?.plain_text] and
    [name_text] is [properties?.Name?.title?.[0]?.plain_text]. *)
Record Retrieved : Type := mkRetrieved {
  ret_id : str;
  ret_url : str;
  ret_created_time : str;
  ret_last_edited_time : str;
  title_text : option str;
  name_text : option str
}.

(** [{ valid: true, ... }] or [{ valid: false, error }]. *)
Inductive Checked (A : Type) : Type :=
| IsValid (a : A)
| NotValid (error : str).

Arguments IsValid {A} a.
Arguments NotValid {A} error.

(** What the two handlers answer. *)
Inductive ConfigReply : Type :=
| ConfigError (statusCode : nat) (error : str)
| ApiKeySaved
| PageAdded (page : Page.t).

Section Handlers.
Context {lib : Crypto.NodeCrypto}.
Variable SECRET_KEY : option utf16.

(** The remote service; each request goes out under an API key. *)
Variable world : Type.
Variable users_me : world -> str -> world * result User.
Variable pages_retrieve : world -> utf16 -> str -> world * result Retrieved.

(** [validateApiKey(apiKey)] *)
Definition validateApiKey (apiKey : str) (w : world) : world * Checked User :=
  match users_me w apiKey with
  | (w', Ok response) => (w', IsValid response)
  | (w', Throw e) => (w', NotValid (formatError e))
  end.

(** [validatePageAccess(pageId, apiKey = null)] *)
Definition validatePageAccess (pageId : str) (apiKey : option str)
           (d : Db) (w : world) : world * Checked PageInfo :=
  let client :=
    if truthy_opt apiKey then Ok (wide (opt_else apiKey []))
    else initClient SECRET_KEY d in
  match client with
  | Throw e => (w, NotValid (formatError e))
  | Ok key =>
      match pages_retrieve w key pageId with
      | (w', Throw e) => (w', NotValid (formatError e))
      | (w', Ok response) =>
          let title :=
            if truthy_opt (title_text response)
            then opt_else (title_text response) []
            else if truthy_opt (name_text response)
                 then opt_else (name_text response) []
                 else lit "Untitled" in
          (w', IsValid (mkPageInfo (ret_id response) title (ret_url response)
                                   (ret_created_time response)
                                   (ret_last_edited_time response)))
      end
  end.

(** POST /api/config/api-key; [iv] is the initialisation vector drawn when
    the key is stored. *)
Definition postApiKey (iv : Crypto.bytes) (apiKey : str) (d : Db) (w : world)
  : world * Db * ConfigReply :=
  if negb (isValidApiKeyFormat apiKey) then
    (w, d, ConfigError 400 (lit "Invalid API key format"))
  else
    match validateApiKey apiKey w with
    | (w', NotValid error) => (w', d, ConfigError 400 error)
    | (w', IsValid _) =>
        (w', fst (setApiKey SECRET_KEY iv (Some (wide apiKey)) d), ApiKeySaved)
    end.

(** POST /api/config/pages; [fresh] and [now] are the id and the time stamp
    [addPage] draws. *)
Definition postPage (fresh now : str) (name pageUrl : str)
           (isDefault : option bool) (d : Db) (w : world)
  : world * Db * ConfigReply :=
  match extractPageId pageUrl with
  | None => (w, d, ConfigError 400 (lit "Invalid Notion page URL or ID"))
  | Some pageId =>
      if negb (truthy pageId) then
        (w, d, ConfigError 400 (lit "Invalid Notion page URL or ID"))
      else
        match validatePageAccess pageId None d w with
        | (w', NotValid error) => (w', d, ConfigError 400 error)
        | (w', IsValid page) =>
            let added :=
              addPage fresh now
                      (mkPageSpec name pageId (Some (info_url page)) isDefault) d in
            (w', fst added, PageAdded (snd added))
        end
  end.

End Handlers.

End ConfigRoutes.

(** ** Counting in a text *)

Module TextSpec.
Import Js ValidatorRest.

(** The number of line feeds of a text. *)
Definition newlines (s : str) : nat :=
  length (filter (fun c => ascii_eqb c newline) s).

(** The number of words of a text: the places where a character that is
    not white space stands first or follows white space. [in_word] tells
    that the character before was not white space. *)
Fixpoint runs_from (in_word : bool) (s : str) : nat :=
  match s with
  | [] => 0
  | c :: s' =>
      if is_ws c then runs_from false s'
      else (if in_word then 0 else 1) + runs_from true s'
  end.

Definition word_runs (s : str) : nat := runs_from false s.

(** Some character of the text is not white space. *)
Definition not_blank (s : str) : bool := existsb (fun c => negb (is_ws c)) s.

End TextSpec.

(** ** The default pointer *)

Module PointerSpec.
Import Js Storage.

(** [config.defaultPageId] names the page marked default, and is null when
    no page is. *)
Definition pointer_agrees (d : Db) : Prop :=
  defaultPageId (config d) = option_map Page.id (getDefaultPage d).

End PointerSpec.

(** ** A complete publication *)

Module PublishSpec.
Import Js Notion NotionSpec.

(** The requests [createPage] sends when all goes well, for a page created
    under the id [pageId]. *)
Definition planned {block : Type} (parentPageId title pageId : str)
           (blocks : list block) : list (remote_call block) :=
  PagesCreate parentPageId title (firstn 100 blocks)
    :: map (BlocksChildrenAppend pageId) (batches_from 0 (skipn 100 blocks)).

End PublishSpec.

(** * Theorems *)

Module RegexFacts.
Import Js Regex RegexSpec.

(** Inversion of [Match], one constructor of patterns at a time. *)

Lemma Match_Seq_inv r1 r2 st c st2 c2 :
  Match (Seq r1 r2) st c st2 c2 ->
  exists st1 c1, Match r1 st c st1 c1 /\ Match r2 st1 c1 st2 c2.
Proof. intros H. inversion H; subst. eauto. Qed.

Lemma Match_Bol_inv st c st' c' :
  Match Bol st c st' c' -> idx st = 0 /\ st' = st /\ c' = c.
Proof. intros H. inversion H; subst. auto. Qed.

Lemma Match_Eol_inv st c st' c' :
  Match Eol st c st' c' -> rest st = [] /\ st' = st /\ c' = c.
Proof. intros H. inversion H; subst. auto. Qed.

Lemma Match_Chr_inv p st c st' c' :
  Match (Chr p) st c st' c' ->
  exists x, p x = true /\ rest st = x :: rest st' /\ c' = c.
Proof. intros H. inversion H; subst. simpl. eauto. Qed.

Lemma Match_Alt_inv r1 r2 st c st' c' :
  Match (Alt r1 r2) st c st' c' ->
  Match r1 st c st' c' \/ Match r2 st c st' c'.
Proof. intros H. inversion H; subst; auto. Qed.

Lemma Match_Grp_inv r st c st' c' :
  Match (Grp r) st c st' c' ->
  (exists c0, Match r st c st' c0) /\
  c' = Some (firstn (idx st' - idx st) (rest st)).
Proof. intros H. inversion H; subst. eauto. Qed.

Lemma star_loop_sound (body : state -> cap -> cont -> option cap) r :
  (forall st c k x, body st c k = Some x ->
                    exists st' c', Match r st c st' c' /\ k st' c' = Some x) ->
  forall n k st c x,
    star_loop body k n st c = Some x ->
    exists st' c', Match (Star r) st c st' c' /\ k st' c' = Some x.
Proof.
  intros Hbody n. induction n as [|n IH]; intros k st c x H; simpl in H.
  - exists st, c. split; [constructor | exact H].
  - destruct (body st c _) as [y|] eqn:E.
    + inversion H; subst y; clear H.
      apply Hbody in E. destruct E as (st1 & c1 & HM & Hk).
      destruct (length (rest st1) <? length (rest st)) eqn:Hlt; [|discriminate].
      apply Nat.ltb_lt in Hlt.
      apply IH in Hk. destruct Hk as (st2 & c2 & HS & Hk).
      exists st2, c2. split; [|exact Hk].
      eapply MStarMore; eauto.
    + exists st, c. split; [constructor | exact H].
Qed.

(** Whatever the matcher returns comes from a match of the pattern
    followed by a success of the continuation. *)
Lemma m_sound r :
  forall st c k x,
    m r st c k = Some x ->
    exists st' c', Match r st c st' c' /\ k st' c' = Some x.
Proof.
  induction r; intros st c k x H; simpl in H.
  - exists st, c. split; [constructor | exact H].
  - destruct (idx st =? 0) eqn:E; [|discriminate].
    apply Nat.eqb_eq in E. exists st, c. split; [constructor; exact E | exact H].
  - destruct (rest st) eqn:E; [|discriminate].
    exists st, c. split; [constructor; exact E | exact H].
  - destruct st as [i s]. simpl in H. destruct s as [|y s']; [discriminate|].
    destruct (p y) eqn:E; [|discriminate].
    eexists _, c. split; [constructor; exact E | exact H].
  - apply IHr1 in H. destruct H as (st1 & c1 & H1 & H).
    apply IHr2 in H. destruct H as (st2 & c2 & H2 & H).
    exists st2, c2. split; [econstructor; eauto | exact H].
  - destruct (m r1 st c k) as [y|] eqn:E.
    + inversion H; subst y. apply IHr1 in E. destruct E as (st1 & c1 & H1 & Hk).
      exists st1, c1. split; [apply MAltL; exact H1 | exact Hk].
    + apply IHr2 in H. destruct H as (st1 & c1 & H1 & Hk).
      exists st1, c1. split; [apply MAltR; exact H1 | exact Hk].
  - destruct (m r st c k) as [y|] eqn:E.
    + inversion H; subst y. apply IHr in E. destruct E as (st1 & c1 & H1 & Hk).
      exists st1, c1. split; [apply MOptSome; exact H1 | exact Hk].
    + exists st, c. split; [apply MOptNone | exact H].
  - eapply star_loop_sound; eauto.
  - apply IHr in H. destruct H as (st1 & c1 & H1 & Hk).
    eexists st1, _. split; [eapply MGrp; exact H1 | exact Hk].
Qed.

(** Conversely, a match after which the continuation succeeds makes the
    matcher succeed (with that result or one of higher priority). *)
Lemma m_complete r st c st' c' :
  Match r st c st' c' ->
  forall k, k st' c' <> None ->
    m r st c k <> None /\
    (forall r0 n, r = Star r0 -> length (rest st) <= n ->
                  star_loop (m r0) k n st c <> None).
Proof.
  induction 1; intros k Hk.
  - split; [exact Hk | discriminate].
  - split; [simpl; rewrite H; exact Hk | discriminate].
  - split; [simpl; rewrite H; exact Hk | discriminate].
  - split; [simpl; rewrite H; exact Hk | discriminate].
  - split; [|discriminate]. simpl.
    apply IHMatch1. apply IHMatch2. exact Hk.
  - split; [|discriminate]. simpl.
    destruct (m r1 st c k) eqn:E; [discriminate|].
    exfalso. apply (proj1 (IHMatch k Hk)). exact E.
  - split; [|discriminate]. simpl.
    destruct (m r1 st c k) eqn:E; [discriminate|].
    apply IHMatch. exact Hk.
  - split; [|discriminate]. simpl.
    destruct (m r st c k) eqn:E; [discriminate|].
    exfalso. apply (proj1 (IHMatch k Hk)). exact E.
  - split; [|discriminate]. simpl.
    destruct (m r st c k) eqn:E; [discriminate | exact Hk].
  - assert (Hloop : forall n, star_loop (m r) k n st c <> None).
    { intros [|n]; simpl; [exact Hk|].
      destruct (m r st c _); [discriminate | exact Hk]. }
    split; [apply Hloop|].
    intros r0 n Heq _. inversion Heq; subst r0. apply Hloop.
  - assert (Hloop : forall n, length (rest st) <= n ->
                              star_loop (m r) k n st c <> None).
    { intros [|n] Hn; [lia|]. simpl.
      match goal with |- match ?e with _ => _ end <> _ =>
        destruct e eqn:E; [discriminate|] end.
      exfalso. revert E. apply IHMatch1.
      apply Nat.ltb_lt in H0 as Hlt. rewrite Hlt.
      apply (proj2 (IHMatch2 k Hk) r n eq_refl). lia. }
    split; [apply Hloop; lia|].
    intros r0 n Heq Hn. inversion Heq; subst r0. apply Hloop. exact Hn.
  - split; [|discriminate]. simpl.
    apply IHMatch. exact Hk.
Qed.

Lemma search_from_sound r :
  forall s i c,
    search_from r i s = Some c ->
    exists pre s0 st',
      s = pre ++ s0 /\ Match r (mkState (i + length pre) s0) None st' c.
Proof.
  induction s as [|a s IH]; intros i c H; simpl in H.
  - destruct (m r _ None accept) eqn:E; [|discriminate].
    inversion H; subst. apply m_sound in E.
    destruct E as (st' & c' & HM & Hk). inversion Hk; subst.
    exists [], [], st'. rewrite Nat.add_0_r. auto.
  - destruct (m r _ None accept) eqn:E.
    + inversion H; subst. apply m_sound in E.
      destruct E as (st' & c' & HM & Hk). inversion Hk; subst.
      exists [], (a :: s), st'. rewrite Nat.add_0_r. auto.
    + apply IH in H. destruct H as (pre & s0 & st' & -> & HM).
      exists (a :: pre), s0, st'. split; [reflexivity|].
      simpl. rewrite Nat.add_succ_r. exact HM.
Qed.

Lemma search_from_complete r :
  forall pre s0 i st' c,
    Match r (mkState (i + length pre) s0) None st' c ->
    search_from r i (pre ++ s0) <> None.
Proof.
  induction pre as [|a pre IH]; intros s0 i st' c HM.
  - simpl in *. rewrite Nat.add_0_r in HM.
    destruct (m_complete HM accept) as [Hm _]; [discriminate|].
    destruct s0; simpl; destruct (m r _ None accept); congruence.
  - simpl. destruct (m r _ None accept); [discriminate|].
    apply (IH s0 (S i) st' c). simpl in HM. rewrite Nat.add_succ_r in HM. exact HM.
Qed.

(** [exec] finds a match exactly when there is one, and the capture it
    returns is the capture of a match. *)
Lemma exec_sound r s c : exec r s = Some c -> MatchIn r s c.
Proof.
  intros H. apply search_from_sound in H. exact H.
Qed.

Lemma exec_complete r s c : MatchIn r s c -> exec r s <> None.
Proof.
  intros (pre & s0 & st' & -> & HM).
  apply (@search_from_complete r pre s0 0 st' c). exact HM.
Qed.

Lemma exec_none r s : exec r s = None <-> forall c, ~ MatchIn r s c.
Proof.
  split.
  - intros H c HM. apply exec_complete in HM. contradiction.
  - intros H. destruct (exec r s) eqn:E; [|reflexivity].
    apply exec_sound in E. exfalso. eapply H; eauto.
Qed.

End RegexFacts.

Module LangFacts.
Import Js Regex RegexSpec.

Lemma consumes_refl st : Consumes st [] st.
Proof. split; simpl; auto. Qed.

Lemma consumes_trans st u st1 v st2 :
  Consumes st u st1 -> Consumes st1 v st2 -> Consumes st (u ++ v) st2.
Proof.
  intros [H1 H2] [H3 H4]. split.
  - rewrite H1, H3, app_assoc. reflexivity.
  - rewrite H4, H2, length_app. lia.
Qed.

Lemma consumes_length st w st' :
  Consumes st w st' -> length (rest st) = length w + length (rest st').
Proof. intros [H _]. rewrite H, length_app. reflexivity. Qed.

Lemma consumes_firstn st w st' :
  Consumes st w st' -> firstn (idx st' - idx st) (rest st) = w.
Proof.
  intros [H1 H2]. rewrite H1, H2.
  replace (idx st + length w - idx st) with (length w + 0) by lia.
  rewrite firstn_app_2. simpl. apply app_nil_r.
Qed.

(** A pattern without anchors and groups matches between two positions
    exactly when the code units in between are a word of its language. *)
Lemma Match_plain r st c st' c' :
  Match r st c st' c' -> plain r = true ->
  exists w, Lang r w /\ Consumes st w st' /\ c' = c.
Proof.
  induction 1; simpl; intros Hp; try discriminate.
  - exists []. repeat split; auto.
  - exists [x]. repeat split; simpl; eauto. lia.
  - apply andb_prop in Hp. destruct Hp as [Hp1 Hp2].
    destruct (IHMatch1 Hp1) as (u & Hu & Cu & ->).
    destruct (IHMatch2 Hp2) as (v & Hv & Cv & ->).
    exists (u ++ v). split; [exists u, v; auto|].
    split; [eapply consumes_trans; eauto | reflexivity].
  - apply andb_prop in Hp. destruct Hp as [Hp1 Hp2].
    destruct (IHMatch Hp1) as (u & Hu & Cu & ->).
    exists u. auto.
  - apply andb_prop in Hp. destruct Hp as [Hp1 Hp2].
    destruct (IHMatch Hp2) as (u & Hu & Cu & ->).
    exists u. auto.
  - destruct (IHMatch Hp) as (u & Hu & Cu & ->). exists u. auto.
  - exists []. split; [left; reflexivity|]. split; [apply consumes_refl | reflexivity].
  - exists []. split; [exists []; split; [reflexivity | constructor]|].
    split; [apply consumes_refl | reflexivity].
  - destruct (IHMatch1 Hp) as (u & Hu & Cu & ->).
    destruct (IHMatch2 Hp) as (v & (ws & -> & Hws) & Cv & ->).
    exists (u ++ concat ws). split.
    + exists (u :: ws). split; [reflexivity|]. constructor; [|exact Hws].
      split; [|exact Hu]. intros ->.
      apply consumes_length in Cu. simpl in Cu. lia.
    + split; [eapply consumes_trans; eauto | reflexivity].
Qed.

Lemma plain_Match r :
  plain r = true ->
  forall w, Lang r w ->
  forall i s c, Match r (mkState i (w ++ s)) c (mkState (i + length w) s) c.
Proof.
  induction r; simpl; intros Hp w Hw i s c; try discriminate.
  - subst w. simpl. rewrite Nat.add_0_r. constructor.
  - destruct Hw as (x & -> & Hx). simpl. rewrite Nat.add_1_r.
    constructor. exact Hx.
  - apply andb_prop in Hp. destruct Hp as [Hp1 Hp2].
    destruct Hw as (u & v & -> & Hu & Hv).
    rewrite <- app_assoc, length_app, Nat.add_assoc.
    eapply MSeq; [apply IHr1 | apply IHr2]; auto.
  - apply andb_prop in Hp. destruct Hp as [Hp1 Hp2].
    destruct Hw as [Hw|Hw]; [apply MAltL | apply MAltR]; auto.
  - destruct Hw as [->|Hw].
    + simpl. rewrite Nat.add_0_r. apply MOptNone.
    + apply MOptSome. auto.
  - destruct Hw as (ws & -> & Hws). revert i.
    induction Hws as [|u ws [Hne Hu] _ IH]; intros i.
    + simpl. rewrite Nat.add_0_r. apply MStarDone.
    + simpl. rewrite <- app_assoc, length_app, Nat.add_assoc.
      eapply MStarMore; [apply IHr; auto | | apply IH].
      simpl. rewrite !length_app. destruct u; [congruence | simpl; lia].
Qed.

(** The languages of the building blocks of the four patterns. *)

Lemma Lang_Rep_Chr p n w :
  Lang (Rep n (Chr p)) w <-> length w = n /\ forallb p w = true.
Proof.
  revert w. induction n as [|n IH]; intros w; simpl.
  - split; [intros ->; auto | intros [H _]; destruct w; [auto | discriminate]].
  - split.
    + intros (u & v & -> & (x & -> & Hx) & Hv).
      apply IH in Hv. destruct Hv as [Hl Hf]. simpl. rewrite Hx, Hf, Hl. auto.
    + intros [Hl Hf]. destruct w as [|x w]; [discriminate|].
      simpl in *. apply andb_prop in Hf. destruct Hf as [Hx Hf].
      exists [x], w. split; [reflexivity|]. split; [eauto|].
      apply IH. split; [lia | exact Hf].
Qed.

Lemma Lang_Plus_Chr p w :
  Lang (Plus (Chr p)) w <-> w <> [] /\ forallb p w = true.
Proof.
  unfold Plus. simpl. split.
  - intros (u & v & -> & (x & -> & Hx) & ws & -> & Hws).
    split; [discriminate|]. simpl. rewrite Hx. simpl.
    induction Hws as [|u ws [_ (y & -> & Hy)] _ IH]; simpl; auto.
    rewrite Hy. exact IH.
  - intros [Hne Hf]. destruct w as [|x w]; [congruence|].
    simpl in Hf. apply andb_prop in Hf. destruct Hf as [Hx Hf].
    exists [x], w. split; [reflexivity|]. split; [eauto|].
    clear Hne Hx. induction w as [|y w IH].
    + exists []. split; [reflexivity | constructor].
    + simpl in Hf. apply andb_prop in Hf. destruct Hf as [Hy Hf].
      destruct (IH Hf) as (ws & Hc & Hws).
      exists ([y] :: ws). split; [simpl; rewrite <- Hc; reflexivity|].
      constructor; [|exact Hws]. split; [discriminate | eauto].
Qed.

End LangFacts.

Module ValidatorFacts.
Import Js Regex RegexSpec RegexFacts LangFacts Validator ValidatorSpec.

Ltac inv H := inversion H; subst; clear H.

(** *** Character classes under the [i] flag *)

Lemma in_all_chars c : In c all_chars.
Proof.
  unfold all_chars. apply in_map_iff. exists (nat_of_ascii c).
  split; [apply ascii_nat_embedding|].
  apply in_seq. pose proof (nat_ascii_bounded c). lia.
Qed.

Lemma all_chars_forall (P : ascii -> bool) :
  forallb P all_chars = true -> forall c, P c = true.
Proof.
  intros H c. rewrite forallb_forall in H. apply H, in_all_chars.
Qed.

Lemma bool_eqb_eq a b : Bool.eqb a b = true -> a = b.
Proof. destruct a, b; simpl; congruence. Qed.

Lemma class_hex c : class_i hex_members c = is_hex c.
Proof.
  apply bool_eqb_eq.
  apply (all_chars_forall (fun c => Bool.eqb (class_i hex_members c) (is_hex c))).
  vm_compute. reflexivity.
Qed.

(** A character other than a letter stands for itself alone. *)
Lemma class_slash c : class_i (ascii_eqb "/") c = ascii_eqb c "/".
Proof.
  apply bool_eqb_eq.
  apply (all_chars_forall
           (fun c => Bool.eqb (class_i (ascii_eqb "/") c) (ascii_eqb c "/"))).
  vm_compute. reflexivity.
Qed.

Lemma class_dash c : class_i (ascii_eqb "-") c = ascii_eqb c "-".
Proof.
  apply bool_eqb_eq.
  apply (all_chars_forall
           (fun c => Bool.eqb (class_i (ascii_eqb "-") c) (ascii_eqb c "-"))).
  vm_compute. reflexivity.
Qed.

Lemma class_question c : class_i (ascii_eqb "?") c = ascii_eqb c "?".
Proof.
  apply bool_eqb_eq.
  apply (all_chars_forall
           (fun c => Bool.eqb (class_i (ascii_eqb "?") c) (ascii_eqb c "?"))).
  vm_compute. reflexivity.
Qed.

(** The characters of [notion.so/] stand for themselves and, the letters,
    for their capitals: for what lower-cases to them. *)
Lemma class_host x c :
  In x (lit "notion.so/") ->
  class_i (ascii_eqb x) c = ascii_eqb (lower_char c) x.
Proof.
  intros Hx. apply bool_eqb_eq. revert c.
  apply (all_chars_forall
           (fun c => Bool.eqb (class_i (ascii_eqb x) c) (ascii_eqb (lower_char c) x))).
  simpl in Hx.
  repeat (destruct Hx as [<-|Hx]; [vm_compute; reflexivity|]).
  destruct Hx.
Qed.

Lemma ascii_eqb_eq a b : ascii_eqb a b = true <-> a = b.
Proof. apply Ascii.eqb_eq. Qed.

Lemma forallb_ext_eq {A} (f g : A -> bool) l :
  (forall x, f x = g x) -> forallb f l = forallb g l.
Proof. intros H. induction l; simpl; congruence. Qed.

(** *** The languages of the pieces *)

Lemma Lang_hex_run n w : Lang (Rep n hex) w <-> hex_run n w.
Proof.
  unfold hex, hex_run. rewrite Lang_Rep_Chr.
  rewrite (forallb_ext_eq _ is_hex w class_hex). reflexivity.
Qed.

Lemma Lang_dash w : Lang dash w <-> w = lit "-".
Proof.
  unfold dash, chr. simpl. split.
  - intros (x & -> & Hx). rewrite class_dash in Hx.
    apply ascii_eqb_eq in Hx. subst. reflexivity.
  - intros ->. exists "-"%char. split; [reflexivity | vm_compute; reflexivity].
Qed.

Lemma forallb_not_sep sep body :
  forallb (fun c => negb (ascii_eqb c sep)) body = true <-> ~ In sep body.
Proof.
  induction body as [|c body IH]; simpl.
  - split; auto.
  - rewrite andb_true_iff, IH, negb_true_iff. split.
    + intros [Hc Hb] [->|Hin]; [|auto].
      unfold ascii_eqb in Hc. rewrite Ascii.eqb_refl in Hc. discriminate.
    + intros H. split; [|intros Hin; apply H; auto].
      destruct (ascii_eqb c sep) eqn:E; [|reflexivity].
      apply ascii_eqb_eq in E. subst. exfalso. apply H. auto.
Qed.

Lemma Lang_segment sep w :
  (forall c, class_i (ascii_eqb sep) c = ascii_eqb c sep) ->
  Lang (Seq (Plus (notchr sep)) (chr sep)) w <-> segment sep w.
Proof.
  intros Hsep. unfold notchr, chr, segment.
  change (Lang (Seq ?a ?b) w) with (exists u v, w = u ++ v /\ Lang a u /\ Lang b v).
  split.
  - intros (u & v & -> & Hu & x & -> & Hx).
    apply Lang_Plus_Chr in Hu. destruct Hu as [Hne Hf].
    rewrite Hsep in Hx. apply ascii_eqb_eq in Hx. subst x.
    exists u. split; [exact Hne|]. split; [|reflexivity].
    apply forallb_not_sep.
    rewrite <- Hf. apply forallb_ext_eq. intros c. rewrite Hsep. reflexivity.
  - intros (body & Hne & Hnin & ->).
    exists body, [sep]. split; [reflexivity|]. split.
    + apply Lang_Plus_Chr. split; [exact Hne|].
      apply forallb_not_sep in Hnin. rewrite <- Hnin.
      apply forallb_ext_eq. intros c. rewrite Hsep. reflexivity.
    + exists sep. split; [reflexivity|]. rewrite Hsep.
      unfold ascii_eqb. apply Ascii.eqb_refl.
Qed.

Lemma Lang_literal x : forall w,
  (forall a c, In a x -> class_i (ascii_eqb a) c = ascii_eqb (lower_char c) a) ->
  Lang (literal x) w <-> toLowerCase w = x.
Proof.
  induction x as [|a x IH]; intros w Hx; simpl.
  - split; [intros ->; reflexivity | destruct w; [auto | discriminate]].
  - split.
    + intros (u & v & -> & (c & -> & Hc) & Hv).
      rewrite Hx in Hc by (left; reflexivity). apply ascii_eqb_eq in Hc.
      apply IH in Hv; [|intros; apply Hx; right; assumption].
      unfold toLowerCase in *. simpl. rewrite Hc, Hv. reflexivity.
    + destruct w as [|c w]; [discriminate|]. simpl. intros H. inv H.
      exists [c], w. split; [reflexivity|]. split.
      * exists c. split; [reflexivity|]. rewrite Hx by (left; reflexivity).
        unfold ascii_eqb. apply Ascii.eqb_refl.
      * apply IH; [intros; apply Hx; right; assumption | reflexivity].
Qed.

Lemma Lang_host w :
  Lang (literal (lit "notion.so/")) w <-> toLowerCase w = lit "notion.so/".
Proof.
  apply Lang_literal. intros a c Ha. apply class_host. exact Ha.
Qed.

(** *** The four patterns *)

Lemma test_true r s : test r s = true <-> exec r s <> None.
Proof. unfold test. destruct (exec r s); split; congruence. Qed.

(** [^body$] tests whether the whole string is a word of [body]. *)
Lemma test_anchored body s :
  plain body = true ->
  test (Seq Bol (Seq body Eol)) s = true <-> Lang body s.
Proof.
  intros Hp. rewrite test_true. split.
  - intros H. destruct (exec _ s) as [c|] eqn:E; [clear H | congruence].
    apply exec_sound in E. destruct E as (pre & s0 & st' & -> & HM).
    apply Match_Seq_inv in HM. destruct HM as (st1 & c1 & HB & HM).
    apply Match_Bol_inv in HB. destruct HB as (Hi & -> & ->).
    apply Match_Seq_inv in HM. destruct HM as (st2 & c2 & HM & HE).
    apply Match_Eol_inv in HE. destruct HE as (Hr & -> & ->).
    simpl in Hi. destruct pre; [|discriminate]. simpl.
    destruct (Match_plain HM Hp) as (w & Hw & [Hc _] & _).
    simpl in Hc. rewrite Hr, app_nil_r in Hc. subst. exact Hw.
  - intros Hw. apply exec_complete with (c := None).
    exists [], s, (mkState (0 + length s) []). split; [reflexivity|].
    eapply MSeq; [apply MBol; reflexivity|].
    eapply MSeq; [|apply MEol; reflexivity].
    pose proof (plain_Match body Hp s Hw 0 [] None) as HM.
    rewrite app_nil_r in HM. exact HM.
Qed.

(** [prefix(group)]: the capture is the word of [group] found. *)
Lemma exec_group_last P X s c :
  plain P = true -> plain X = true ->
  exec (Seq P (Grp X)) s = Some c ->
  exists pre u run post,
    s = pre ++ u ++ run ++ post /\ Lang P u /\ Lang X run /\ c = Some run.
Proof.
  intros HP HX E. apply exec_sound in E.
  destruct E as (pre & s0 & st' & -> & HM).
  apply Match_Seq_inv in HM. destruct HM as (st1 & c1 & HM1 & HM2).
  apply Match_Grp_inv in HM2. destruct HM2 as ((c0 & HM2) & ->).
  destruct (Match_plain HM1 HP) as (u & Hu & Cu & ->).
  destruct (Match_plain HM2 HX) as (run & Hrun & Crun & _).
  exists pre, u, run, (rest st'). repeat split; auto.
  - f_equal. destruct Cu as [Cu _]. destruct Crun as [Crun _].
    simpl in Cu. rewrite Cu, Crun. reflexivity.
  - f_equal. apply consumes_firstn. exact Crun.
Qed.

Lemma exec_group_last_complete P X pre u run post :
  plain P = true -> plain X = true ->
  Lang P u -> Lang X run ->
  exec (Seq P (Grp X)) (pre ++ u ++ run ++ post) <> None.
Proof.
  intros HP HX Hu Hrun.
  apply exec_complete with (c := Some (firstn (length pre + length u + length run - (length pre + length u)) (run ++ post))).
  exists pre, (u ++ run ++ post), (mkState (length pre + length u + length run) post).
  split; [reflexivity|].
  eapply MSeq; [apply (plain_Match P HP u Hu)|].
  apply (MGrp (plain_Match X HX run Hrun (length pre + length u) post None)).
Qed.

(** [(group)(?:x|$)] *)
Lemma exec_group_first X p s c :
  plain X = true ->
  exec (Seq (Grp X) (Alt (Chr p) Eol)) s = Some c ->
  exists pre run post,
    s = pre ++ run ++ post /\ Lang X run /\ c = Some run /\
    (post = [] \/ exists x q, post = x :: q /\ p x = true).
Proof.
  intros HX E. apply exec_sound in E.
  destruct E as (pre & s0 & st' & -> & HM).
  apply Match_Seq_inv in HM. destruct HM as (st1 & c1 & HM1 & HM2).
  apply Match_Grp_inv in HM1. destruct HM1 as ((c0 & HM1) & ->).
  destruct (Match_plain HM1 HX) as (run & Hrun & Crun & _).
  pose proof (consumes_firstn Crun) as Hcap. destruct Crun as [Crun _].
  simpl in Crun, Hcap. simpl in HM2. rewrite Hcap in HM2.
  exists pre, run, (rest st1). split; [rewrite Crun; reflexivity|].
  split; [exact Hrun|].
  apply Match_Alt_inv in HM2. destruct HM2 as [HM2|HM2].
  - apply Match_Chr_inv in HM2. destruct HM2 as (x & Hx & Hr & ->).
    split; [reflexivity|]. right. eauto.
  - apply Match_Eol_inv in HM2. destruct HM2 as (Hr & -> & ->).
    split; [reflexivity|]. left. exact Hr.
Qed.

Lemma exec_group_first_complete X p pre run post :
  plain X = true -> Lang X run ->
  (post = [] \/ exists x q, post = x :: q /\ p x = true) ->
  exec (Seq (Grp X) (Alt (Chr p) Eol)) (pre ++ run ++ post) <> None.
Proof.
  intros HX Hrun Hpost.
  pose proof (MGrp (plain_Match X HX run Hrun (length pre) post None)) as HG.
  destruct Hpost as [->|(x & q & -> & Hx)].
  - eapply exec_complete. exists pre, (run ++ []), (mkState (length pre + length run) []).
    split; [reflexivity|].
    eapply MSeq; [exact HG|]. apply MAltR. apply MEol. reflexivity.
  - eapply exec_complete.
    exists pre, (run ++ x :: q), (mkState (S (length pre + length run)) q).
    split; [reflexivity|].
    eapply MSeq; [exact HG|]. apply MAltL. apply MChr. exact Hx.
Qed.

Lemma re_id_spec s : test re_id s = true <-> is_id s.
Proof.
  unfold re_id, is_id. rewrite test_anchored by reflexivity.
  apply Lang_hex_run.
Qed.

Lemma re_uuid_spec s : test re_uuid s = true <-> exists bare, is_uuid s bare.
Proof.
  unfold re_uuid, is_uuid. rewrite test_anchored by reflexivity.
  split.
  - intros (a & ? & -> & Ha & d1 & ? & -> & Hd1
              & b & ? & -> & Hb & d2 & ? & -> & Hd2
              & c & ? & -> & Hc & d3 & ? & -> & Hd3
              & d & ? & -> & Hd & d4 & e & -> & Hd4 & He).
    apply Lang_dash in Hd1, Hd2, Hd3, Hd4.
    subst. apply Lang_hex_run in Ha, Hb, Hc, Hd, He.
    exists (a ++ b ++ c ++ d ++ e), a, b, c, d, e. tauto.
  - intros (bare & a & b & c & d & e & -> & _ & Ha & Hb & Hc & Hd & He).
    apply Lang_hex_run in Ha, Hb, Hc, Hd, He.
    pose proof (proj2 (Lang_dash (lit "-")) eq_refl) as Hdash.
    eexists a, _. split; [reflexivity|]. split; [exact Ha|].
    eexists (lit "-"), _. split; [reflexivity|]. split; [exact Hdash|].
    eexists b, _. split; [reflexivity|]. split; [exact Hb|].
    eexists (lit "-"), _. split; [reflexivity|]. split; [exact Hdash|].
    eexists c, _. split; [reflexivity|]. split; [exact Hc|].
    eexists (lit "-"), _. split; [reflexivity|]. split; [exact Hdash|].
    eexists d, _. split; [reflexivity|]. split; [exact Hd|].
    exists (lit "-"), e. split; [reflexivity|]. split; [exact Hdash | exact He].
Qed.

Lemma hex_not_dash c : is_hex c = true -> ascii_eqb c "-" = false.
Proof.
  intros H. destruct (ascii_eqb c "-") eqn:E; [|reflexivity].
  apply ascii_eqb_eq in E. subst. discriminate.
Qed.

Lemma remove_dashes_hex n w : hex_run n w -> remove_dashes w = w.
Proof.
  intros [_ H]. unfold remove_dashes. induction w as [|c w IH]; simpl in *.
  - reflexivity.
  - apply andb_prop in H. destruct H as [Hc Hw].
    rewrite (hex_not_dash c Hc). simpl. rewrite IH; auto.
Qed.

Lemma remove_dashes_app u v :
  remove_dashes (u ++ v) = remove_dashes u ++ remove_dashes v.
Proof. apply filter_app. Qed.

(** Stripping the dashes of a dashed identifier leaves its five groups. *)
Lemma uuid_remove_dashes s bare : is_uuid s bare -> remove_dashes s = bare.
Proof.
  intros (a & b & c & d & e & -> & -> & Ha & Hb & Hc & Hd & He).
  rewrite !remove_dashes_app.
  rewrite (remove_dashes_hex Ha), (remove_dashes_hex Hb), (remove_dashes_hex Hc),
          (remove_dashes_hex Hd), (remove_dashes_hex He).
  reflexivity.
Qed.

Lemma segment_nonempty sep w : segment sep w -> w <> [].
Proof. intros (body & _ & _ & ->). destruct body; discriminate. Qed.

Lemma Lang_url_prefix u :
  Lang url_prefix u <->
  exists host workspace slugs,
    u = host ++ workspace ++ concat slugs /\
    toLowerCase host = lit "notion.so/" /\
    (workspace = [] \/ segment "/" workspace) /\
    Forall (segment "-") slugs.
Proof.
  unfold url_prefix.
  change (Lang (Seq ?a (Seq (Opt ?b) (Star ?c))) u)
    with (exists h v, u = h ++ v /\ Lang a h /\
          exists w z, v = w ++ z /\ (w = [] \/ Lang b w) /\
          exists ws, z = concat ws /\ Forall (fun x => x <> [] /\ Lang c x) ws).
  split.
  - intros (h & v & -> & Hh & w & z & -> & Hw & ws & -> & Hws).
    exists h, w, ws. split; [reflexivity|].
    split; [apply Lang_host; exact Hh|]. split.
    + destruct Hw as [->|Hw]; [left; reflexivity | right].
      apply (Lang_segment "/" w class_slash). exact Hw.
    + eapply Forall_impl; [|exact Hws]. intros x [_ Hx].
      apply (Lang_segment "-" x class_dash). exact Hx.
  - intros (h & w & ws & -> & Hh & Hw & Hws).
    exists h, (w ++ concat ws). split; [reflexivity|].
    split; [apply Lang_host; exact Hh|].
    exists w, (concat ws). split; [reflexivity|]. split.
    + destruct Hw as [->|Hw]; [left; reflexivity | right].
      apply (Lang_segment "/" w class_slash). exact Hw.
    + exists ws. split; [reflexivity|].
      eapply Forall_impl; [|exact Hws]. intros x Hx.
      split; [eapply segment_nonempty; eauto|].
      apply (Lang_segment "-" x class_dash). exact Hx.
Qed.

Lemma re_url_sound s c :
  exec re_url s = Some c -> exists run, c = Some run /\ url_id s run.
Proof.
  intros E. apply (@exec_group_last url_prefix (Rep 32 hex)) in E;
    [|reflexivity|reflexivity].
  destruct E as (pre & u & run & post & -> & Hu & Hrun & ->).
  apply Lang_url_prefix in Hu.
  destruct Hu as (host & ws & slugs & -> & Hh & Hw & Hs).
  apply Lang_hex_run in Hrun.
  exists run. split; [reflexivity|].
  exists pre, host, ws, slugs, post. rewrite <- !app_assoc. auto.
Qed.

Lemma re_url_complete s run : url_id s run -> exec re_url s <> None.
Proof.
  intros (pre & host & ws & slugs & post & -> & Hh & Hw & Hs & Hrun).
  replace (pre ++ host ++ ws ++ concat slugs ++ run ++ post)
    with (pre ++ (host ++ ws ++ concat slugs) ++ run ++ post)
    by (rewrite <- !app_assoc; reflexivity).
  apply (@exec_group_last_complete url_prefix (Rep 32 hex));
    [reflexivity | reflexivity | | apply Lang_hex_run; exact Hrun].
  apply Lang_url_prefix. exists host, ws, slugs. auto.
Qed.

Lemma re_last_sound s c :
  exec re_last s = Some c -> exists run, c = Some run /\ bare_id s run.
Proof.
  intros E. apply exec_group_first in E; [|reflexivity].
  destruct E as (pre & run & post & -> & Hrun & -> & Hpost).
  apply Lang_hex_run in Hrun.
  exists run. split; [reflexivity|].
  exists pre, post. split; [reflexivity|]. split; [exact Hrun|].
  destruct Hpost as [->|(x & q & -> & Hx)]; [left; reflexivity | right].
  rewrite class_question in Hx. apply ascii_eqb_eq in Hx. subst. eauto.
Qed.

Lemma re_last_complete s run : bare_id s run -> exec re_last s <> None.
Proof.
  intros (pre & post & -> & Hrun & Hpost).
  apply exec_group_first_complete;
    [reflexivity | apply Lang_hex_run; exact Hrun|].
  destruct Hpost as [->|(q & ->)]; [left; reflexivity | right].
  exists "?"%char, q. split; [reflexivity | vm_compute; reflexivity].
Qed.

(** *** Trimming *)

Lemma trimStart_idem s : trimStart (trimStart s) = trimStart s.
Proof.
  induction s as [|c s IH]; simpl; [reflexivity|].
  destruct (is_ws c) eqn:E; [exact IH|]. simpl. rewrite E. reflexivity.
Qed.

Lemma trimEnd_idem s : trimEnd (trimEnd s) = trimEnd s.
Proof.
  induction s as [|c s IH]; simpl; [reflexivity|].
  destruct (trimEnd s) as [|d t] eqn:E.
  - destruct (is_ws c) eqn:W; simpl; [reflexivity|]. rewrite W. reflexivity.
  - change (trimEnd (c :: d :: t)) with
      (match trimEnd (d :: t) with
       | [] => if is_ws c then [] else [c]
       | x :: y => c :: x :: y
       end).
    rewrite IH. reflexivity.
Qed.

(** Dropping the white space at the end leaves a first character that is
    not white space where it is. *)
Lemma trimEnd_head c s :
  is_ws c = false -> exists t, trimEnd (c :: s) = c :: t.
Proof.
  intros W. simpl. destruct (trimEnd s); [rewrite W|]; eauto.
Qed.

Lemma trimStart_head s :
  trimStart s = [] \/ exists c t, trimStart s = c :: t /\ is_ws c = false.
Proof.
  induction s as [|c s IH]; simpl; [left; reflexivity|].
  destruct (is_ws c) eqn:W; [exact IH|]. right. eauto.
Qed.

Lemma trim_idem s : trim (trim s) = trim s.
Proof.
  unfold trim.
  destruct (trimStart_head s) as [->|(c & t & -> & W)]; [reflexivity|].
  destruct (trimEnd_head c t W) as (t' & E). rewrite E.
  simpl trimStart. rewrite W. rewrite <- E. apply trimEnd_idem.
Qed.

(** *** [extractPageId] *)

(** The cascade of tests, on the trimmed string. *)
Lemma rules_of_patterns t :
  rules t (if test re_id t then Some t
           else if test re_uuid t then Some (remove_dashes t)
           else match exec re_url t with
                | Some urlMatch => urlMatch
                | None => match exec re_last t with
                          | Some lastHexMatch => lastHexMatch
                          | None => None
                          end
                end).
Proof.
  unfold rules.
  destruct (test re_id t) eqn:Eid.
  { apply re_id_spec in Eid. split; [intros _; reflexivity|].
    repeat split; intros; contradiction. }
  assert (Hid : ~ is_id t).
  { intros H. apply re_id_spec in H. congruence. }
  split; [intros; contradiction|].
  destruct (test re_uuid t) eqn:Euuid.
  { apply re_uuid_spec in Euuid. destruct Euuid as (bare0 & H0).
    split; [intros _ bare Hb; f_equal; apply uuid_remove_dashes; exact Hb|].
    repeat split; intros _ Hn; exfalso; apply (Hn bare0 H0). }
  assert (Huuid : forall bare, ~ is_uuid t bare).
  { intros bare H. assert (test re_uuid t = true) by (apply re_uuid_spec; eauto).
    congruence. }
  split; [intros _ bare Hb; exfalso; apply (Huuid bare Hb)|].
  destruct (exec re_url t) as [c|] eqn:Eurl.
  { apply re_url_sound in Eurl. destruct Eurl as (run & -> & Hrun).
    split; [intros; eauto|].
    split; intros _ _ Hn; exfalso; apply (Hn run Hrun). }
  assert (Hurl : forall run, ~ url_id t run).
  { intros run H. apply re_url_complete in H. congruence. }
  split; [intros _ _ (run & Hrun); exfalso; apply (Hurl run Hrun)|].
  destruct (exec re_last t) as [c|] eqn:Elast.
  { apply re_last_sound in Elast. destruct Elast as (run & -> & Hrun).
    split; [intros; eauto|].
    intros _ _ _ Hn; exfalso; apply (Hn run Hrun). }
  assert (Hlast : forall run, ~ bare_id t run).
  { intros run H. apply re_last_complete in H. congruence. }
  split; [intros _ _ _ (run & Hrun); exfalso; apply (Hlast run Hrun)|].
  reflexivity.
Qed.

Lemma extractPageId_unfold input :
  extractPageId input =
  let t := trim input in
  if test re_id t then Some t
  else if test re_uuid t then Some (remove_dashes t)
  else match exec re_url t with
       | Some urlMatch => urlMatch
       | None => match exec re_last t with
                 | Some lastHexMatch => lastHexMatch
                 | None => None
                 end
       end.
Proof.
  unfold extractPageId. destruct input as [|c s]; [|reflexivity].
  vm_compute. reflexivity.
Qed.

(** The examples of the specification. *)

Example extract_raw_id :
  extractPageId (lit "a1b2c3d4e5f6a1b2c3d4e5f6a1b2c3d4")
  = Some (lit "a1b2c3d4e5f6a1b2c3d4e5f6a1b2c3d4").
Proof. vm_compute. reflexivity. Qed.

Example extract_dashed :
  extractPageId (lit "A1B2C3D4-E5F6-A1B2-C3D4-E5F6A1B2C3D4")
  = Some (lit "A1B2C3D4E5F6A1B2C3D4E5F6A1B2C3D4").
Proof. vm_compute. reflexivity. Qed.

Example extract_url :
  extractPageId
    (lit "https://www.notion.so/myworkspace/My-Page-a1b2c3d4e5f6a1b2c3d4e5f6a1b2c3d4")
  = Some (lit "a1b2c3d4e5f6a1b2c3d4e5f6a1b2c3d4").
Proof. vm_compute. reflexivity. Qed.

Example extract_query :
  extractPageId
    (lit "https://example.org/p/a1b2c3d4e5f6a1b2c3d4e5f6a1b2c3d4?v=1")
  = Some (lit "a1b2c3d4e5f6a1b2c3d4e5f6a1b2c3d4").
Proof. vm_compute. reflexivity. Qed.

Example extract_nothing : extractPageId (lit "not a notion link") = None.
Proof. vm_compute. reflexivity. Qed.

(** C2, as amended. The rules of the extractor, in their order of
    precedence and the first that applies winning, give the result of
    [extractPageId] when they are read on the input with the white space
    around it removed: 32 hexadecimal characters come back as they are; the
    dashed 8-4-4-4-12 shape comes back without its dashes, case preserved;
    [notion.so/] (in any case), an optional workspace segment, slug
    segments and a 32-digit run give such a run; a 32-digit run right
    before the end or a question mark gives such a run; anything else gives
    null. *)
Theorem extractPageId_rules_on_trimmed :
  forall input, rules (trim input) (extractPageId input).
Proof.
  intros input. rewrite extractPageId_unfold. apply rules_of_patterns.
Qed.

(** C2, as stated, fails: read on the input itself, the rules give null for
    an identifier followed by a space (it is not 32 characters long, and the
    run is followed neither by the end nor by a question mark), while
    [extractPageId] returns the identifier. *)
Lemma extractPageId_rules_untrimmed_fail :
  extractPageId (lit "a1b2c3d4e5f6a1b2c3d4e5f6a1b2c3d4 ")
    = Some (lit "a1b2c3d4e5f6a1b2c3d4e5f6a1b2c3d4") /\
  ~ rules (lit "a1b2c3d4e5f6a1b2c3d4e5f6a1b2c3d4 ")
          (extractPageId (lit "a1b2c3d4e5f6a1b2c3d4e5f6a1b2c3d4 ")).
Proof.
  assert (E : extractPageId (lit "a1b2c3d4e5f6a1b2c3d4e5f6a1b2c3d4 ")
              = Some (lit "a1b2c3d4e5f6a1b2c3d4e5f6a1b2c3d4"))
    by (vm_compute; reflexivity).
  split; [exact E|]. rewrite E. clear E.
  intros (_ & _ & _ & _ & H).
  assert (Some (lit "a1b2c3d4e5f6a1b2c3d4e5f6a1b2c3d4") = None) as Habs;
    [|discriminate Habs].
  apply H.
  - intros [Hlen _]. vm_compute in Hlen. discriminate.
  - intros bare Hb.
    assert (test re_uuid (lit "a1b2c3d4e5f6a1b2c3d4e5f6a1b2c3d4 ") = true) as T
      by (apply re_uuid_spec; eauto).
    vm_compute in T. discriminate.
  - intros run Hr. apply re_url_complete in Hr. apply Hr.
    vm_compute. reflexivity.
  - intros run Hr. apply re_last_complete in Hr. apply Hr.
    vm_compute. reflexivity.
Qed.

(** C9. White space around the input does not change what
    [extractPageId] returns. *)
Theorem extractPageId_trim :
  forall input, extractPageId input = extractPageId (trim input).
Proof.
  intros input. rewrite !extractPageId_unfold. cbv zeta.
  rewrite trim_idem. reflexivity.
Qed.

End ValidatorFacts.

Module CryptoFacts.
Import Js Crypto.

(** *** Splitting a token *)

Lemma split_on_absent sep s : ~ In sep s -> split_on sep s = [s].
Proof.
  induction s as [|c s IH]; simpl; intros H; [reflexivity|].
  destruct (ascii_eqb c sep) eqn:E.
  - apply Ascii.eqb_eq in E. subst. exfalso. apply H. auto.
  - rewrite IH by (intros Hin; apply H; auto). reflexivity.
Qed.

Lemma split_on_first sep a b :
  ~ In sep a -> split_on sep (a ++ sep :: b) = a :: split_on sep b.
Proof.
  induction a as [|c a IH]; simpl; intros H.
  - unfold ascii_eqb. rewrite Ascii.eqb_refl. reflexivity.
  - destruct (ascii_eqb c sep) eqn:E.
    + apply Ascii.eqb_eq in E. subst. exfalso. apply H. auto.
    + rewrite IH by (intros Hin; apply H; auto). reflexivity.
Qed.

Lemma split_on_nonempty sep s : split_on sep s <> [].
Proof.
  destruct s as [|c s]; simpl; [discriminate|].
  destruct (ascii_eqb c sep); [discriminate|].
  destruct (split_on sep s); discriminate.
Qed.

Lemma truthy_true (A : Type) (s : list A) : truthy s = true <-> s <> [].
Proof. destruct s; simpl; split; congruence. Qed.

(** *** Surrogates *)

Lemma pair_ind (A : Type) (P : list A -> Prop) :
  P [] -> (forall u, P [u]) ->
  (forall u v s, P s -> P (v :: s) -> P (u :: v :: s)) ->
  forall s, P s.
Proof.
  intros H0 H1 H2.
  assert (H : forall s, P s /\ forall u, P (u :: s)).
  { induction s as [|v s [IHs IHv]]; split; auto. }
  intros s. apply H.
Qed.

Lemma isWellFormed_pair u v s :
  isWellFormed (u :: v :: s)
  = if is_high u then is_low v && isWellFormed s
    else negb (is_low u) && isWellFormed (v :: s).
Proof. reflexivity. Qed.

Lemma toWellFormed_pair u v s :
  toWellFormed (u :: v :: s)
  = if is_high u then
      if is_low v then u :: v :: toWellFormed s
      else replacement :: toWellFormed (v :: s)
    else if is_low u then replacement :: toWellFormed (v :: s)
    else u :: toWellFormed (v :: s).
Proof. reflexivity. Qed.

Lemma isWellFormed_plain u s :
  is_high u = false ->
  isWellFormed (u :: s) = negb (is_low u) && isWellFormed s.
Proof. intros H. cbn [isWellFormed]. rewrite H. reflexivity. Qed.

Lemma replacement_is_high : is_high replacement = false.
Proof. reflexivity. Qed.

Lemma replacement_is_low : is_low replacement = false.
Proof. reflexivity. Qed.

(** A string without unpaired surrogates is left as it is. *)
Lemma isWellFormed_fixed s : isWellFormed s = true -> toWellFormed s = s.
Proof.
  induction s as [|u|u v s IHs IHv] using pair_ind.
  - reflexivity.
  - cbn [isWellFormed toWellFormed].
    destruct (is_high u); [discriminate|].
    destruct (is_low u); [discriminate | reflexivity].
  - rewrite isWellFormed_pair, toWellFormed_pair.
    destruct (is_high u).
    + destruct (is_low v); [|discriminate]. simpl andb. intros H.
      rewrite (IHs H). reflexivity.
    + destruct (is_low u); [discriminate|]. cbn [negb andb]. intros H.
      rewrite (IHv H). reflexivity.
Qed.

(** And only such a string is. *)
Lemma toWellFormed_fixed s : toWellFormed s = s -> isWellFormed s = true.
Proof.
  induction s as [|u|u v s IHs IHv] using pair_ind.
  - reflexivity.
  - cbn [isWellFormed toWellFormed].
    destruct (is_high u) eqn:Hh.
    + intros [= E]. rewrite <- E, replacement_is_high in Hh. discriminate.
    + destruct (is_low u) eqn:Hl; [|reflexivity].
      intros [= E]. rewrite <- E, replacement_is_low in Hl. discriminate.
  - rewrite isWellFormed_pair, toWellFormed_pair.
    destruct (is_high u) eqn:Hh.
    + destruct (is_low v).
      * intros [= E]. rewrite (IHs E). reflexivity.
      * intros [= E _]. rewrite <- E, replacement_is_high in Hh. discriminate.
    + destruct (is_low u) eqn:Hl.
      * intros [= E _]. rewrite <- E, replacement_is_low in Hl. discriminate.
      * intros [= E]. rewrite (IHv E). reflexivity.
Qed.

(** What [toWellFormed] gives has no unpaired surrogate. *)
Lemma toWellFormed_isWellFormed s : isWellFormed (toWellFormed s) = true.
Proof.
  induction s as [|u|u v s IHs IHv] using pair_ind.
  - reflexivity.
  - cbn [toWellFormed].
    destruct (is_high u) eqn:Hh; [reflexivity|].
    destruct (is_low u) eqn:Hl; [reflexivity|].
    cbn [isWellFormed]. rewrite Hh, Hl. reflexivity.
  - rewrite toWellFormed_pair.
    destruct (is_high u) eqn:Hh.
    + destruct (is_low v) eqn:Hv.
      * rewrite isWellFormed_pair, Hh, Hv, IHs. reflexivity.
      * rewrite isWellFormed_plain by apply replacement_is_high.
        rewrite replacement_is_low, IHv. reflexivity.
    + destruct (is_low u) eqn:Hl.
      * rewrite isWellFormed_plain by apply replacement_is_high.
        rewrite replacement_is_low, IHv. reflexivity.
      * rewrite isWellFormed_plain by exact Hh.
        rewrite Hl, IHv. reflexivity.
Qed.

Lemma toWellFormed_idem s : toWellFormed (toWellFormed s) = toWellFormed s.
Proof. apply isWellFormed_fixed, toWellFormed_isWellFormed. Qed.

Lemma wide_isWellFormed s : isWellFormed (wide s) = true.
Proof.
  induction s as [|c s IH]; [reflexivity|].
  change (wide (c :: s)) with ((Byte.x00, byte_of_ascii c) :: wide s).
  rewrite isWellFormed_plain by reflexivity. exact IH.
Qed.

(** *** The stand-in library meets the laws *)

Lemma decode_enc_byte b s :
  CryptoModel.decode (CryptoModel.enc_byte b ++ s) = b :: CryptoModel.decode s.
Proof. destruct b; reflexivity. Qed.

Lemma enc_byte_no_colon b : ~ In ":"%char (CryptoModel.enc_byte b).
Proof.
  assert (H : forallb (fun c => negb (ascii_eqb c ":")) (CryptoModel.enc_byte b) = true)
    by (destruct b; vm_compute; reflexivity).
  intros Hin. rewrite forallb_forall in H. apply H in Hin.
  unfold ascii_eqb in Hin. rewrite Ascii.eqb_refl in Hin. discriminate.
Qed.

Lemma decode_encode b : CryptoModel.decode (CryptoModel.encode b) = b.
Proof.
  induction b as [|x b IH]; [reflexivity|].
  change (CryptoModel.encode (x :: b))
    with (CryptoModel.enc_byte x ++ CryptoModel.encode b).
  rewrite decode_enc_byte, IH. reflexivity.
Qed.

Lemma encode_no_colon b : ~ In ":"%char (CryptoModel.encode b).
Proof.
  induction b as [|x b IH]; [simpl; auto|].
  change (CryptoModel.encode (x :: b))
    with (CryptoModel.enc_byte x ++ CryptoModel.encode b).
  intros H. apply in_app_or in H. destruct H as [H|H]; [|auto].
  exact (enc_byte_no_colon H).
Qed.

Lemma encode_nonempty b : b <> [] -> CryptoModel.encode b <> [].
Proof.
  destruct b as [|x b]; [congruence|]. intros _.
  change (CryptoModel.encode (x :: b))
    with (CryptoModel.enc_byte x ++ CryptoModel.encode b).
  unfold CryptoModel.enc_byte. discriminate.
Qed.

Lemma unit_bytes_scrub s :
  CryptoModel.unit_bytes s = CryptoModel.unit_bytes (toWellFormed s).
Proof.
  unfold CryptoModel.unit_bytes. rewrite toWellFormed_idem. reflexivity.
Qed.

Lemma byte_units_flat s :
  CryptoModel.byte_units (flat_map (fun u : unit16 => [fst u; snd u]) s) = s.
Proof.
  induction s as [|[h l] s IH]; [reflexivity|].
  simpl. rewrite IH. reflexivity.
Qed.

Lemma unit_bytes_round s :
  isWellFormed s = true ->
  CryptoModel.byte_units (CryptoModel.unit_bytes s) = s.
Proof.
  intros H. unfold CryptoModel.unit_bytes.
  rewrite (isWellFormed_fixed s H). apply byte_units_flat.
Qed.

Lemma unframe_frame key iv p :
  length key = 32 -> length iv = IV_LENGTH ->
  CryptoModel.unframe key iv (CryptoModel.frame key iv p) = Ok p.
Proof.
  intros _ Hiv. unfold CryptoModel.unframe, CryptoModel.frame.
  rewrite Hiv, Nat.eqb_refl. reflexivity.
Qed.

#[export] Instance model_laws : NodeCryptoLaws CryptoModel.model.
Proof.
  constructor.
  - exact unit_bytes_scrub.
  - exact unit_bytes_round.
  - exact decode_encode.
  - exact encode_no_colon.
  - exact encode_nonempty.
  - intros b. reflexivity.
  - intros key iv p. discriminate.
  - exact unframe_frame.
Qed.

(** *** [encrypt] and [decrypt] *)

Section Wrapper.
Context {lib : NodeCrypto}.
Variable SECRET_KEY : option utf16.

Lemma encrypt_falsy iv :
  encrypt SECRET_KEY iv None = None /\ encrypt SECRET_KEY iv (Some []) = None.
Proof. split; reflexivity. Qed.

Lemma decrypt_null : decrypt SECRET_KEY None = Ok None.
Proof. reflexivity. Qed.

Lemma encrypt_token iv x :
  x <> [] ->
  encrypt SECRET_KEY iv (Some x)
  = Some (base64_encode iv ++ lit ":" ++
          base64_encode (aes_256_cbc_encrypt (getSecretKey SECRET_KEY) iv
                                             (utf8_encode x))).
Proof.
  intros Hx. unfold encrypt. simpl truthy_opt.
  destruct x; [congruence | reflexivity].
Qed.

(** What [decrypt] does with a token of two non-empty pieces. *)
Lemma decrypt_two_pieces a b :
  a <> [] -> b <> [] -> ~ In ":"%char a -> ~ In ":"%char b ->
  decrypt SECRET_KEY (Some (a ++ lit ":" ++ b))
  = match aes_256_cbc_decrypt (getSecretKey SECRET_KEY) (base64_decode a)
                              (base64_decode b) with
    | Ok plain => Ok (Some (utf8_decode plain))
    | Throw e => Throw e
    end.
Proof.
  intros Ha Hb Hna Hnb. unfold decrypt.
  assert (Ht : truthy_opt (Some (a ++ lit ":" ++ b)) = true)
    by (destruct a; [congruence | reflexivity]).
  rewrite Ht. simpl negb. cbv iota.
  change (lit ":" ++ b) with (":"%char :: b).
  rewrite split_on_first by exact Hna.
  rewrite split_on_absent by exact Hnb.
  simpl nth_error. simpl truthy_opt.
  apply truthy_true in Ha. apply truthy_true in Hb. rewrite Ha, Hb.
  reflexivity.
Qed.

(** A token without [:] has one piece only. *)
Lemma decrypt_malformed_format token :
  token <> [] -> ~ In ":"%char token ->
  decrypt SECRET_KEY (Some token)
  = Throw (Error (lit "Invalid encrypted text format")).
Proof.
  intros Hne Hno. unfold decrypt.
  apply truthy_true in Hne. simpl truthy_opt. rewrite Hne. simpl negb. cbv iota.
  rewrite split_on_absent by exact Hno. simpl. rewrite Hne. reflexivity.
Qed.

(** C8. A token that is not empty and has no [:], or nothing before its
    first [:], or nothing after it, makes [decrypt] throw the format
    error. *)
Theorem decrypt_malformed_token token :
  token <> [] ->
  (~ In ":"%char token \/
   exists a b, token = a ++ lit ":" ++ b /\ ~ In ":"%char a /\
               (a = [] \/ b = [])) ->
  decrypt SECRET_KEY (Some token)
  = Throw (Error (lit "Invalid encrypted text format")).
Proof.
  intros Hne Hbad. unfold decrypt.
  apply truthy_true in Hne. simpl truthy_opt. rewrite Hne. simpl negb. cbv iota.
  destruct Hbad as [Hno|(a & b & -> & Hna & Hab)].
  - rewrite split_on_absent by exact Hno. simpl. rewrite Hne. reflexivity.
  - change (lit ":" ++ b) with (":"%char :: b).
    rewrite split_on_first by exact Hna.
    destruct Hab as [->| ->].
    + reflexivity.
    + simpl. destruct (truthy a); reflexivity.
Qed.

End Wrapper.

(** With a library that meets the laws, [decrypt] gives back the text that
    [encrypt] was given with every unpaired surrogate replaced by U+FFFD,
    whatever the initialisation vector drawn. *)
Lemma decrypt_encrypt_scrubbed
      (lib : NodeCrypto) (laws : NodeCryptoLaws lib)
      (SECRET_KEY : option utf16) (iv : bytes) (x : utf16) :
  length iv = IV_LENGTH ->
  x <> [] ->
  exists token, encrypt SECRET_KEY iv (Some x) = Some token /\
                token <> [] /\
                decrypt SECRET_KEY (Some token) = Ok (Some (toWellFormed x)).
Proof.
  intros Hiv Hx. eexists. split; [apply encrypt_token; exact Hx|].
  split; [intros E; apply app_eq_nil in E; destruct E as [_ E]; discriminate E|].
  rewrite decrypt_two_pieces.
  - rewrite !base64_round.
    rewrite cbc_round by (try apply sha256_length; exact Hiv).
    rewrite (utf8_scrub x).
    rewrite utf8_round by apply toWellFormed_isWellFormed. reflexivity.
  - apply base64_nonempty. intros ->. discriminate.
  - apply base64_nonempty. apply cbc_nonempty.
  - apply base64_alphabet.
  - apply base64_alphabet.
Qed.

(** C3, as stated, fails on a string with an unpaired surrogate: for the
    string of the one code unit D800, whatever the library that meets the
    laws, the key and the initialisation vector, [decrypt] gives back
    U+FFFD and not the string that [encrypt] was given. *)
Lemma decrypt_encrypt_lone_surrogate :
  let x : utf16 := [(Byte.xd8, Byte.x00)] in
  x <> [] /\
  forall (lib : NodeCrypto) (laws : NodeCryptoLaws lib)
         (SECRET_KEY : option utf16) (iv : bytes),
    length iv = IV_LENGTH ->
    exists token, encrypt SECRET_KEY iv (Some x) = Some token /\
                  decrypt SECRET_KEY (Some token) = Ok (Some [replacement]) /\
                  decrypt SECRET_KEY (Some token) <> Ok (Some x).
Proof.
  intros x. split; [discriminate|]. intros lib laws SECRET_KEY iv Hiv.
  destruct (@decrypt_encrypt_scrubbed lib laws SECRET_KEY iv x Hiv)
    as (token & E & _ & D); [discriminate|].
  exists token. split; [exact E|]. rewrite D.
  split; [reflexivity | discriminate].
Qed.

(** C3, as amended. With a library that meets the laws, and whatever the
    initialisation vector drawn, [decrypt] gives back what [encrypt] was
    given exactly when the text has no unpaired surrogate; in every case
    it gives back the text with its unpaired surrogates replaced by
    U+FFFD. [encrypt] returns null for null and for the empty string, and
    [decrypt] returns null for null. *)
Theorem decrypt_encrypt_round
        (lib : NodeCrypto) (laws : NodeCryptoLaws lib)
        (SECRET_KEY : option utf16) (iv : bytes) (x : utf16) :
  length iv = IV_LENGTH ->
  x <> [] ->
  (exists token, encrypt SECRET_KEY iv (Some x) = Some token /\
                 decrypt SECRET_KEY (Some token) = Ok (Some (toWellFormed x)) /\
                 (decrypt SECRET_KEY (Some token) = Ok (Some x)
                  <-> isWellFormed x = true)) /\
  encrypt SECRET_KEY iv None = None /\
  encrypt SECRET_KEY iv (Some []) = None /\
  decrypt SECRET_KEY None = Ok None.
Proof.
  intros Hiv Hx. split; [|repeat split].
  destruct (@decrypt_encrypt_scrubbed lib laws SECRET_KEY iv x Hiv Hx)
    as (token & E & _ & D).
  exists token. split; [exact E|]. split; [exact D|]. rewrite D. split.
  - intros [= F]. apply toWellFormed_fixed. exact F.
  - intros W. rewrite (isWellFormed_fixed x W). reflexivity.
Qed.

(** A key of letters and digits followed by U+1F600, a pair of
    surrogates. *)
Lemma decrypt_encrypt_round_witness :
  let x := wide (lit "secret_abc123") ++ [(Byte.xd8, Byte.x3d); (Byte.xde, Byte.x00)] in
  (exists token,
      @encrypt CryptoModel.model None (repeat Byte.x2a 16) (Some x) = Some token /\
      @decrypt CryptoModel.model None (Some token) = Ok (Some (toWellFormed x)) /\
      (@decrypt CryptoModel.model None (Some token) = Ok (Some x)
       <-> isWellFormed x = true)) /\
  @encrypt CryptoModel.model None (repeat Byte.x2a 16) None = None /\
  @encrypt CryptoModel.model None (repeat Byte.x2a 16) (Some []) = None /\
  @decrypt CryptoModel.model None None = Ok None.
Proof.
  intros x.
  apply (@decrypt_encrypt_round CryptoModel.model model_laws None
           (repeat Byte.x2a 16) x).
  - reflexivity.
  - discriminate.
Defined.

Lemma decrypt_malformed_token_witness :
  @decrypt CryptoModel.model None (Some (lit "not-a-token"))
  = Throw (Error (lit "Invalid encrypted text format")).
Proof.
  apply (@decrypt_malformed_token CryptoModel.model None (lit "not-a-token")).
  - discriminate.
  - left. vm_compute. intuition discriminate.
Defined.

(** Malformed in the other two ways. *)
Example decrypt_nothing_before :
  @decrypt CryptoModel.model None (Some (lit ":QUJD"))
  = Throw (Error (lit "Invalid encrypted text format")).
Proof. reflexivity. Qed.

Example decrypt_nothing_after :
  @decrypt CryptoModel.model None (Some (lit "QUJD:"))
  = Throw (Error (lit "Invalid encrypted text format")).
Proof. reflexivity. Qed.

End CryptoFacts.

Module JsFacts.
Import Js.

Lemma truthy_true_iff (A : Type) (s : list A) : truthy s = true <-> s <> [].
Proof. destruct s; simpl; split; congruence. Qed.

Lemma slice_from_start {A} (l : list A) (n : Z) :
  (0 <= n)%Z -> slice l 0 (Some n) = firstn (Z.to_nat n) l.
Proof.
  intros Hn. unfold slice, clamp_index. simpl.
  destruct (n <? 0)%Z eqn:E; [apply Z.ltb_lt in E; lia|].
  rewrite Nat.sub_0_r.
  destruct (Nat.le_ge_cases (Z.to_nat n) (length l)) as [H|H].
  - rewrite Nat.min_l by exact H. reflexivity.
  - rewrite Nat.min_r by exact H.
    rewrite !firstn_all2; auto.
Qed.

Lemma slice_to_end {A} (l : list A) (n : nat) :
  slice l (Z.of_nat n) None = skipn n l.
Proof.
  unfold slice, clamp_index.
  destruct (Z.of_nat n <? 0)%Z eqn:E; [apply Z.ltb_lt in E; lia|].
  rewrite Nat2Z.id.
  destruct (Nat.le_ge_cases n (length l)) as [H|H].
  - rewrite Nat.min_l by exact H.
    apply firstn_all2. rewrite length_skipn. lia.
  - rewrite Nat.min_r by exact H.
    rewrite Nat.sub_diag. simpl. symmetry. apply skipn_all2. exact H.
Qed.

Lemma slice_window {A} (l : list A) (i n : nat) :
  slice l (Z.of_nat i) (Some (Z.of_nat (i + n))) = firstn n (skipn i l).
Proof.
  unfold slice, clamp_index.
  destruct (Z.of_nat i <? 0)%Z eqn:E; [apply Z.ltb_lt in E; lia|].
  destruct (Z.of_nat (i + n) <? 0)%Z eqn:E'; [apply Z.ltb_lt in E'; lia|].
  rewrite !Nat2Z.id.
  destruct (Nat.le_ge_cases i (length l)) as [H|H].
  - rewrite (Nat.min_l i) by exact H.
    destruct (Nat.le_ge_cases (i + n) (length l)) as [H'|H'].
    + rewrite Nat.min_l by exact H'. f_equal. lia.
    + rewrite Nat.min_r by exact H'.
      rewrite !firstn_all2; auto; rewrite length_skipn; lia.
  - rewrite !skipn_all2 by lia. rewrite !firstn_nil. reflexivity.
Qed.

Lemma slice_length {A} (l : list A) (stop : Z) :
  length (slice l 0 (Some stop)) <= length l.
Proof.
  unfold slice. simpl. rewrite length_firstn. lia.
Qed.

Lemma firstn_app_firstn {A} n (a b : list A) :
  firstn n (a ++ firstn n b) = firstn n (a ++ b).
Proof.
  rewrite !firstn_app, firstn_firstn.
  f_equal. f_equal. lia.
Qed.

Lemma startsWith_spec p s :
  startsWith p s = true <-> exists post, s = p ++ post.
Proof.
  revert s. induction p as [|x p IH]; intros s; simpl.
  - split; eauto.
  - destruct s as [|y s].
    + split; [discriminate | intros (post & H); discriminate].
    + rewrite andb_true_iff, IH. unfold ascii_eqb. rewrite Ascii.eqb_eq.
      split.
      * intros [-> (post & ->)]. eauto.
      * intros (post & H). inversion H; subst. eauto.
Qed.

(** [includes] is the test for a substring. *)
Lemma includes_spec s p :
  includes s p = true <-> exists pre post, s = pre ++ p ++ post.
Proof.
  induction s as [|c s IH]; simpl.
  - rewrite orb_false_r, startsWith_spec. split.
    + intros (post & H). exists [], post. exact H.
    + intros (pre & post & H). destruct pre; [eauto|discriminate].
  - rewrite orb_true_iff, startsWith_spec, IH. split.
    + intros [(post & H)|(pre & post & ->)].
      * exists [], post. exact H.
      * exists (c :: pre), post. reflexivity.
    + intros (pre & post & H). destruct pre as [|x pre].
      * left. eauto.
      * right. inversion H; subst. eauto.
Qed.

End JsFacts.

Module StorageFacts.
Import Js Storage StorageSpec JsFacts.

(** *** Lists *)

Lemma findIndex_nth {A} (f : A -> bool) l i :
  findIndex f l = Some i -> exists x, nth_error l i = Some x /\ f x = true.
Proof.
  revert i. induction l as [|y l IH]; intros i H; simpl in H; [discriminate|].
  destruct (f y) eqn:E.
  - inversion H; subst. simpl. eauto.
  - destruct (findIndex f l) as [j|]; [|discriminate].
    inversion H; subst. simpl. apply IH. reflexivity.
Qed.

Lemma remove_nth_length {A} (l : list A) i x :
  nth_error l i = Some x -> length l = S (length (remove_nth i l)).
Proof.
  revert i. induction l as [|y l IH]; intros [|i] H; simpl in *;
    try discriminate; [reflexivity|].
  f_equal. eapply IH; eauto.
Qed.

Lemma count_remove_nth ps i p :
  nth_error ps i = Some p ->
  default_count ps
  = default_count (remove_nth i ps) + (if Page.isDefault p then 1 else 0).
Proof.
  unfold default_count. revert i.
  induction ps as [|q ps IH]; intros [|i] H; simpl in *; try discriminate.
  - inversion H; subst. destruct (Page.isDefault p); simpl; lia.
  - specialize (IH _ H). destruct (Page.isDefault q); simpl; lia.
Qed.

Lemma count_set_nth ps i p q :
  nth_error ps i = Some p -> Page.isDefault q = Page.isDefault p ->
  default_count (set_nth i q ps) = default_count ps.
Proof.
  unfold default_count. revert i.
  induction ps as [|r ps IH]; intros [|i] H E; simpl in *; try discriminate.
  - inversion H; subst. rewrite E. destruct (Page.isDefault p); reflexivity.
  - specialize (IH _ H E). destruct (Page.isDefault r); simpl; congruence.
Qed.

Lemma count_demoted ps :
  default_count (map (Page.set_isDefault false) ps) = 0.
Proof. unfold default_count. induction ps; simpl; auto. Qed.

Lemma count_app ps qs :
  default_count (ps ++ qs) = default_count ps + default_count qs.
Proof. unfold default_count. rewrite filter_app, length_app. reflexivity. Qed.

Lemma count_zero_head p ps :
  default_count (p :: ps) = 0 ->
  default_count (Page.set_isDefault true p :: ps) = 1.
Proof.
  unfold default_count. simpl. destruct (Page.isDefault p); simpl; [discriminate|].
  intros ->. reflexivity.
Qed.

(** *** The default page under [addPage] and [deletePage] *)

(** [addPage] leaves exactly one default page, whatever the store held,
    if the store was in order. *)
Lemma addPage_one_default fresh now page d :
  one_default d -> one_default (fst (addPage fresh now page d)).
Proof.
  intros Inv _. unfold addPage.
  destruct (Page.isDefault _ || (length (pages d) =? 0)) eqn:E; simpl.
  - rewrite count_app, count_demoted. reflexivity.
  - apply orb_false_iff in E. destruct E as [E1 E2]. simpl in E1.
    rewrite count_app. unfold default_count at 2. simpl. rewrite E1. simpl.
    rewrite Inv; [reflexivity|].
    intros H. rewrite H in E2. discriminate.
Qed.

(** So does [deletePage]. *)
Lemma deletePage_one_default id d :
  one_default d -> one_default (fst (deletePage id d)).
Proof.
  intros Inv. unfold deletePage.
  destruct (findIndex _ (pages d)) as [index|] eqn:F; [|exact Inv].
  destruct (findIndex_nth _ _ F) as (p & Hp & _). rewrite Hp.
  assert (Hne : pages d <> []) by (intros H; rewrite H in Hp; destruct index; discriminate).
  pose proof (count_remove_nth _ _ Hp) as Hc. rewrite (Inv Hne) in Hc.
  destruct (remove_nth index (pages d)) as [|first others] eqn:R.
  - intros H. simpl in H. congruence.
  - intros _. destruct (Page.isDefault p); simpl.
    + apply count_zero_head. lia.
    + lia.
Qed.

(** And [updatePage], when the update does not touch [isDefault]. *)
Lemma updatePage_one_default now id updates d :
  upd_isDefault updates = None ->
  one_default d -> one_default (fst (updatePage now id updates d)).
Proof.
  intros U Inv. unfold updatePage.
  destruct (findIndex _ (pages d)) as [index|] eqn:F; [|exact Inv].
  destruct (findIndex_nth _ _ F) as (p & Hp & _). rewrite Hp.
  rewrite U. unfold one_default. simpl. intros _.
  rewrite (count_set_nth _ _ (assign p updates now) Hp).
  - apply Inv. intros H. rewrite H in Hp. destruct index; discriminate.
  - simpl. rewrite U. reflexivity.
Qed.

Lemma str_eqb_eq a b : str_eqb a b = true <-> a = b.
Proof.
  revert b. induction a as [|x a IH]; intros [|y b]; simpl;
    try (split; [discriminate|intros H; discriminate]); [split; auto|].
  rewrite andb_true_iff, IH. unfold ascii_eqb. rewrite Ascii.eqb_eq.
  split; [intros [-> ->]; reflexivity | intros H; inversion H; auto].
Qed.

Lemma str_eqb_refl a : str_eqb a a = true.
Proof. apply str_eqb_eq. reflexivity. Qed.

Lemma count_demote_others id ps :
  ~ In id (map Page.id ps) ->
  default_count
    (map (fun p => if negb (str_eqb (Page.id p) id)
                   then Page.set_isDefault false p else p) ps) = 0.
Proof.
  unfold default_count. induction ps as [|q ps IH]; simpl; intros H; [reflexivity|].
  destruct (str_eqb (Page.id q) id) eqn:E.
  - apply str_eqb_eq in E. exfalso. apply H. auto.
  - simpl. apply IH. intros Hin. apply H. auto.
Qed.

(** And [updatePage] when it makes a page the default, as long as the ids
    of the pages are distinct and the update leaves the id alone. *)
Lemma updatePage_promote_one_default now id updates d :
  upd_isDefault updates = Some true -> upd_id updates = None ->
  NoDup (map Page.id (pages d)) ->
  one_default d -> one_default (fst (updatePage now id updates d)).
Proof.
  intros U I ND Inv. unfold updatePage.
  destruct (findIndex _ (pages d)) as [index|] eqn:F; [|exact Inv]. clear Inv.
  destruct (findIndex_nth _ _ F) as (p & Hp & _). rewrite Hp.
  rewrite U. unfold one_default. simpl. intros _.
  revert index F Hp ND. generalize (pages d) as ps.
  induction ps as [|q ps IH]; intros index F Hp ND; [destruct index; discriminate|].
  simpl in F. inversion ND as [|? ? Hnin ND']; subst.
  destruct (str_eqb (Page.id q) id) eqn:E.
  - inversion F; subst. simpl in Hp. inversion Hp; subst. simpl.
    unfold default_count. simpl. rewrite I. simpl. rewrite E. simpl.
    rewrite U. simpl. f_equal.
    apply str_eqb_eq in E. subst id.
    apply (count_demote_others _ _ Hnin).
  - destruct (findIndex _ ps) as [j|] eqn:F'; [|discriminate].
    inversion F; subst. simpl in Hp. simpl.
    unfold default_count. simpl. rewrite E. simpl.
    apply (IH j eq_refl Hp ND').
Qed.

(** The ids of the pages under the three operations. *)

Lemma map_id_demoted ps :
  map Page.id (map (Page.set_isDefault false) ps) = map Page.id ps.
Proof. rewrite map_map. reflexivity. Qed.

Lemma addPage_ids fresh now page d :
  map Page.id (pages (fst (addPage fresh now page d)))
  = map Page.id (pages d) ++ [fresh].
Proof.
  unfold addPage. destruct (_ || _); simpl; rewrite map_app; simpl;
    [rewrite map_id_demoted|]; reflexivity.
Qed.

Lemma remove_nth_map {A B} (f : A -> B) i l :
  map f (remove_nth i l) = remove_nth i (map f l).
Proof.
  revert i. induction l as [|x l IH]; intros [|i]; simpl; try reflexivity.
  rewrite IH. reflexivity.
Qed.

Lemma NoDup_remove_nth {A} i (l : list A) : NoDup l -> NoDup (remove_nth i l).
Proof.
  revert i. induction l as [|x l IH]; intros [|i] H; simpl; auto;
    inversion H; subst; auto.
  constructor; [|auto]. intros Hin. apply H2.
  clear - Hin. revert i Hin. induction l as [|y l IH]; intros [|i] Hin;
    simpl in *; auto.
  destruct Hin as [->|Hin]; [auto | right; eapply IH; eauto].
Qed.

Lemma deletePage_NoDup id d :
  NoDup (map Page.id (pages d)) ->
  NoDup (map Page.id (pages (fst (deletePage id d)))).
Proof.
  intros ND. unfold deletePage.
  destruct (findIndex _ (pages d)) as [index|]; [|exact ND].
  pose proof (NoDup_remove_nth index ND) as ND'.
  rewrite <- remove_nth_map in ND'.
  destruct (remove_nth index (pages d)) as [|first others]; [constructor|].
  destruct (match nth_error (pages d) index with
            | Some p => Page.isDefault p | None => false end); exact ND'.
Qed.

Lemma set_nth_map_id index q ps p :
  nth_error ps index = Some p -> Page.id q = Page.id p ->
  map Page.id (set_nth index q ps) = map Page.id ps.
Proof.
  revert index. induction ps as [|r ps IH]; intros [|i] H E; simpl in *;
    try discriminate.
  - inversion H; subst. rewrite E. reflexivity.
  - rewrite (IH i H E). reflexivity.
Qed.

Lemma updatePage_ids now id updates d :
  upd_id updates = None ->
  map Page.id (pages (fst (updatePage now id updates d)))
  = map Page.id (pages d).
Proof.
  intros I. unfold updatePage.
  destruct (findIndex _ (pages d)) as [index|] eqn:F; [|reflexivity].
  destruct (findIndex_nth _ _ F) as (p & Hp & _). rewrite Hp.
  assert (E : map Page.id (set_nth index (assign p updates now) (pages d))
              = map Page.id (pages d)).
  { apply (@set_nth_map_id index _ (pages d) p Hp). simpl. rewrite I. reflexivity. }
  destruct (opt_else (upd_isDefault updates) false); simpl; [|exact E].
  rewrite map_map. rewrite <- E. apply map_ext.
  intros q. destruct (negb _); reflexivity.
Qed.

(** Every sequence of operations without such an update keeps exactly one
    default page (and the ids distinct). *)
Lemma one_default_kept ops : forall d,
  one_default d -> NoDup (map Page.id (pages d)) ->
  all_keep_default ops d ->
  one_default (run_ops ops d) /\ NoDup (map Page.id (pages (run_ops ops d))).
Proof.
  induction ops as [|o ops IH]; intros d Inv ND H; [auto|].
  destruct H as [Ho H]. simpl. apply IH; [| |exact H]; clear IH H.
  - destruct o as [fresh now page|now id updates|id]; simpl in *.
    + apply addPage_one_default. exact Inv.
    + destruct Ho as [I U].
      destruct (upd_isDefault updates) as [[|]|] eqn:E.
      * apply updatePage_promote_one_default; auto.
      * congruence.
      * apply updatePage_one_default; auto.
    + apply deletePage_one_default. exact Inv.
  - destruct o as [fresh now page|now id updates|id]; simpl in *.
    + rewrite addPage_ids. apply NoDup_app; [exact ND | repeat constructor; auto |].
      intros x Hx [<-|[]]. exact (Ho Hx).
    + destruct Ho as [I U]. rewrite updatePage_ids by exact I. exact ND.
    + apply deletePage_NoDup. exact ND.
Qed.

Lemma one_default_from_empty ops :
  all_keep_default ops defaultData -> one_default (run_ops ops defaultData).
Proof.
  intros H. apply one_default_kept; [| constructor | exact H].
  intros Hne. exfalso. apply Hne. reflexivity.
Qed.

(** C1, where the code departs from it. Starting from the empty store,
    adding a page and then updating it with [isDefault: false] (the request
    the edit dialog sends when the box is unticked) leaves a store with one
    page and no default page, while [config.defaultPageId] still names the
    page. *)
Theorem update_unsets_the_only_default :
  let spec := mkPageSpec (lit "Notes") (lit "a1b2c3d4e5f6a1b2c3d4e5f6a1b2c3d4")
                         None None in
  let updates := mkUpdates None (Some (lit "Notes")) None None (Some false) None in
  let d := run_ops [OpAdd (lit "p1") (lit "2024-01-01T00:00:00.000Z") spec;
                    OpUpdate (lit "2024-01-02T00:00:00.000Z") (lit "p1") updates]
                   defaultData in
  length (pages d) = 1 /\
  default_count (pages d) = 0 /\
  getDefaultPage d = None /\
  defaultPageId (config d) = Some (lit "p1").
Proof. vm_compute. auto. Qed.

(** *** Deleting the default page *)

Lemma deletePage_default_general id d index p :
  findIndex (fun q => str_eqb (Page.id q) id) (pages d) = Some index ->
  nth_error (pages d) index = Some p ->
  Page.isDefault p = true ->
  default_count (pages d) = 1 ->
  2 <= length (pages d) ->
  exists first others,
    remove_nth index (pages d) = first :: others /\
    deletePage id d
    = (set_pages (Page.set_isDefault true first :: others)
                 (set_defaultPageId (Some (Page.id first)) d), true) /\
    default_count (Page.set_isDefault true first :: others) = 1.
Proof.
  intros F Hp Hd Hc Hl. unfold deletePage. rewrite F, Hp, Hd.
  pose proof (remove_nth_length _ _ Hp) as Hlen.
  pose proof (count_remove_nth _ _ Hp) as Hcount. rewrite Hd, Hc in Hcount.
  destruct (remove_nth index (pages d)) as [|first others] eqn:R;
    [simpl in Hlen; lia|].
  exists first, others. split; [reflexivity|]. split; [reflexivity|].
  apply count_zero_head. lia.
Qed.

(** C4. When the page found under [id] is the default page and at least
    two other pages exist, [deletePage(id)] removes it, marks the first of
    the remaining pages (and no other) as default and points
    [config.defaultPageId] at it; when the page deleted is the only page,
    the pointer becomes null. *)
Theorem deletePage_reassigns_default id d index p :
  findIndex (fun q => str_eqb (Page.id q) id) (pages d) = Some index ->
  nth_error (pages d) index = Some p ->
  Page.isDefault p = true ->
  default_count (pages d) = 1 ->
  3 <= length (pages d) ->
  (exists first others,
      remove_nth index (pages d) = first :: others /\
      snd (deletePage id d) = true /\
      pages (fst (deletePage id d)) = Page.set_isDefault true first :: others /\
      default_count (pages (fst (deletePage id d))) = 1 /\
      getDefaultPage (fst (deletePage id d)) = Some (Page.set_isDefault true first) /\
      defaultPageId (config (fst (deletePage id d))) = Some (Page.id first)) /\
  (forall d1 p1,
      pages d1 = [p1] -> Page.id p1 = id ->
      snd (deletePage id d1) = true /\
      pages (fst (deletePage id d1)) = [] /\
      defaultPageId (config (fst (deletePage id d1))) = None).
Proof.
  intros F Hp Hd Hc Hl. split.
  - destruct (@deletePage_default_general id d index p F Hp Hd Hc)
      as (first & others & R & E & C); [lia|].
    exists first, others. rewrite E. simpl. repeat split; auto.
  - intros d1 p1 H1 Hid. unfold deletePage. rewrite H1. simpl.
    subst id. rewrite str_eqb_refl. simpl. auto.
Qed.

Lemma deletePage_reassigns_default_witness :
  let page i dflt :=
    Page.mk i (lit "page") (lit "a1b2c3d4e5f6a1b2c3d4e5f6a1b2c3d4") None dflt
            (lit "2024-01-01T00:00:00.000Z") None in
  let d := mkDb (mkConfig None (Some (lit "b")))
                [page (lit "a") false; page (lit "b") true; page (lit "c") false]
                [] (settings defaultData) in
  pages (fst (deletePage (lit "b") d))
    = [page (lit "a") true; page (lit "c") false] /\
  defaultPageId (config (fst (deletePage (lit "b") d))) = Some (lit "a").
Proof.
  intros page d.
  destruct (@deletePage_reassigns_default (lit "b") d 1 (page (lit "b") true)
              eq_refl eq_refl eq_refl eq_refl (le_n 3))
    as [(first & others & R & _ & P & _ & _ & C) _].
  vm_compute in R. inversion R; subst first others.
  split; [exact P | exact C].
Defined.

(** *** History *)

Local Arguments firstn : simpl never.

Lemma addHistory_history fresh now record d :
  history (fst (addHistory fresh now record d))
  = firstn 100 (newRecord fresh now record :: history d).
Proof.
  unfold addHistory.
  destruct (100 <? length (newRecord fresh now record :: history d)) eqn:E.
  - cbn [fst set_history history]. apply slice_from_start. lia.
  - cbn [fst set_history history]. apply Nat.ltb_ge in E.
    symmetry. apply firstn_all2. exact E.
Qed.

Lemma appendAll_snoc calls a d :
  appendAll (calls ++ [a]) d
  = let '(fresh, now, record) := a in
    fst (addHistory fresh now record (appendAll calls d)).
Proof. unfold appendAll. rewrite fold_left_app. reflexivity. Qed.

(** After any sequence of appends to a store within the cap, the history
    is the 100 newest records, newest first. *)
Lemma appendAll_history calls : forall d,
  length (history d) <= 100 ->
  history (appendAll calls d)
  = firstn 100 (rev (map stored calls) ++ history d).
Proof.
  induction calls as [|[[fresh now] record] calls IH]; intros d Hd.
  - simpl. symmetry. apply firstn_all2. exact Hd.
  - change (appendAll (((fresh, now), record) :: calls) d)
      with (appendAll calls (fst (addHistory fresh now record d))).
    rewrite IH; rewrite addHistory_history.
    + rewrite firstn_app_firstn. simpl. rewrite <- app_assoc. reflexivity.
    + rewrite length_firstn. lia.
Qed.

Lemma getHistory_length limit search d :
  length (getHistory limit search d) <= length (history d).
Proof.
  unfold getHistory.
  etransitivity; [apply slice_length|].
  destruct (truthy _); [apply filter_length_le | apply Nat.le_refl].
Qed.

Lemma firstn_cons_removelast {A} n (x : A) l :
  length l = n -> n <> 0 -> firstn n (x :: l) = x :: removelast l.
Proof.
  revert x l. induction n as [|n IH]; intros x l Hl Hn; [congruence|].
  destruct l as [|y l]; [discriminate|]. simpl in Hl.
  destruct n as [|n].
  - destruct l; [reflexivity | discriminate].
  - change (firstn (S (S n)) (x :: y :: l)) with (x :: firstn (S n) (y :: l)).
    rewrite IH by lia.
    destruct l; [discriminate | reflexivity].
Qed.

(** C5. After any sequence of [addHistory] calls on the empty store, the
    history holds the 100 newest of the records appended, newest first, so
    at most 100; [getHistory] never returns more than 100 entries, whatever
    the limit and the search text; and once 100 or more records were
    appended, one more append puts the new record first and drops the last,
    oldest, record. *)
Theorem history_capped_newest_first
        (calls : list append) (fresh now : str) (record : HistorySpec) :
  let d := appendAll calls defaultData in
  history d = firstn 100 (rev (map stored calls)) /\
  length (history d) <= 100 /\
  (forall limit search, length (getHistory limit search d) <= 100) /\
  (100 <= length calls ->
   length (history d) = 100 /\
   history (fst (addHistory fresh now record d))
   = newRecord fresh now record :: removelast (history d)).
Proof.
  intros d.
  assert (H : history d = firstn 100 (rev (map stored calls))).
  { unfold d. rewrite appendAll_history by (simpl; lia).
    simpl. rewrite app_nil_r. reflexivity. }
  assert (L : length (history d) <= 100).
  { rewrite H, length_firstn. lia. }
  split; [exact H|]. split; [exact L|]. split.
  - intros limit search. etransitivity; [apply getHistory_length | exact L].
  - intros Hc.
    assert (L' : length (history d) = 100).
    { rewrite H, length_firstn, length_rev, length_map. lia. }
    split; [exact L'|].
    rewrite addHistory_history. apply firstn_cons_removelast; [exact L' | lia].
Qed.

Lemma history_capped_newest_first_witness :
  let r i := mkHistorySpec i (lit "p1") None None (lit "failed")
                           (Some (lit "rate_limited")) in
  let calls := map (fun i => (lit "id", lit "2024-01-01T00:00:00.000Z",
                              r (repeat "a"%char i))) (seq 0 100) in
  let d := appendAll calls defaultData in
  100 <= length calls /\
  length (history d) = 100 /\
  history (fst (addHistory (lit "new") (lit "2024-01-02T00:00:00.000Z")
                           (r (lit "newest")) d))
  = newRecord (lit "new") (lit "2024-01-02T00:00:00.000Z") (r (lit "newest"))
      :: removelast (history d).
Proof.
  intros r calls d.
  assert (Hc : 100 <= length calls)
    by (unfold calls; rewrite length_map, length_seq; apply le_n).
  split; [exact Hc|].
  exact (proj2 (proj2 (proj2
    (history_capped_newest_first calls (lit "new")
       (lit "2024-01-02T00:00:00.000Z") (r (lit "newest"))))) Hc).
Defined.

(** C7. With a search text that is not empty and a limit that is not
    negative, [getHistory] keeps, of the whole history and in its order,
    the records whose title contains the text, letter case aside, and only
    then takes the first [limit] of them: the result has [limit] entries as
    soon as that many records match, wherever they are in the history. *)
Theorem getHistory_filters_then_limits
        (d : Db) (limit : Z) (search : str) :
  search <> [] ->
  (0 <= limit)%Z ->
  exists matches : HistoryRecord.t -> bool,
    (forall h, matches h = true <-> ci_substring search (HistoryRecord.title h)) /\
    getHistory (Some limit) (Some search) d
    = firstn (Z.to_nat limit) (filter matches (history d)) /\
    length (getHistory (Some limit) (Some search) d)
    = Nat.min (Z.to_nat limit) (length (filter matches (history d))).
Proof.
  intros Hs Hl.
  exists (fun h => includes (toLowerCase (HistoryRecord.title h))
                            (toLowerCase search)).
  split; [intros h; apply includes_spec|].
  assert (E : getHistory (Some limit) (Some search) d
              = firstn (Z.to_nat limit)
                  (filter (fun h => includes (toLowerCase (HistoryRecord.title h))
                                             (toLowerCase search)) (history d))).
  { unfold getHistory. simpl opt_else.
    apply truthy_true_iff in Hs. rewrite Hs.
    apply slice_from_start. exact Hl. }
  split; [exact E|]. rewrite E. apply length_firstn.
Qed.

Lemma getHistory_filters_then_limits_witness :
  let r t := mkHistorySpec t (lit "p1") None None (lit "success") None in
  let d := appendAll [(lit "h1", lit "2024-01-01T00:00:00.000Z", r (lit "Travel PLAN"));
                      (lit "h2", lit "2024-01-02T00:00:00.000Z", r (lit "Notes"))]
                     defaultData in
  exists matches : HistoryRecord.t -> bool,
    (forall h, matches h = true <->
               ci_substring (lit "plan") (HistoryRecord.title h)) /\
    getHistory (Some 1%Z) (Some (lit "plan")) d
    = firstn (Z.to_nat 1) (filter matches (history d)) /\
    length (getHistory (Some 1%Z) (Some (lit "plan")) d)
    = Nat.min (Z.to_nat 1) (length (filter matches (history d))).
Proof.
  intros r d.
  apply (@getHistory_filters_then_limits d 1%Z (lit "plan")).
  - discriminate.
  - lia.
Defined.

(** The limit is taken after the filter: with a limit of 1, the record
    returned for "plan" is the second of the history, which taking one
    record first and filtering afterwards would miss. *)
Example getHistory_scans_past_limit :
  let r t := mkHistorySpec t (lit "p1") None None (lit "success") None in
  let d := appendAll [(lit "h1", lit "2024-01-01T00:00:00.000Z", r (lit "Travel PLAN"));
                      (lit "h2", lit "2024-01-02T00:00:00.000Z", r (lit "Notes"))]
                     defaultData in
  map HistoryRecord.id (getHistory (Some 1%Z) (Some (lit "plan")) d) = [lit "h1"] /\
  map HistoryRecord.id (getHistory (Some 1%Z) None d) = [lit "h2"].
Proof. vm_compute. auto. Qed.

(** *** The API key *)

(** C10, as stated, fails on a stored value that is not null and is the
    empty string: [hasApiKey] answers false. *)
Lemma hasApiKey_empty_string :
  let d := set_apiKey (Some []) defaultData in
  ~ (fst (hasApiKey d) = true <-> apiKey (config d) <> None).
Proof.
  intros d [_ H]. assert (E : fst (hasApiKey d) = true) by (apply H; discriminate).
  discriminate E.
Qed.

(** C10, as amended. [hasApiKey] answers true exactly when the stored
    [config.apiKey] is neither null nor the empty string; it makes no call
    into crypto.js; and when the stored value is a token without [:],
    which [decrypt] rejects, it still answers true while [getApiKey]
    throws. *)
Theorem hasApiKey_truthy_no_decrypt
        (lib : Crypto.NodeCrypto) (SECRET_KEY : option utf16) (d : Db) :
  (fst (hasApiKey d) = true <->
   exists k, apiKey (config d) = Some k /\ k <> []) /\
  snd (hasApiKey d) = [] /\
  (forall token,
      apiKey (config d) = Some token -> token <> [] -> ~ In ":"%char token ->
      fst (hasApiKey d) = true /\
      getApiKey SECRET_KEY d
      = (Throw (Error (lit "Invalid encrypted text format")),
         [CallDecrypt token])).
Proof.
  split; [|split; [reflexivity|]].
  - unfold hasApiKey. simpl. destruct (apiKey (config d)) as [k|]; simpl.
    + rewrite truthy_true_iff. split.
      * intros H. exists k. auto.
      * intros (k' & E & H). inversion E; subst. exact H.
    + split; [discriminate | intros (k & E & _); discriminate].
  - intros token E Hne Hno. unfold hasApiKey, getApiKey. rewrite E. simpl.
    apply truthy_true_iff in Hne as Ht. rewrite Ht. split; [reflexivity|].
    f_equal. apply CryptoFacts.decrypt_malformed_format; auto.
Qed.

Lemma hasApiKey_truthy_no_decrypt_witness :
  let d := set_apiKey (Some (lit "corrupt")) defaultData in
  fst (hasApiKey d) = true /\
  @getApiKey CryptoModel.model None d
  = (Throw (Error (lit "Invalid encrypted text format")),
     [CallDecrypt (lit "corrupt")]).
Proof.
  intros d.
  apply (proj2 (proj2 (hasApiKey_truthy_no_decrypt CryptoModel.model None d))
               (lit "corrupt") eq_refl).
  - discriminate.
  - vm_compute. intuition discriminate.
Defined.

End StorageFacts.

Module NotionFacts.
Import Js Storage Notion NotionSpec JsFacts.

Local Arguments firstn : simpl never.
Local Arguments skipn : simpl never.
Local Arguments Nat.div : simpl never.

Lemma batches_count_step (len i : nat) :
  i < len -> (len - i + 99) / 100 = S ((len - (i + 100) + 99) / 100).
Proof.
  intros H.
  destruct (Nat.le_gt_cases 100 (len - i)) as [H1|H1].
  - replace (len - i + 99) with ((len - (i + 100) + 99) + 1 * 100) by lia.
    rewrite Nat.div_add by lia. lia.
  - replace (len - (i + 100) + 99) with 99 by lia.
    rewrite (Nat.div_small 99 100) by lia.
    symmetry. apply Nat.div_unique with (r := len - i - 1); lia.
Qed.

Lemma batches_from_step {block} i (blocks : list block) :
  i < length blocks ->
  batches_from i blocks
  = firstn 100 (skipn i blocks) :: batches_from (i + 100) blocks.
Proof.
  intros H. unfold batches_from, MAX_BLOCKS_PER_REQUEST.
  change (100 - 1) with 99.
  rewrite (batches_count_step H).
  rewrite <- cons_seq, <- seq_shift, map_cons, map_map.
  f_equal; [f_equal; f_equal; lia|].
  apply map_ext. intros k. f_equal. f_equal. lia.
Qed.

Lemma batches_from_done {block} i (blocks : list block) :
  length blocks <= i -> batches_from i blocks = [].
Proof.
  intros H. unfold batches_from, MAX_BLOCKS_PER_REQUEST.
  replace (length blocks - i + (100 - 1)) with 99 by lia. reflexivity.
Qed.

(** The batches are the blocks from [i] on, in order, in pieces of 1 to
    100 blocks. *)
Lemma batches_from_concat {block} (blocks : list block) : forall n i,
  length blocks - i <= n ->
  concat (batches_from i blocks) = skipn i blocks /\
  Forall (fun b => 1 <= length b <= 100) (batches_from i blocks).
Proof.
  induction n as [|n IH]; intros i Hn.
  - rewrite batches_from_done by lia. rewrite skipn_all2 by lia.
    split; [reflexivity | constructor].
  - destruct (Nat.lt_ge_cases i (length blocks)) as [H|H].
    + rewrite batches_from_step by exact H.
      destruct (IH (i + 100)) as [Hc Hf]; [lia|].
      split.
      * simpl. rewrite Hc.
        transitivity (firstn 100 (skipn i blocks) ++ skipn 100 (skipn i blocks));
          [|apply firstn_skipn].
        f_equal. rewrite skipn_skipn. f_equal. lia.
      * constructor; [|exact Hf].
        rewrite length_firstn, length_skipn. lia.
    + rewrite batches_from_done by lia. rewrite skipn_all2 by lia.
      split; [reflexivity | constructor].
Qed.

Section Publisher.
Context {lib : Crypto.NodeCrypto}.
Variable SECRET_KEY : option utf16.
Variable block : Type.
Variable world : Type.
Variable pages_create :
  world -> str -> str -> list block -> world * result PageResponse.
Variable blocks_children_append :
  world -> str -> list block -> world * result unit.

(** One turn of the loop of [appendBlocks]. *)
Lemma appendLoop_unfold pageId blocks i w :
  appendLoop blocks_children_append pageId blocks i w
  = if i <? length blocks then
      let batch := firstn 100 (skipn i blocks) in
      match blocks_children_append w pageId batch with
      | (w', Throw e) => (w', [BlocksChildrenAppend pageId batch], Throw e)
      | (w', Ok _) =>
          let '(w'', calls, r) :=
            appendLoop blocks_children_append pageId blocks (i + 100) w' in
          (w'', BlocksChildrenAppend pageId batch :: calls, r)
      end
    else (w, [], Ok tt).
Proof.
  rewrite appendLoop_equation_1.
  destruct (lt_dec i (length blocks)) as [H|H].
  - rewrite appendLoop_clause_1_equation_1.
    apply Nat.ltb_lt in H as Hb. rewrite Hb.
    unfold MAX_BLOCKS_PER_REQUEST. rewrite slice_window. cbv zeta.
    destruct (blocks_children_append w pageId _) as [w' [u|e]].
    + rewrite appendLoop_clause_1_clause_2_equation_1.
      unfold MAX_BLOCKS_PER_REQUEST. rewrite slice_window. reflexivity.
    + rewrite appendLoop_clause_1_clause_2_equation_2.
      unfold MAX_BLOCKS_PER_REQUEST. rewrite slice_window. reflexivity.
  - rewrite appendLoop_clause_1_equation_2.
    apply Nat.ltb_nlt in H. rewrite H. reflexivity.
Qed.

Hypothesis append_accepts :
  forall w pageId bs, exists w', blocks_children_append w pageId bs = (w', Ok tt).

(** While the service accepts the requests, the loop sends the batches in
    order and returns. *)
Lemma appendLoop_accepted pageId blocks : forall n i w,
  length blocks - i <= n ->
  exists w',
    appendLoop blocks_children_append pageId blocks i w
    = (w', map (BlocksChildrenAppend pageId) (batches_from i blocks), Ok tt).
Proof.
  induction n as [|n IH]; intros i w Hn; rewrite appendLoop_unfold.
  - assert (E : (i <? length blocks) = false) by (apply Nat.ltb_ge; lia).
    rewrite E, batches_from_done by lia. eauto.
  - destruct (i <? length blocks) eqn:E.
    + apply Nat.ltb_lt in E. cbv zeta.
      destruct (append_accepts w pageId (firstn 100 (skipn i blocks))) as (w1 & ->).
      destruct (IH (i + 100) w1) as (w2 & ->); [lia|].
      rewrite (@batches_from_step _ i blocks E). simpl. eauto.
    + apply Nat.ltb_ge in E. rewrite batches_from_done by lia. eauto.
Qed.

End Publisher.

Lemma children_appends {block} pageId (bs : list (list block)) :
  map children (map (BlocksChildrenAppend pageId) bs) = bs.
Proof.
  rewrite map_map. simpl. apply map_id.
Qed.

(** C6. With an API key configured and a service that accepts the
    requests, [createPage] sends the first 100 blocks with the request that
    creates the page and the others, 100 at a time and in order, with
    requests that append to the page created: no request carries more than
    100 blocks, the blocks of the requests, one after the other, are the
    blocks given, and 250 blocks make exactly three requests, of 100, 100
    and 50 blocks. *)
Theorem createPage_batches
        (lib : Crypto.NodeCrypto) (SECRET_KEY : option utf16)
        (block world : Type)
        (pages_create :
           world -> str -> str -> list block -> world * result PageResponse)
        (blocks_children_append :
           world -> str -> list block -> world * result unit)
        (d : Db) (parentPageId title : str) (blocks : list block) (w : world) :
  (exists key, initClient SECRET_KEY d = Ok key) ->
  (forall w p t bs, exists w' r, pages_create w p t bs = (w', Ok r)) ->
  (forall w i bs, exists w', blocks_children_append w i bs = (w', Ok tt)) ->
  exists w' response,
    let first := firstn 100 blocks in
    let others := batches_from 0 (skipn 100 blocks) in
    let calls :=
      PagesCreate parentPageId title first
        :: map (BlocksChildrenAppend (resp_id response)) others in
    createPage SECRET_KEY pages_create blocks_children_append
               d parentPageId title blocks w
    = (w', calls, Success (resp_id response) (resp_url response) title) /\
    concat (map children calls) = blocks /\
    Forall (fun c => length (children c) <= 100) calls /\
    Forall (fun b => 1 <= length b) others /\
    (length blocks = 250 ->
     map (fun c => length (children c)) calls = [100; 100; 50]).
Proof.
  intros (key & Hkey) Hcreate Happend.
  destruct (Hcreate w parentPageId title (firstn 100 blocks)) as (w1 & response & Hc).
  destruct (@batches_from_concat block (skipn 100 blocks)
              (length (skipn 100 blocks)) 0) as [Hcat Hall]; [lia|].
  rewrite skipn_O in Hcat.
  assert (Hrun : exists w',
    createPage SECRET_KEY pages_create blocks_children_append
               d parentPageId title blocks w
    = (w', PagesCreate parentPageId title (firstn 100 blocks)
             :: map (BlocksChildrenAppend (resp_id response))
                    (batches_from 0 (skipn 100 blocks)),
       Success (resp_id response) (resp_url response) title)).
  { unfold createPage, appendBlocks. rewrite Hkey.
    unfold MAX_BLOCKS_PER_REQUEST.
    rewrite slice_from_start by lia. rewrite Nat2Z.id.
    rewrite slice_to_end. rewrite Hc.
    destruct (0 <? length (skipn 100 blocks)) eqn:E.
    - destruct (@appendLoop_accepted block world blocks_children_append Happend
                  (resp_id response) (skipn 100 blocks)
                  (length (skipn 100 blocks)) 0 w1) as (w2 & ->); [lia|].
      eauto.
    - apply Nat.ltb_ge in E. rewrite batches_from_done by lia. eauto. }
  destruct Hrun as (w' & Hrun).
  exists w', response. cbv zeta. split; [exact Hrun|]. split; [|split; [|split]].
  - cbn [map children]. rewrite children_appends. cbn [concat].
    rewrite Hcat. apply firstn_skipn.
  - constructor.
    + cbn [children]. rewrite length_firstn. lia.
    + apply Forall_map. eapply Forall_impl; [|exact Hall].
      intros b Hb. cbn [children] in *. cbv beta in Hb. lia.
  - eapply Forall_impl; [|exact Hall]. intros b Hb. cbv beta in Hb. lia.
  - intros Hlen.
    assert (Hrem : length (skipn 100 blocks) = 150)
      by (rewrite length_skipn; lia).
    rewrite (@batches_from_step _ 0 (skipn 100 blocks)) by lia.
    rewrite (@batches_from_step _ (0 + 100) (skipn 100 blocks)) by lia.
    rewrite (@batches_from_done _ (0 + 100 + 100) (skipn 100 blocks)) by lia.
    cbn [map children length].
    rewrite !length_firstn, !length_skipn, Hlen. reflexivity.
Qed.

Lemma createPage_batches_witness :
  let d := fst (@setApiKey CryptoModel.model None (repeat Byte.x2a 16)
                           (Some (wide (lit "secret_abc123"))) defaultData) in
  let create := fun (w : nat) (_ _ : str) (_ : list nat) =>
                  (S w, Ok (mkResponse (lit "page-1")
                                       (lit "https://www.notion.so/page-1"))) in
  let append := fun (w : nat) (_ : str) (_ : list nat) => (S w, Ok tt) in
  exists w' calls r,
    @createPage CryptoModel.model None nat nat create append
                d (lit "a1b2c3d4e5f6a1b2c3d4e5f6a1b2c3d4") (lit "Title")
                (seq 0 250) 0
    = (w', calls, r) /\
    map (fun c => length (children c)) calls = [100; 100; 50] /\
    concat (map children calls) = seq 0 250.
Proof.
  intros d create append.
  destruct (@createPage_batches CryptoModel.model None nat nat create append
              d (lit "a1b2c3d4e5f6a1b2c3d4e5f6a1b2c3d4") (lit "Title")
              (seq 0 250) 0)
    as (w' & response & Hrun & Hcat & _ & _ & Hsizes).
  - exists (wide (lit "secret_abc123")). vm_compute. reflexivity.
  - intros w p t bs. unfold create. eauto.
  - intros w i bs. unfold append. eauto.
  - eexists w', _, _. split; [exact Hrun|]. split; [|exact Hcat].
    apply Hsizes. apply length_seq.
Defined.

End NotionFacts.

(** * Further properties *)

Module ValidatorMore.
Import Js Regex RegexSpec RegexFacts LangFacts Validator ValidatorSpec
       ValidatorFacts ValidatorRest.

(** *** What [extractPageId] returns *)

Lemma hex_run_app n k u v : hex_run n u -> hex_run k v -> hex_run (n + k) (u ++ v).
Proof.
  intros [Hu Fu] [Hv Fv]. split.
  - rewrite length_app. congruence.
  - rewrite forallb_app, Fu, Fv. reflexivity.
Qed.

Lemma uuid_bare_hex s bare : is_uuid s bare -> hex_run 32 bare.
Proof.
  intros (a & b & c & d & e & _ & -> & Ha & Hb & Hc & Hd & He).
  change 32 with (8 + (4 + (4 + (4 + 12)))).
  repeat apply hex_run_app; assumption.
Qed.

Lemma hex_not_ws c : is_hex c = true -> is_ws c = false.
Proof.
  intros H. destruct (is_ws c) eqn:E; [|reflexivity].
  assert (A : forall x, negb (is_hex x && is_ws x) = true).
  { apply all_chars_forall. vm_compute. reflexivity. }
  specialize (A c). rewrite H, E in A. discriminate.
Qed.

Lemma trimStart_no_ws s : forallb (fun c => negb (is_ws c)) s = true -> trimStart s = s.
Proof.
  destruct s as [|c s]; simpl; [reflexivity|].
  intros H. apply andb_prop in H. destruct H as [H _].
  apply negb_true_iff in H. rewrite H. reflexivity.
Qed.

Lemma trimEnd_no_ws s : forallb (fun c => negb (is_ws c)) s = true -> trimEnd s = s.
Proof.
  induction s as [|c s IH]; simpl; [reflexivity|].
  intros H. apply andb_prop in H. destruct H as [Hc Hs].
  apply negb_true_iff in Hc. rewrite (IH Hs), Hc. destruct s; reflexivity.
Qed.

Lemma trim_no_ws s : forallb (fun c => negb (is_ws c)) s = true -> trim s = s.
Proof.
  intros H. unfold trim. rewrite (trimStart_no_ws _ H). apply trimEnd_no_ws, H.
Qed.

Lemma hex_run_trim n s : hex_run n s -> trim s = s.
Proof.
  intros [_ H]. apply trim_no_ws. rewrite forallb_forall in *.
  intros c Hc. rewrite (hex_not_ws c (H c Hc)). reflexivity.
Qed.

Lemma extractPageId_result_run input r :
  extractPageId input = Some r -> hex_run 32 r.
Proof.
  rewrite extractPageId_unfold. cbv zeta.
  destruct (test re_id (trim input)) eqn:E1.
  { intros H. inversion H; subst. apply re_id_spec. exact E1. }
  destruct (test re_uuid (trim input)) eqn:E2.
  { intros H. inversion H; subst. apply re_uuid_spec in E2.
    destruct E2 as (bare & Hb). rewrite (uuid_remove_dashes Hb).
    exact (uuid_bare_hex Hb). }
  destruct (exec re_url (trim input)) as [c|] eqn:E3.
  { intros ->. apply re_url_sound in E3. destruct E3 as (run & Hr & Hu).
    inversion Hr; subst. destruct Hu as (? & ? & ? & ? & ? & _ & _ & _ & _ & H). exact H. }
  destruct (exec re_last (trim input)) as [c|] eqn:E4; [|discriminate].
  intros ->. apply re_last_sound in E4. destruct E4 as (run & Hr & Hu).
  inversion Hr; subst. destruct Hu as (? & ? & _ & H & _). exact H.
Qed.

(** Whatever [extractPageId] returns is an identifier in the plain form:
    32 hexadecimal digits, so without dashes and without white space. *)
Theorem extractPageId_returns_hex32 input r :
  extractPageId input = Some r ->
  length r = 32 /\ forallb is_hex r = true.
Proof.
  intros H. exact (extractPageId_result_run _ H).
Qed.

Lemma extractPageId_returns_hex32_witness :
  length (lit "a1b2c3d4e5f6a1b2c3d4e5f6a1b2c3d4") = 32 /\
  forallb is_hex (lit "a1b2c3d4e5f6a1b2c3d4e5f6a1b2c3d4") = true.
Proof.
  apply (@extractPageId_returns_hex32
           (lit "https://www.notion.so/ws/My-Page-a1b2c3d4e5f6a1b2c3d4e5f6a1b2c3d4?pvs=4")).
  vm_compute. reflexivity.
Defined.

Lemma extractPageId_of_id r : hex_run 32 r -> extractPageId r = Some r.
Proof.
  intros H. rewrite extractPageId_unfold. cbv zeta.
  rewrite (hex_run_trim H).
  apply re_id_spec in H. rewrite H. reflexivity.
Qed.

(** An identifier that [extractPageId] returned is returned unchanged when
    it is given back to it: what the routes store can be pasted back. *)
Theorem extractPageId_fixes_its_results input r :
  extractPageId input = Some r -> extractPageId r = Some r.
Proof.
  intros H. apply extractPageId_of_id.
  exact (extractPageId_result_run _ H).
Qed.

Lemma extractPageId_fixes_its_results_witness :
  extractPageId (lit "A1B2C3D4E5F6A1B2C3D4E5F6A1B2C3D4")
  = Some (lit "A1B2C3D4E5F6A1B2C3D4E5F6A1B2C3D4").
Proof.
  apply (@extractPageId_fixes_its_results
           (lit "  A1B2C3D4-E5F6-A1B2-C3D4-E5F6A1B2C3D4  ")).
  vm_compute. reflexivity.
Defined.

(** *** [isValidApiKeyFormat] *)

Lemma Lang_exact_literal x w : Lang (exact_literal x) w <-> w = x.
Proof.
  revert w. induction x as [|a x IH]; intros w; simpl.
  - reflexivity.
  - split.
    + intros (u & v & -> & (c & -> & Hc) & Hv).
      apply ascii_eqb_eq in Hc. apply IH in Hv. subst. reflexivity.
    + intros ->. exists [a], x. split; [reflexivity|]. split.
      * exists a. split; [reflexivity|]. unfold ascii_eqb. apply Ascii.eqb_refl.
      * apply IH. reflexivity.
Qed.

(** [^(p)q$], the group being of no consequence for the test. *)
Lemma test_anchored_group P Q s :
  plain P = true -> plain Q = true ->
  test (Seq Bol (Seq (Seq (Grp P) Q) Eol)) s = true <->
  exists u v, s = u ++ v /\ Lang P u /\ Lang Q v.
Proof.
  intros HP HQ. rewrite test_true. split.
  - intros H. destruct (exec _ s) as [c|] eqn:E; [clear H | congruence].
    apply exec_sound in E. destruct E as (pre & s0 & st' & -> & HM).
    apply Match_Seq_inv in HM. destruct HM as (st1 & c1 & HB & HM).
    apply Match_Bol_inv in HB. destruct HB as (Hi & -> & ->).
    apply Match_Seq_inv in HM. destruct HM as (st2 & c2 & HM & HE).
    apply Match_Eol_inv in HE. destruct HE as (Hr & -> & ->).
    apply Match_Seq_inv in HM. destruct HM as (st3 & c3 & HG & HMQ).
    apply Match_Grp_inv in HG. destruct HG as ((c0 & HMP) & _).
    simpl in Hi. destruct pre; [|discriminate]. simpl.
    destruct (Match_plain HMP HP) as (u & Hu & [Cu _] & _).
    destruct (Match_plain HMQ HQ) as (v & Hv & [Cv _] & _).
    simpl in Cu. rewrite Hr, app_nil_r in Cv. rewrite Cv in Cu.
    exists u, v. auto.
  - intros (u & v & -> & Hu & Hv). eapply exec_complete.
    exists [], (u ++ v), (mkState (0 + length u + length v) []).
    split; [reflexivity|].
    eapply MSeq; [apply MBol; reflexivity|].
    eapply MSeq; [|apply MEol; reflexivity].
    eapply MSeq.
    + apply (MGrp (plain_Match P HP u Hu 0 v None)).
    + pose proof (fun c => plain_Match Q HQ v Hv (0 + length u) [] c) as H.
      rewrite app_nil_r in H. apply H.
Qed.

(** A key has the right format exactly when, the white space around it
    aside, it is [secret_] or [ntn_] followed by one or more letters and
    digits. *)
Theorem isValidApiKeyFormat_spec apiKey :
  isValidApiKeyFormat apiKey = true <->
  exists body,
    (trim apiKey = lit "secret_" ++ body \/ trim apiKey = lit "ntn_" ++ body) /\
    body <> [] /\ forallb alnum body = true.
Proof.
  assert (T : test re_api_key (trim apiKey) = true <->
              exists body,
                (trim apiKey = lit "secret_" ++ body \/
                 trim apiKey = lit "ntn_" ++ body) /\
                body <> [] /\ forallb alnum body = true).
  { unfold re_api_key. rewrite test_anchored_group by reflexivity. split.
    - intros (u & v & E & Hu & Hv). apply Lang_Plus_Chr in Hv.
      exists v. split; [|exact Hv].
      destruct Hu as [Hu|Hu]; apply Lang_exact_literal in Hu; subst u; auto.
    - intros (body & E & Hb). apply Lang_Plus_Chr in Hb.
      destruct E as [E|E]; eexists _, body; (split; [exact E|]);
        (split; [|exact Hb]); [left | right]; apply Lang_exact_literal; reflexivity. }
  unfold isValidApiKeyFormat. destruct apiKey as [|c k]; [|exact T].
  simpl. split; [discriminate|]. rewrite <- T. intros H. vm_compute in H. discriminate.
Qed.

End ValidatorMore.

Module TextFacts.
Import Js JsFacts ValidatorRest TextSpec MarkdownService.

Local Arguments firstn : simpl never.
Local Arguments skipn : simpl never.

(** *** Trimming and white space *)

Lemma not_blank_trimStart s : not_blank (trimStart s) = not_blank s.
Proof.
  induction s as [|c s IH]; simpl; [reflexivity|].
  destruct (is_ws c) eqn:E; simpl; [exact IH | rewrite E; reflexivity].
Qed.

Lemma trimEnd_nil s : trimEnd s = [] <-> not_blank s = false.
Proof.
  induction s as [|c s IH]; simpl; [split; reflexivity|].
  destruct (trimEnd s) as [|x t].
  - destruct (is_ws c); simpl.
    + rewrite <- IH. split; reflexivity.
    + split; discriminate.
  - split; [discriminate|]. intros H. apply orb_false_iff in H.
    destruct H as [_ H]. apply IH in H. discriminate.
Qed.

Lemma trimStart_nil s : trimStart s = [] <-> not_blank s = false.
Proof.
  induction s as [|c s IH]; simpl; [split; reflexivity|].
  destruct (is_ws c); simpl; [exact IH | split; discriminate].
Qed.

Lemma trim_nil s : trim s = [] <-> not_blank s = false.
Proof.
  unfold trim. rewrite trimEnd_nil, not_blank_trimStart. reflexivity.
Qed.

Lemma trimEnd_last s d :
  trimEnd s <> [] -> is_ws (last (trimEnd s) d) = false.
Proof.
  induction s as [|c s IH]; simpl; [congruence|].
  destruct (trimEnd s) as [|x t].
  - destruct (is_ws c) eqn:E; [congruence | intros _; exact E].
  - intros _. apply IH. discriminate.
Qed.

Lemma trimEnd_keep s d :
  s <> [] -> is_ws (last s d) = false -> trimEnd s = s.
Proof.
  induction s as [|c s IH]; [congruence|]. intros _ H.
  destruct s as [|x t].
  - simpl in *. rewrite H. reflexivity.
  - change (trimEnd (c :: x :: t)) with
      (match trimEnd (x :: t) with
       | [] => if is_ws c then [] else [c]
       | y :: u => c :: y :: u
       end).
    rewrite IH; [reflexivity | discriminate | exact H].
Qed.

Lemma trim_head s :
  trim s = [] \/ exists c t, trim s = c :: t /\ is_ws c = false.
Proof.
  unfold trim. destruct (trimStart s) as [|c t] eqn:E; [left; reflexivity|].
  assert (W : is_ws c = false).
  { clear - E. induction s as [|x s IH]; simpl in E; [discriminate|].
    destruct (is_ws x) eqn:Wx; [auto|]. inversion E; subst. exact Wx. }
  right. simpl. destruct (trimEnd t); [rewrite W|]; eauto.
Qed.

Lemma trim_last s d : trim s <> [] -> is_ws (last (trim s) d) = false.
Proof. apply trimEnd_last. Qed.

(** A text that starts and ends with something else than white space is
    its own trimmed form. *)
Lemma trim_keep c t d :
  is_ws c = false -> is_ws (last (c :: t) d) = false -> trim (c :: t) = c :: t.
Proof.
  intros W L. unfold trim. simpl trimStart. rewrite W.
  apply (@trimEnd_keep (c :: t) d); [discriminate | exact L].
Qed.

Lemma not_blank_last s d : s <> [] -> is_ws (last s d) = false -> not_blank s = true.
Proof.
  intros Hne H. apply existsb_exists. exists (last s d). split.
  - destruct s as [|x s]; [congruence|]. clear. revert x.
    induction s as [|y s IH]; intros x; [left; reflexivity|].
    right. apply IH.
  - rewrite H. reflexivity.
Qed.

Lemma last_of_app {A} (a b : list A) d : b <> [] -> last (a ++ b) d = last b d.
Proof.
  intros Hb. induction a as [|x a IH]; [reflexivity|].
  simpl. destruct (a ++ b) eqn:E; [|exact IH].
  destruct a; [simpl in E; congruence | discriminate].
Qed.

(** What follows the marker of a heading, the line being trimmed, is not
    blank. *)
Lemma after_marker_not_blank m line :
  m <> [] -> is_ws (last m " "%char) = true ->
  startsWith m (trim line) = true ->
  trim (skipn (length m) (trim line)) <> [].
Proof.
  intros Hm Hw H. apply startsWith_spec in H. destruct H as (r & E).
  rewrite E. rewrite skipn_app, Nat.sub_diag, skipn_all, skipn_O. simpl.
  assert (Hne : trim line <> []) by (rewrite E; destruct m; [congruence | discriminate]).
  pose proof (@trim_last line " "%char Hne) as L. rewrite E in L.
  destruct r as [|x r].
  - rewrite app_nil_r in L. congruence.
  - rewrite last_of_app in L by discriminate.
    intros T. apply trim_nil in T.
    rewrite (@not_blank_last (x :: r) " "%char) in T; [discriminate | discriminate | exact L].
Qed.

Lemma trim_keep_app c u w d :
  is_ws c = false -> w <> [] -> is_ws (last w d) = false ->
  trim ((c :: u) ++ w) = (c :: u) ++ w.
Proof.
  intros W Hw L. apply (@trim_keep c (u ++ w) d W).
  change (c :: u ++ w) with ((c :: u) ++ w).
  rewrite last_of_app by exact Hw. exact L.
Qed.

(** *** [extractTitle] *)

Lemma firstHeading_clean lines t :
  firstHeading lines = Some t -> t <> [] /\ trim t = t.
Proof.
  induction lines as [|line rest IH]; [discriminate|].
  cbn [firstHeading]. cbv zeta.
  destruct (startsWith (lit "# ") (trim line)) eqn:E1.
  { intros H. inversion H; subst. split.
    - apply (@after_marker_not_blank (lit "# ") line); [discriminate | reflexivity | exact E1].
    - apply ValidatorFacts.trim_idem. }
  destruct (startsWith (lit "## ") (trim line)) eqn:E2; [|exact IH].
  intros H. inversion H; subst. split.
  - apply (@after_marker_not_blank (lit "## ") line); [discriminate | reflexivity | exact E2].
  - apply ValidatorFacts.trim_idem.
Qed.

Lemma firstText_clean lines t :
  firstText lines = Some t -> t <> [] /\ trim t = t /\ length t <= 53.
Proof.
  revert t. induction lines as [|line rest IH]; intros t; [discriminate|].
  cbn [firstText]. cbv zeta.
  destruct (0 <? length (trim line)) eqn:E; [|apply IH].
  apply Nat.ltb_lt in E.
  destruct (trim_head line) as [T|(c & u & T & W)]; [rewrite T in E; simpl in E; lia|].
  destruct (50 <? length (trim line)) eqn:E50; intros [= <-].
  - rewrite T. change (firstn 50 (c :: u)) with (c :: firstn 49 u).
    split; [discriminate|]. split.
    + apply (@trim_keep_app c (firstn 49 u) (lit "...") " "%char W);
        [discriminate | reflexivity].
    + rewrite length_app. change (length (lit "...")) with 3.
      change (length (c :: firstn 49 u)) with (S (length (firstn 49 u))).
      rewrite length_firstn. cbn [length].
      pose proof (Nat.le_min_l 49 (length u)). lia.
  - apply Nat.ltb_ge in E50. split; [intros T'; rewrite T' in E; simpl in E; lia|].
    split; [apply ValidatorFacts.trim_idem | lia].
Qed.

Lemma extractTitle_nonempty markdown : extractTitle markdown <> [].
Proof.
  unfold extractTitle. destruct (negb (truthy markdown)); [discriminate|].
  cbv zeta. destruct (firstHeading _) as [t|] eqn:H1.
  { exact (proj1 (firstHeading_clean _ H1)). }
  destruct (firstText _) as [t|] eqn:H2.
  { exact (proj1 (firstText_clean _ H2)). }
  discriminate.
Qed.

(** The title [extractTitle] gives is never empty and has no white space
    at its start or at its end, whatever the text. *)
Theorem extractTitle_clean markdown :
  extractTitle markdown <> [] /\
  trim (extractTitle markdown) = extractTitle markdown.
Proof.
  split; [apply extractTitle_nonempty|].
  unfold extractTitle. destruct (negb (truthy markdown)).
  { vm_compute; reflexivity. }
  cbv zeta. destruct (firstHeading _) as [t|] eqn:H1.
  { exact (proj2 (firstHeading_clean _ H1)). }
  destruct (firstText _) as [t|] eqn:H2.
  { destruct (firstText_clean _ H2) as (_ & B & _). exact B. }
  vm_compute; reflexivity.
Qed.

(** Without a heading of level one or two the title has at most 53
    characters: the first 50 of the line and the dots. *)
Theorem extractTitle_short_without_heading markdown :
  firstHeading (split_on newline markdown) = None ->
  length (extractTitle markdown) <= 53.
Proof.
  intros H. unfold extractTitle. destruct (negb (truthy markdown)).
  { vm_compute. lia. }
  cbv zeta. rewrite H. destruct (firstText _) as [t|] eqn:H2.
  - apply (firstText_clean _ H2).
  - vm_compute. lia.
Qed.

Lemma extractTitle_short_without_heading_witness :
  length (extractTitle
            (lit "A first line that is much longer than the fifty characters kept")) <= 53.
Proof.
  apply extractTitle_short_without_heading. vm_compute. reflexivity.
Defined.

(** *** [getMarkdownStats] *)

Lemma split_on_length sep s :
  length (split_on sep s) = S (length (filter (fun c => ascii_eqb c sep) s)).
Proof.
  induction s as [|c s IH]; simpl; [reflexivity|].
  destruct (ascii_eqb c sep); simpl.
  - rewrite IH. reflexivity.
  - destruct (split_on sep s); simpl in *; lia.
Qed.

Lemma split_ws_from_count cur in_sep s :
  (in_sep = true -> cur = []) ->
  length (filter (fun w => 0 <? length w) (split_ws_from cur in_sep s))
  = (if truthy cur then 1 else 0) + runs_from (truthy cur) s.
Proof.
  revert cur in_sep. induction s as [|c s IH]; intros cur in_sep Hinv; simpl.
  - rewrite length_rev. destruct cur; reflexivity.
  - destruct (is_ws c).
    + destruct in_sep.
      * rewrite (Hinv eq_refl). rewrite IH by reflexivity. reflexivity.
      * simpl. rewrite length_rev.
        destruct cur; simpl; rewrite IH by reflexivity; reflexivity.
    + rewrite IH by discriminate. simpl. destruct cur; simpl; lia.
Qed.

Lemma runs_from_trimStart s : runs_from false (trimStart s) = runs_from false s.
Proof.
  induction s as [|c s IH]; simpl; [reflexivity|].
  destruct (is_ws c) eqn:E; [exact IH|]. simpl. rewrite E. reflexivity.
Qed.

Lemma runs_from_blank b s : not_blank s = false -> runs_from b s = 0.
Proof.
  revert b. induction s as [|c s IH]; intros b; simpl; [reflexivity|].
  destruct (is_ws c); simpl; [apply IH | discriminate].
Qed.

Lemma runs_from_trimEnd b s : runs_from b (trimEnd s) = runs_from b s.
Proof.
  revert b. induction s as [|c s IH]; intros b; [reflexivity|].
  simpl trimEnd. destruct (trimEnd s) as [|x t] eqn:E.
  - apply trimEnd_nil in E.
    destruct (is_ws c) eqn:W; simpl; rewrite W, runs_from_blank by exact E;
      reflexivity.
  - simpl. destruct (is_ws c); rewrite <- IH; reflexivity.
Qed.

Lemma runs_from_le b s : runs_from b s <= length s.
Proof.
  revert b. induction s as [|c s IH]; intros b; simpl; [lia|].
  destruct (is_ws c); [specialize (IH false) | specialize (IH true); destruct b]; lia.
Qed.

(** For a text that is not empty, [getMarkdownStats] counts the
    characters, one line more than there are line feeds, and as words the
    runs of characters that are not white space; there are never more words
    than characters. *)
Theorem getMarkdownStats_counts markdown :
  markdown <> [] ->
  chars (getMarkdownStats markdown) = length markdown /\
  lines (getMarkdownStats markdown) = S (newlines markdown) /\
  words (getMarkdownStats markdown) = word_runs markdown /\
  words (getMarkdownStats markdown) <= chars (getMarkdownStats markdown).
Proof.
  intros Hne. unfold getMarkdownStats.
  apply truthy_true_iff in Hne. rewrite Hne. simpl.
  assert (W : length (filter (fun w => 0 <? length w) (split_ws (trim markdown)))
              = word_runs markdown).
  { unfold split_ws. rewrite split_ws_from_count by discriminate. simpl.
    unfold trim, word_runs. rewrite runs_from_trimEnd. apply runs_from_trimStart. }
  split; [reflexivity|]. split; [apply split_on_length|].
  split; [exact W|]. rewrite W. apply runs_from_le.
Qed.

Lemma getMarkdownStats_counts_witness :
  let text := lit "# Title" ++ [newline] ++ lit "two  words " in
  chars (getMarkdownStats text) = length text /\
  lines (getMarkdownStats text) = S (newlines text) /\
  words (getMarkdownStats text) = word_runs text /\
  words (getMarkdownStats text) <= chars (getMarkdownStats text).
Proof.
  intros text. apply getMarkdownStats_counts. discriminate.
Defined.

(** *** [validateMarkdown] *)

Lemma utf8_byteLength_bounds s :
  length s <= utf8_byteLength s <= 2 * length s.
Proof.
  unfold utf8_byteLength. induction s as [|c s IH]; simpl; [lia|].
  destruct (code_unit c <? 128)%N; lia.
Qed.

(** A text is accepted exactly when it is not blank and, trimmed, takes no
    more bytes than the maximum; an error message comes with every
    rejection and with none of the acceptances; and an accepted text has,
    trimmed, no more characters than the maximum. *)
Theorem validateMarkdown_accepts sizeError markdown maxSize :
  let v := validateMarkdown sizeError markdown (Some maxSize) in
  (valid v = true <->
   not_blank markdown = true /\
   (Z.of_nat (utf8_byteLength (trim markdown)) <= maxSize)%Z) /\
  (valid v = true <-> error v = None) /\
  (valid v = true -> (Z.of_nat (length (trim markdown)) <= maxSize)%Z).
Proof.
  intros v.
  assert (A : valid v = true <->
              not_blank markdown = true /\
              (Z.of_nat (utf8_byteLength (trim markdown)) <= maxSize)%Z).
  { unfold v, validateMarkdown. destruct markdown as [|c m].
    - simpl. split; [discriminate | intros [H _]; discriminate].
    - cbn [truthy negb]. cbv iota zeta.
      destruct (length (trim (c :: m)) =? 0) eqn:E.
      + apply Nat.eqb_eq in E. apply length_zero_iff_nil in E.
        apply trim_nil in E. rewrite E. simpl.
        split; [discriminate | intros [H _]; discriminate].
      + apply Nat.eqb_neq in E.
        assert (N : not_blank (c :: m) = true).
        { destruct (not_blank (c :: m)) eqn:B; [reflexivity|].
          apply trim_nil in B. rewrite B in E. simpl in E. congruence. }
        rewrite N.
        destruct (maxSize <? _)%Z eqn:L; simpl.
        * apply Z.ltb_lt in L. split; [discriminate | intros [_ H]; lia].
        * apply Z.ltb_ge in L. split; auto. }
  split; [exact A|]. split.
  - unfold v, validateMarkdown. destruct (negb (truthy markdown)); simpl;
      [split; discriminate|].
    destruct (length (trim markdown) =? 0); simpl; [split; discriminate|].
    destruct (maxSize <? _)%Z; simpl; split; auto; discriminate.
  - intros H. apply A in H. destruct H as [_ H].
    pose proof (utf8_byteLength_bounds (trim markdown)). lia.
Qed.

Lemma validateMarkdown_accepts_witness :
  (Z.of_nat (length (trim (lit "  # Hello  "))) <= 1048576)%Z.
Proof.
  apply (@validateMarkdown_accepts (fun _ _ => lit "too large")
           (lit "  # Hello  ") 1048576%Z).
  vm_compute. reflexivity.
Defined.

End TextFacts.

Module StorageMore.
Import Js JsFacts Storage StorageSpec PointerSpec StorageFacts.

(** *** Finding the default page *)

Lemma find_app {A} (f : A -> bool) l1 l2 :
  find f (l1 ++ l2) = match find f l1 with Some x => Some x | None => find f l2 end.
Proof. induction l1 as [|x l1 IH]; simpl; [reflexivity|]. destruct (f x); auto. Qed.

Lemma find_demoted ps : find Page.isDefault (map (Page.set_isDefault false) ps) = None.
Proof. induction ps; simpl; auto. Qed.

Lemma find_remove_nth ps i p :
  nth_error ps i = Some p -> Page.isDefault p = false ->
  find Page.isDefault (remove_nth i ps) = find Page.isDefault ps.
Proof.
  revert i. induction ps as [|q ps IH]; intros [|i] H E; simpl in *; try discriminate.
  - inversion H; subst. rewrite E. reflexivity.
  - destruct (Page.isDefault q); [reflexivity | eapply IH; eauto].
Qed.

Lemma find_set_nth_id ps i p q :
  nth_error ps i = Some p ->
  Page.isDefault q = Page.isDefault p -> Page.id q = Page.id p ->
  option_map Page.id (find Page.isDefault (set_nth i q ps))
  = option_map Page.id (find Page.isDefault ps).
Proof.
  revert i. induction ps as [|r ps IH]; intros [|i] H E I; simpl in *; try discriminate.
  - inversion H; subst. rewrite E. destruct (Page.isDefault p); simpl; congruence.
  - destruct (Page.isDefault r); [reflexivity | eapply IH; eauto].
Qed.

Lemma find_promoted id ps i q :
  nth_error ps i = Some q -> Page.isDefault q = true -> Page.id q = id ->
  option_map Page.id
    (find Page.isDefault
          (map (fun p => if negb (str_eqb (Page.id p) id)
                         then Page.set_isDefault false p else p) ps))
  = Some id.
Proof.
  revert i. induction ps as [|r ps IH]; intros [|i] H E I; simpl in *; try discriminate.
  - inversion H; subst. rewrite str_eqb_refl. simpl. rewrite E. reflexivity.
  - destruct (str_eqb (Page.id r) id) eqn:S; simpl.
    + destruct (Page.isDefault r); [|eapply IH; eauto].
      simpl. apply str_eqb_eq in S. congruence.
    + eapply IH; eauto.
Qed.

Lemma nth_error_set_nth {A} (l : list A) i x y :
  nth_error l i = Some x -> nth_error (set_nth i y l) i = Some y.
Proof.
  revert i. induction l as [|z l IH]; intros [|i] H; simpl in *; try discriminate;
    [reflexivity | eauto].
Qed.

(** *** The pointer under the three operations *)

Lemma addPage_pointer fresh now page d :
  pointer_agrees d -> pointer_agrees (fst (addPage fresh now page d)).
Proof.
  unfold pointer_agrees, getDefaultPage, addPage. intros P.
  destruct (Page.isDefault _ || (length (pages d) =? 0)) eqn:E; simpl.
  - rewrite find_app, find_demoted. reflexivity.
  - apply orb_false_iff in E. destruct E as [E _]. simpl in E.
    rewrite find_app. simpl. rewrite E.
    rewrite P. destruct (find Page.isDefault (pages d)); reflexivity.
Qed.

Lemma deletePage_pointer id d :
  pointer_agrees d -> pointer_agrees (fst (deletePage id d)).
Proof.
  unfold pointer_agrees, getDefaultPage, deletePage. intros P.
  destruct (findIndex _ (pages d)) as [index|] eqn:F; [|exact P].
  destruct (findIndex_nth _ _ F) as (p & Hp & _). rewrite Hp.
  destruct (remove_nth index (pages d)) as [|first others] eqn:R; [reflexivity|].
  destruct (Page.isDefault p) eqn:E; [simpl; reflexivity|].
  cbn [fst set_pages pages config]. rewrite <- R.
  rewrite (@find_remove_nth (pages d) index p Hp E). exact P.
Qed.

Lemma updatePage_pointer now id updates d :
  upd_id updates = None -> upd_isDefault updates <> Some false ->
  pointer_agrees d -> pointer_agrees (fst (updatePage now id updates d)).
Proof.
  unfold pointer_agrees, getDefaultPage, updatePage. intros I U P.
  destruct (findIndex _ (pages d)) as [index|] eqn:F; [|exact P].
  destruct (findIndex_nth _ _ F) as (p & Hp & Hid). rewrite Hp.
  apply str_eqb_eq in Hid.
  destruct (upd_isDefault updates) as [[|]|] eqn:E; [| congruence |]; simpl.
  - symmetry. apply (@find_promoted id _ index (assign p updates now)).
    + eapply nth_error_set_nth. exact Hp.
    + simpl. rewrite E. reflexivity.
    + simpl. rewrite I. exact Hid.
  - rewrite (@find_set_nth_id (pages d) index p (assign p updates now) Hp).
    + exact P.
    + simpl. rewrite E. reflexivity.
    + simpl. rewrite I. reflexivity.
Qed.

(** From the empty store, every sequence of calls that adds pages under
    new ids, deletes pages, and updates pages without changing an id or
    setting [isDefault] to false leaves a store where a page is marked
    default as soon as there is one, and only one is. *)
Theorem one_default_without_demotion ops :
  all_keep_default ops defaultData ->
  one_default (run_ops ops defaultData) /\
  NoDup (map Page.id (pages (run_ops ops defaultData))).
Proof.
  intros H. apply one_default_kept; [| constructor | exact H].
  intros Hne. exfalso. apply Hne. reflexivity.
Qed.

Lemma one_default_without_demotion_witness :
  let spec b := mkPageSpec (lit "Notes") (lit "a1b2c3d4e5f6a1b2c3d4e5f6a1b2c3d4")
                           None b in
  let ops := [OpAdd (lit "p1") (lit "t1") (spec None);
              OpAdd (lit "p2") (lit "t2") (spec (Some true));
              OpUpdate (lit "t3") (lit "p1")
                       (mkUpdates None None None None (Some true) None);
              OpDelete (lit "p1")] in
  one_default (run_ops ops defaultData) /\
  NoDup (map Page.id (pages (run_ops ops defaultData))).
Proof.
  intros spec ops. apply one_default_without_demotion.
  vm_compute. intuition discriminate.
Defined.

(** Along the same sequences [config.defaultPageId] is the id of the page
    marked default, and null when there is no page. *)
Theorem pointer_follows_default ops :
  all_keep_default ops defaultData ->
  pointer_agrees (run_ops ops defaultData).
Proof.
  assert (G : forall d, pointer_agrees d -> all_keep_default ops d ->
                        pointer_agrees (run_ops ops d)).
  { induction ops as [|o ops IH]; intros d P H; [exact P|].
    destruct H as [Ho H]. simpl. apply IH; [|exact H].
    destruct o as [fresh now page|now id updates|id]; simpl in *.
    - apply addPage_pointer. exact P.
    - destruct Ho as [I U]. apply updatePage_pointer; assumption.
    - apply deletePage_pointer. exact P. }
  intros H. apply G; [reflexivity | exact H].
Qed.

Lemma pointer_follows_default_witness :
  let spec b := mkPageSpec (lit "Notes") (lit "a1b2c3d4e5f6a1b2c3d4e5f6a1b2c3d4")
                           None b in
  let ops := [OpAdd (lit "p1") (lit "t1") (spec None);
              OpAdd (lit "p2") (lit "t2") (spec (Some true));
              OpDelete (lit "p2")] in
  pointer_agrees (run_ops ops defaultData).
Proof.
  intros spec ops. apply pointer_follows_default.
  vm_compute. intuition discriminate.
Defined.

(** *** [addPage] *)

(** [addPage] stores the new page last, under the id drawn. The page is
    the default exactly when it was asked to be or the store had no page;
    it is then the only default page, [getDefaultPage] returns it and
    [config.defaultPageId] is its id. Otherwise the default page and the
    configuration stay as they were. *)
Theorem addPage_default_rule fresh now page d :
  let d' := fst (addPage fresh now page d) in
  let p := snd (addPage fresh now page d) in
  Page.id p = fresh /\
  map Page.id (pages d') = map Page.id (pages d) ++ [fresh] /\
  nth_error (pages d') (length (pages d)) = Some p /\
  (Page.isDefault p = true <->
   spec_isDefault page = Some true \/ pages d = []) /\
  (Page.isDefault p = true ->
   getDefaultPage d' = Some p /\
   defaultPageId (config d') = Some fresh /\
   default_count (pages d') = 1) /\
  (Page.isDefault p = false ->
   getDefaultPage d' = getDefaultPage d /\ config d' = config d).
Proof.
  intros d' p. split; [|split; [apply addPage_ids|]].
  { unfold p, addPage. destruct (_ || _); reflexivity. }
  assert (C : (match spec_isDefault page with Some b => b | None => false end
               || (length (pages d) =? 0)) = true <->
              spec_isDefault page = Some true \/ pages d = []).
  { rewrite orb_true_iff, Nat.eqb_eq, length_zero_iff_nil.
    destruct (spec_isDefault page) as [[|]|]; intuition congruence. }
  unfold d', p, getDefaultPage, addPage. cbn [Page.isDefault].
  destruct (_ || _) eqn:E; cbn [fst snd pages set_pages config set_defaultPageId
                                 defaultPageId Page.isDefault Page.set_isDefault].
  - split; [|split; [|split]].
    + rewrite nth_error_app2; rewrite length_map; [|lia].
      rewrite Nat.sub_diag. reflexivity.
    + split; [intros _; apply C; reflexivity | reflexivity].
    + intros _. rewrite find_app, find_demoted. split; [reflexivity|].
      split; [reflexivity|]. rewrite count_app, count_demoted. reflexivity.
    + discriminate.
  - split; [|split; [|split]].
    + rewrite nth_error_app2 by lia. rewrite Nat.sub_diag. reflexivity.
    + split; [|intros H; apply C in H; congruence].
      apply orb_false_iff in E. destruct E as [E _]. congruence.
    + apply orb_false_iff in E. destruct E as [E _]. congruence.
    + intros _. split; [|destruct d; reflexivity].
      rewrite find_app. simpl. apply orb_false_iff in E. destruct E as [E _].
      rewrite E. destruct (find Page.isDefault (pages d)); reflexivity.
Qed.

(** *** [deletePage] and [updatePage] on an id *)

Lemma findIndex_none {A} (f : A -> bool) l :
  findIndex f l = None <-> forall x, In x l -> f x = false.
Proof.
  induction l as [|y l IH]; simpl.
  - split; [intros _ x [] | reflexivity].
  - destruct (f y) eqn:E.
    + split; [discriminate|]. intros H. rewrite H in E by auto. discriminate.
    + destruct (findIndex f l).
      * split; [discriminate|]. intros H.
        assert (N : Some n = None) by (apply IH; intros x Hx; apply H; auto).
        discriminate N.
      * split; [|reflexivity]. intros _ x [<-|Hx]; [exact E|].
        apply (proj1 IH eq_refl). exact Hx.
Qed.

Lemma findIndex_known id ps :
  (exists index, findIndex (fun p => str_eqb (Page.id p) id) ps = Some index)
  <-> In id (map Page.id ps).
Proof.
  split.
  - intros (index & F). destruct (findIndex_nth _ _ F) as (p & Hp & E).
    apply str_eqb_eq in E. subst id. apply in_map. eapply nth_error_In; eauto.
  - intros H. destruct (findIndex _ ps) as [i|] eqn:F; [eauto|].
    apply in_map_iff in H. destruct H as (p & <- & Hp).
    rewrite findIndex_none in F. specialize (F p Hp). simpl in F.
    rewrite str_eqb_refl in F. discriminate.
Qed.

Lemma findIndex_first {A} (f : A -> bool) l i :
  findIndex f l = Some i ->
  forall j x, j < i -> nth_error l j = Some x -> f x = false.
Proof.
  revert i. induction l as [|y l IH]; intros i H; simpl in H; [discriminate|].
  destruct (f y) eqn:E.
  - injection H as <-. intros j x Hj. lia.
  - destruct (findIndex f l) as [k|]; [|discriminate]. injection H as <-.
    intros [|j] x Hj Hx; simpl in Hx.
    + injection Hx as <-. exact E.
    + apply (IH k eq_refl j x); [lia | exact Hx].
Qed.

(** [deletePage] answers true exactly when a page has the id. When it
    answers false the store is as it was; when it answers true the first
    page that has the id is taken out, no other, and the ids of the others
    are in the order they were. *)
Theorem deletePage_outcome id d :
  (snd (deletePage id d) = true <-> In id (map Page.id (pages d))) /\
  (snd (deletePage id d) = false -> fst (deletePage id d) = d) /\
  (snd (deletePage id d) = true ->
   exists index,
     nth_error (map Page.id (pages d)) index = Some id /\
     (forall j, j < index -> nth_error (map Page.id (pages d)) j <> Some id) /\
     map Page.id (pages (fst (deletePage id d)))
     = remove_nth index (map Page.id (pages d)) /\
     S (length (pages (fst (deletePage id d)))) = length (pages d)).
Proof.
  rewrite <- findIndex_known. unfold deletePage.
  destruct (findIndex _ (pages d)) as [index|] eqn:F.
  - destruct (findIndex_nth _ _ F) as (p & Hp & E). apply str_eqb_eq in E.
    assert (R : snd (match remove_nth index (pages d) with
                     | [] => (set_pages [] (set_defaultPageId None d), true)
                     | first :: others =>
                         if match nth_error (pages d) index with
                            | Some q => Page.isDefault q | None => false end
                         then (set_pages (Page.set_isDefault true first :: others)
                                 (set_defaultPageId (Some (Page.id first)) d), true)
                         else (set_pages (remove_nth index (pages d)) d, true)
                     end) = true).
    { destruct (remove_nth index (pages d)); [reflexivity|].
      destruct (match nth_error (pages d) index with
                | Some q => Page.isDefault q | None => false end); reflexivity. }
    split; [split; [eauto | intros _; exact R]|].
    split; [rewrite R; discriminate|]. intros _. exists index.
    split; [rewrite nth_error_map, Hp; simpl; congruence|].
    split.
    { intros j Hj Hid. rewrite nth_error_map in Hid.
      destruct (nth_error (pages d) j) as [q|] eqn:Hq; [|discriminate].
      pose proof (findIndex_first _ _ F Hj Hq) as N. cbv beta in N.
      simpl in Hid. injection Hid as Hid. rewrite Hid, str_eqb_refl in N.
      discriminate. }
    pose proof (remove_nth_length _ _ Hp) as L.
    rewrite <- remove_nth_map.
    destruct (remove_nth index (pages d)) as [|first others] eqn:Rm;
      [split; [reflexivity | simpl in *; lia]|].
    destruct (match nth_error (pages d) index with
              | Some q => Page.isDefault q | None => false end);
      simpl; rewrite ?Rm; simpl in *; split; (reflexivity || lia).
  - simpl. split; [split; [discriminate | intros (i & H); discriminate]|].
    split; [reflexivity | discriminate].
Qed.

Lemma nth_error_map_some {A B} (f : A -> B) l i x :
  nth_error l i = Some x -> nth_error (map f l) i = Some (f x).
Proof. intros H. rewrite nth_error_map, H. reflexivity. Qed.

Lemma set_nth_length {A} (l : list A) i x : length (set_nth i x l) = length l.
Proof.
  revert i. induction l as [|y l IH]; intros [|i]; simpl; auto.
Qed.

(** [updatePage] answers null exactly when no page has the id, and then
    leaves the store as it was. It never adds or removes a page, and the
    page it returns carries the time of the update. *)
Theorem updatePage_outcome now id updates d :
  (snd (updatePage now id updates d) = None <->
   ~ In id (map Page.id (pages d))) /\
  (snd (updatePage now id updates d) = None ->
   fst (updatePage now id updates d) = d) /\
  length (pages (fst (updatePage now id updates d))) = length (pages d) /\
  (forall p, snd (updatePage now id updates d) = Some p ->
             Page.updatedAt p = Some now).
Proof.
  rewrite <- findIndex_known. unfold updatePage.
  destruct (findIndex _ (pages d)) as [index|] eqn:F.
  - destruct (findIndex_nth _ _ F) as (p & Hp & E). rewrite Hp.
    pose proof (nth_error_set_nth (pages d) index (assign p updates now) Hp) as N.
    destruct (opt_else (upd_isDefault updates) false);
      cbn [fst snd pages set_pages].
    + erewrite nth_error_map_some by exact N.
      split; [split; [discriminate | intros H; exfalso; apply H; eauto]|].
      split; [discriminate|]. split; [rewrite length_map; apply set_nth_length|].
      intros q [= <-]. destruct (negb _); reflexivity.
    + rewrite N.
      split; [split; [discriminate | intros H; exfalso; apply H; eauto]|].
      split; [discriminate|]. split; [apply set_nth_length|].
      intros q [= <-]. reflexivity.
  - simpl. split; [split; [intros _ (i & H); discriminate | reflexivity]|].
    split; [reflexivity|]. split; [reflexivity | discriminate].
Qed.

Lemma count_replace ps i p q :
  nth_error ps i = Some p ->
  default_count (set_nth i q ps) + (if Page.isDefault p then 1 else 0)
  = default_count ps + (if Page.isDefault q then 1 else 0).
Proof.
  unfold default_count. revert i.
  induction ps as [|r ps IH]; intros [|i] H; simpl in *; try discriminate.
  - inversion H; subst. destruct (Page.isDefault p), (Page.isDefault q); simpl; lia.
  - specialize (IH _ H). destruct (Page.isDefault r); simpl; lia.
Qed.

Lemma find_none_of_count ps :
  default_count ps = 0 -> find Page.isDefault ps = None.
Proof.
  unfold default_count. induction ps as [|q ps IH]; simpl; [reflexivity|].
  destruct (Page.isDefault q); simpl; [discriminate | exact IH].
Qed.

Lemma updatePage_demotion now id updates d index p :
  findIndex (fun q => str_eqb (Page.id q) id) (pages d) = Some index ->
  nth_error (pages d) index = Some p ->
  Page.isDefault p = true ->
  default_count (pages d) = 1 ->
  upd_isDefault updates = Some false ->
  fst (updatePage now id updates d)
  = set_pages (set_nth index (assign p updates now) (pages d)) d /\
  default_count (set_nth index (assign p updates now) (pages d)) = 0.
Proof.
  intros F Hp Hd Hc U. split.
  - unfold updatePage. rewrite F, Hp, U. reflexivity.
  - pose proof (@count_replace (pages d) index p (assign p updates now) Hp) as C.
    rewrite Hd, Hc in C. cbn [assign Page.isDefault] in C. rewrite U in C.
    cbn [opt_else] in C. lia.
Qed.

(** Updating the default page with [isDefault: false] takes the mark away
    and gives it to no other page: no page is default any more and
    [getDefaultPage] gives null, while the pages are as many as before and
    the settings are untouched. *)
Theorem updatePage_demotes_default now id updates d index p :
  findIndex (fun q => str_eqb (Page.id q) id) (pages d) = Some index ->
  nth_error (pages d) index = Some p ->
  Page.isDefault p = true ->
  default_count (pages d) = 1 ->
  upd_isDefault updates = Some false ->
  let d' := fst (updatePage now id updates d) in
  default_count (pages d') = 0 /\
  getDefaultPage d' = None /\
  length (pages d') = length (pages d) /\
  settings d' = settings d.
Proof.
  intros F Hp Hd Hc U d'.
  destruct (@updatePage_demotion now id updates d index p F Hp Hd Hc U)
    as (E & Z).
  unfold d'. rewrite E. cbn [pages set_pages settings].
  split; [exact Z|]. split; [apply find_none_of_count; exact Z|].
  split; [apply set_nth_length | reflexivity].
Qed.

Lemma updatePage_demotes_default_witness :
  let page i dflt :=
    Page.mk i (lit "Notes") (lit "a1b2c3d4e5f6a1b2c3d4e5f6a1b2c3d4") None dflt
            (lit "2024-01-01T00:00:00.000Z") None in
  let d := mkDb (mkConfig None (Some (lit "a")))
                [page (lit "a") true; page (lit "b") false] []
                (settings defaultData) in
  let updates := mkUpdates None None None None (Some false) None in
  getDefaultPage (fst (updatePage (lit "2024-01-02") (lit "a") updates d)) = None.
Proof.
  intros page d updates.
  exact (proj1 (proj2
    (@updatePage_demotes_default (lit "2024-01-02") (lit "a") updates d 0
       (page (lit "a") true) eq_refl eq_refl eq_refl eq_refl eq_refl))).
Defined.

(** *** What the page operations leave alone *)

(** No sequence of page operations changes the history, the settings or
    the stored API key, and [addHistory] changes nothing but the
    history. *)
Theorem operations_keep_to_their_part ops d fresh now record :
  history (run_ops ops d) = history d /\
  settings (run_ops ops d) = settings d /\
  apiKey (config (run_ops ops d)) = apiKey (config d) /\
  pages (fst (addHistory fresh now record d)) = pages d /\
  config (fst (addHistory fresh now record d)) = config d /\
  settings (fst (addHistory fresh now record d)) = settings d.
Proof.
  assert (G : forall o e, history (run_op o e) = history e /\
                          settings (run_op o e) = settings e /\
                          apiKey (config (run_op o e)) = apiKey (config e)).
  { intros [f n pg|n i u|i] e; simpl.
    - unfold addPage. destruct (_ || _); simpl; auto.
    - unfold updatePage. destruct (findIndex _ (pages e)); [|auto].
      destruct (nth_error (pages e) n0); [|auto].
      destruct (opt_else _ _); simpl; auto.
    - unfold deletePage. destruct (findIndex _ (pages e)); [|auto].
      destruct (remove_nth _ _); [simpl; auto|].
      destruct (match nth_error (pages e) n with
                | Some q => Page.isDefault q | None => false end); simpl; auto. }
  assert (R : history (run_ops ops d) = history d /\
              settings (run_ops ops d) = settings d /\
              apiKey (config (run_ops ops d)) = apiKey (config d)).
  { revert d. induction ops as [|o ops IH]; intros d; [auto|].
    simpl. destruct (IH (run_op o d)) as (A & B & C).
    destruct (G o d) as (A' & B' & C'). repeat split; congruence. }
  destruct R as (A & B & C). repeat split; auto.
Qed.

End StorageMore.

Module CryptoMore.
Import Js Crypto CryptoFacts Storage.

Section AnyLibrary.
Context {lib : NodeCrypto}.
Variable SECRET_KEY : option utf16.

Lemma truthy_with_colon a b : truthy (a ++ lit ":" ++ b) = true.
Proof. destruct a; reflexivity. Qed.

(** [decrypt] reads the first two pieces of a token and nothing else:
    whatever follows a second [:] makes no difference. *)
Theorem decrypt_reads_two_pieces a b more :
  ~ In ":"%char a -> ~ In ":"%char b ->
  decrypt SECRET_KEY (Some (a ++ lit ":" ++ b ++ lit ":" ++ more))
  = decrypt SECRET_KEY (Some (a ++ lit ":" ++ b)).
Proof.
  intros Ha Hb. unfold decrypt.
  assert (T1 : truthy_opt (Some (a ++ lit ":" ++ b ++ lit ":" ++ more)) = true)
    by apply truthy_with_colon.
  assert (T2 : truthy_opt (Some (a ++ lit ":" ++ b)) = true)
    by apply truthy_with_colon.
  rewrite T1, T2. simpl negb. cbv iota.
  change (lit ":" ++ b ++ lit ":" ++ more) with (":"%char :: (b ++ ":"%char :: more)).
  change (lit ":" ++ b) with (":"%char :: b).
  rewrite !split_on_first by assumption.
  rewrite (@split_on_absent ":"%char b Hb). reflexivity.
Qed.

End AnyLibrary.

Lemma decrypt_reads_two_pieces_witness :
  @decrypt CryptoModel.model None (Some (lit "AAAA:BBBB:CCCC"))
  = @decrypt CryptoModel.model None (Some (lit "AAAA:BBBB")).
Proof.
  apply (@decrypt_reads_two_pieces CryptoModel.model None
           (lit "AAAA") (lit "BBBB") (lit "CCCC")).
  - vm_compute. intuition discriminate.
  - vm_compute. intuition discriminate.
Defined.

Section LawfulLibrary.
Context {lib : NodeCrypto} {laws : NodeCryptoLaws lib}.
Variable SECRET_KEY : option utf16.

(** Two encryptions of a text under different initialisation vectors give
    different tokens. *)
Theorem encrypt_differs_with_iv iv1 iv2 x :
  x <> [] -> iv1 <> iv2 ->
  encrypt SECRET_KEY iv1 (Some x) <> encrypt SECRET_KEY iv2 (Some x).
Proof.
  intros Hx Hiv E. rewrite !encrypt_token in E by exact Hx.
  injection E as E. apply (f_equal (split_on ":")) in E.
  change (lit ":" ++ ?t) with (":"%char :: t) in E.
  rewrite !split_on_first in E by apply base64_alphabet.
  injection E as E _. apply (f_equal base64_decode) in E.
  rewrite !base64_round in E. contradiction.
Qed.

Lemma setApiKey_then_read iv (key : utf16) d :
  length iv = IV_LENGTH -> key <> [] ->
  fst (getApiKey SECRET_KEY (fst (setApiKey SECRET_KEY iv (Some key) d)))
  = Ok (Some (toWellFormed key)).
Proof.
  intros Hiv Hk.
  destruct (@decrypt_encrypt_scrubbed lib laws SECRET_KEY iv key Hiv Hk)
    as (token & E & Hne & D).
  apply truthy_true in Hne as T. apply truthy_true in Hk as Tk.
  unfold setApiKey, getApiKey. rewrite Tk.
  cbn [fst set_apiKey config apiKey]. rewrite E, T. exact D.
Qed.

(** [setApiKey] then [getApiKey]: a key that is not empty comes back with
    its unpaired surrogates replaced by U+FFFD, so as it was stored exactly
    when it has none, and [hasApiKey] answers true; a null or empty key
    clears the stored one, after which [getApiKey] gives null and
    [hasApiKey] answers false. Neither touches the pages or the history. *)
Theorem setApiKey_getApiKey iv (key : utf16) d :
  length iv = IV_LENGTH -> key <> [] ->
  let stored := fst (setApiKey SECRET_KEY iv (Some key) d) in
  let cleared k := fst (setApiKey SECRET_KEY iv k d) in
  fst (getApiKey SECRET_KEY stored) = Ok (Some (toWellFormed key)) /\
  (fst (getApiKey SECRET_KEY stored) = Ok (Some key)
   <-> isWellFormed key = true) /\
  fst (hasApiKey stored) = true /\
  pages stored = pages d /\ history stored = history d /\
  (forall k, k = None \/ k = Some [] ->
     fst (getApiKey SECRET_KEY (cleared k)) = Ok None /\
     fst (hasApiKey (cleared k)) = false).
Proof.
  intros Hiv Hk stored cleared.
  pose proof (@setApiKey_then_read iv key d Hiv Hk) as R. fold stored in R.
  destruct (@decrypt_encrypt_scrubbed lib laws SECRET_KEY iv key Hiv Hk)
    as (token & E & Hne & _).
  apply truthy_true in Hne as T. apply truthy_true in Hk as Tk.
  split; [exact R|]. split; [|split; [|split; [|split]]].
  - rewrite R. split.
    + intros [= F]. apply toWellFormed_fixed. exact F.
    + intros W. rewrite (isWellFormed_fixed key W). reflexivity.
  - unfold stored, setApiKey, hasApiKey. rewrite Tk.
    cbn [fst set_apiKey config apiKey]. rewrite E. exact T.
  - unfold stored, setApiKey. rewrite Tk. reflexivity.
  - unfold stored, setApiKey. rewrite Tk. reflexivity.
  - intros k [->| ->]; split; reflexivity.
Qed.

End LawfulLibrary.

Lemma encrypt_differs_with_iv_witness :
  @encrypt CryptoModel.model None (repeat Byte.x01 16)
           (Some (wide (lit "secret_abc")))
  <> @encrypt CryptoModel.model None (repeat Byte.x02 16)
              (Some (wide (lit "secret_abc"))).
Proof.
  apply (@encrypt_differs_with_iv CryptoModel.model model_laws None).
  - discriminate.
  - discriminate.
Defined.

Lemma setApiKey_getApiKey_witness :
  let key := wide (lit "ntn_abc123") in
  let stored := fst (@setApiKey CryptoModel.model None (repeat Byte.x2a 16)
                                (Some key) defaultData) in
  fst (@getApiKey CryptoModel.model None stored) = Ok (Some key).
Proof.
  intros key stored.
  destruct (@setApiKey_getApiKey CryptoModel.model model_laws None
              (repeat Byte.x2a 16) key defaultData eq_refl)
    as (_ & W & _).
  - discriminate.
  - apply W. reflexivity.
Defined.

End CryptoMore.

Module NotionMore.
Import Js Storage Notion NotionSpec PublishSpec JsFacts NotionFacts.

Local Arguments firstn : simpl never.
Local Arguments skipn : simpl never.

Section AnyService.
Context {lib : Crypto.NodeCrypto}.
Variable SECRET_KEY : option utf16.
Variable block : Type.
Variable world : Type.
Variable pages_create :
  world -> str -> str -> list block -> world * result PageResponse.
Variable blocks_children_append :
  world -> str -> list block -> world * result unit.

(** Whatever the service answers, the loop sends the batches in order and
    stops at the first request that fails. *)
Lemma appendLoop_prefix pageId blocks : forall n i w,
  length blocks - i <= n ->
  exists k,
    snd (fst (appendLoop blocks_children_append pageId blocks i w))
    = map (BlocksChildrenAppend pageId) (firstn k (batches_from i blocks)) /\
    (snd (appendLoop blocks_children_append pageId blocks i w) = Ok tt ->
     firstn k (batches_from i blocks) = batches_from i blocks).
Proof.
  induction n as [|n IH]; intros i w Hn; rewrite appendLoop_unfold.
  - assert (E : (i <? length blocks) = false) by (apply Nat.ltb_ge; lia).
    rewrite E, batches_from_done by lia. exists 0. split; reflexivity.
  - destruct (i <? length blocks) eqn:E.
    + apply Nat.ltb_lt in E. cbv zeta.
      rewrite (@batches_from_step _ i blocks E).
      destruct (blocks_children_append w pageId _) as [w1 [u|e]].
      * destruct (IH (i + 100) w1) as (k & Hk & Hok); [lia|].
        destruct (appendLoop _ pageId blocks (i + 100) w1) as [[w2 calls] r].
        simpl in Hk, Hok. exists (S k). simpl. rewrite Hk.
        split; [reflexivity|]. intros Hr.
        rewrite firstn_cons. f_equal. apply Hok. exact Hr.
      * exists 1. simpl. split; [reflexivity | discriminate].
    + apply Nat.ltb_ge in E. rewrite batches_from_done by lia.
      exists 0. split; reflexivity.
Qed.

(** Whatever the service answers and whatever the store holds,
    [createPage] returns (it does not throw), and the requests it sent are
    the first of the requests of a complete publication, in their order:
    nothing is sent after a request that failed. Nothing at all is sent
    when no API key can be read. It reports success only when every
    request was sent, and then under the title given. *)
Theorem createPage_sends_a_prefix d parentPageId title blocks w :
  let out := createPage SECRET_KEY pages_create blocks_children_append
                        d parentPageId title blocks w in
  (exists k pageId,
      snd (fst out) = firstn k (planned parentPageId title pageId blocks)) /\
  (forall e, initClient SECRET_KEY d = Throw e ->
             snd (fst out) = [] /\ fst (fst out) = w /\
             exists msg, snd out = Failure msg) /\
  (forall id url t, snd out = Success id url t ->
                    snd (fst out) = planned parentPageId title id blocks /\
                    t = title).
Proof.
  intros out. unfold out, createPage, appendBlocks, planned.
  destruct (initClient SECRET_KEY d) as [key|e0].
  2:{ simpl. split; [exists 0, []; reflexivity|].
      split; [intros e _; eauto | discriminate]. }
  unfold MAX_BLOCKS_PER_REQUEST.
  rewrite slice_from_start by lia. rewrite Nat2Z.id. rewrite slice_to_end.
  destruct (pages_create w parentPageId title (firstn 100 blocks)) as [w1 [response|e1]].
  2:{ simpl. split; [exists 1, []; reflexivity|].
      split; [discriminate | discriminate]. }
  destruct (0 <? length (skipn 100 blocks)) eqn:E.
  - destruct (@appendLoop_prefix (resp_id response) (skipn 100 blocks)
                (length (skipn 100 blocks)) 0 w1) as (k & Hk & Hok); [lia|].
    destruct (appendLoop _ (resp_id response) (skipn 100 blocks) 0 w1)
      as [[w2 calls] r].
    simpl in Hk, Hok. subst calls.
    destruct r as [u|e2]; simpl.
    + split; [exists (S k), (resp_id response); rewrite firstn_cons, firstn_map;
              reflexivity|].
      split; [discriminate|]. intros id url t [= <- _ <-].
      split; [|reflexivity]. destruct u. rewrite (Hok eq_refl). reflexivity.
    + split; [exists (S k), (resp_id response); rewrite firstn_cons, firstn_map;
              reflexivity|].
      split; discriminate.
  - apply Nat.ltb_ge in E. simpl.
    rewrite batches_from_done by lia. simpl.
    split; [exists 1, []; reflexivity|].
    split; [discriminate|]. intros id url t [= <- _ <-]. auto.
Qed.

End AnyService.
End NotionMore.

Module RoutesFacts.
Import Js JsFacts Storage StorageSpec StorageFacts StorageMore Notion
       ValidatorRest MarkdownService TextFacts Routes.

Local Arguments firstn : simpl never.

(** *** The page name of a history record *)

Lemma find_by_id_flag x b first others :
  option_map Page.name
    (find (fun p => str_eqb (Page.id p) x) (Page.set_isDefault b first :: others))
  = option_map Page.name
      (find (fun p => str_eqb (Page.id p) x) (first :: others)).
Proof. simpl. destruct (str_eqb (Page.id first) x); reflexivity. Qed.

Lemma find_by_id_absent x ps :
  ~ In x (map Page.id ps) -> find (fun p => str_eqb (Page.id p) x) ps = None.
Proof.
  induction ps as [|q ps IH]; simpl; intros H; [reflexivity|].
  destruct (str_eqb (Page.id q) x) eqn:E.
  - apply str_eqb_eq in E. exfalso. apply H. auto.
  - apply IH. intros Hin. apply H. auto.
Qed.

Lemma find_by_id_removed x id ps index p :
  NoDup (map Page.id ps) ->
  nth_error ps index = Some p -> Page.id p = id ->
  find (fun q => str_eqb (Page.id q) x) (remove_nth index ps)
  = if str_eqb x id then None else find (fun q => str_eqb (Page.id q) x) ps.
Proof.
  revert index. induction ps as [|r ps IH]; intros [|i] ND Hp Hid; simpl in *;
    try discriminate; inversion ND as [|? ? Hnin ND']; subst.
  - inversion Hp; subst r. destruct (str_eqb x (Page.id p)) eqn:E.
    + apply str_eqb_eq in E. subst x. apply find_by_id_absent. exact Hnin.
    + destruct (str_eqb (Page.id p) x) eqn:E'; [|reflexivity].
      apply str_eqb_eq in E'. subst x. rewrite str_eqb_refl in E. discriminate.
  - rewrite (IH i ND' Hp eq_refl).
    destruct (str_eqb (Page.id r) x) eqn:E; [|reflexivity].
    apply str_eqb_eq in E. subst x.
    destruct (str_eqb (Page.id r) (Page.id p)) eqn:E'; [|reflexivity].
    apply str_eqb_eq in E'. exfalso. apply Hnin. rewrite E'.
    apply in_map. eapply nth_error_In; eauto.
Qed.

Lemma pageConfigName_names pages pages' record :
  option_map Page.name
    (find (fun p => str_eqb (Page.id p) (HistoryRecord.pageConfigId record)) pages')
  = option_map Page.name
      (find (fun p => str_eqb (Page.id p) (HistoryRecord.pageConfigId record)) pages) ->
  pageConfigName pages' record = pageConfigName pages record.
Proof.
  unfold pageConfigName. intros H.
  destruct (find _ pages') as [a|], (find _ pages) as [b|]; simpl in H;
    try discriminate; [|reflexivity].
  injection H as H. rewrite H. reflexivity.
Qed.

(** When the ids of the pages are distinct, deleting a page makes the
    history records that refer to it show "Unknown Page", and leaves the
    page name of every other record as it was. *)
Theorem deleted_page_shows_unknown id d record :
  NoDup (map Page.id (pages d)) ->
  snd (deletePage id d) = true ->
  pageConfigName (pages (fst (deletePage id d))) record
  = if str_eqb (HistoryRecord.pageConfigId record) id then unknownPage
    else pageConfigName (pages d) record.
Proof.
  intros ND. unfold deletePage.
  destruct (findIndex _ (pages d)) as [index|] eqn:F; [|discriminate].
  intros _. destruct (findIndex_nth _ _ F) as (p & Hp & E).
  apply str_eqb_eq in E.
  pose proof (@find_by_id_removed (HistoryRecord.pageConfigId record) id
                (pages d) index p ND Hp E) as R.
  assert (G : pageConfigName (remove_nth index (pages d)) record
              = if str_eqb (HistoryRecord.pageConfigId record) id then unknownPage
                else pageConfigName (pages d) record).
  { unfold pageConfigName at 1. rewrite R.
    destruct (str_eqb (HistoryRecord.pageConfigId record) id); reflexivity. }
  rewrite <- G.
  destruct (remove_nth index (pages d)) as [|first others] eqn:Rm; [reflexivity|].
  destruct (match nth_error (pages d) index with
            | Some q => Page.isDefault q | None => false end);
    cbn [fst pages set_pages]; [|reflexivity].
  apply pageConfigName_names. apply find_by_id_flag.
Qed.

Lemma deleted_page_shows_unknown_witness :
  let page i :=
    Page.mk i (lit "Notes") (lit "a1b2c3d4e5f6a1b2c3d4e5f6a1b2c3d4") None false
            (lit "2024-01-01T00:00:00.000Z") None in
  let d := mkDb (mkConfig None None) [page (lit "a"); page (lit "b")] []
                (settings defaultData) in
  let record := HistoryRecord.mk (lit "h") (lit "T") (lit "b") None None
                                 (lit "failed") None (lit "2024-01-02") in
  pageConfigName (pages (fst (deletePage (lit "b") d))) record = unknownPage.
Proof.
  intros page d record.
  assert (ND : NoDup (map Page.id (pages d))).
  { vm_compute. apply NoDup_cons; [|apply NoDup_cons; [|apply NoDup_nil]];
      simpl; intuition discriminate. }
  exact (@deleted_page_shows_unknown (lit "b") d record ND eq_refl).
Defined.

(** *** POST /api/upload *)

Section Upload.
Context {lib : Crypto.NodeCrypto}.
Variable SECRET_KEY : option utf16.
Variable block : Type.
Variable world : Type.
Variable pages_create :
  world -> str -> str -> list block -> world * result PageResponse.
Variable blocks_children_append :
  world -> str -> list block -> world * result unit.
Variable markdownToBlocks : str -> result (list block).
Variable sizeError : nat -> Z -> str.

Local Abbreviation run :=
  (upload SECRET_KEY pages_create blocks_children_append
          markdownToBlocks sizeError).

(** An upload that is refused with status 400, or that throws, has sent no
    request and left the store as it was; and the handler throws only when
    the store was never opened. *)
Theorem upload_refusal_is_clean fresh now body db w :
  let out := upload SECRET_KEY pages_create blocks_children_append
                    markdownToBlocks sizeError fresh now body db w in
  (forall err, snd out = Ok (ReplyError 400 err) ->
     snd (fst (fst out)) = [] /\ snd (fst out) = db /\ fst (fst (fst out)) = w) /\
  (forall e, snd out = Throw e ->
     db = None /\
     snd (fst (fst out)) = [] /\ snd (fst out) = db /\ fst (fst (fst out)) = w).
Proof.
  intros out. unfold out, upload.
  destruct db as [d|]; [|simpl; split; [discriminate | auto]].
  destruct (negb (valid _)); [simpl; split; [auto | discriminate]|].
  destruct (if truthy_opt (body_pageConfigId body) then _ else _) as [targetPage|];
    [|simpl; split; [auto | discriminate]].
  cbv zeta.
  destruct (convertToBlocks markdownToBlocks (body_markdown body)) as [blocks|e];
    [|simpl; split; [auto | discriminate]].
  destruct (createPage _ _ _ _ _ _ _ _) as [[w' calls] [id url title|err]];
    simpl; split; discriminate.
Qed.

Lemma pageTitle_nonempty title markdown :
  opt_else (or_else title None) (extractTitle markdown) <> [].
Proof.
  destruct title as [t|]; simpl; [|apply extractTitle_nonempty].
  destruct (truthy t) eqn:T; simpl; [|apply extractTitle_nonempty].
  apply truthy_true_iff. exact T.
Qed.

(** Every other answer of an upload on an open store comes with exactly
    one new history record, put first (and the oldest dropped past 100),
    under the id and the time drawn and with a title that is not empty:
    marked "success" with the id and the address of the page when the page
    was created, marked "failed" with the error when it was not. The pages
    and the configuration are as they were. *)
Theorem upload_records_the_attempt fresh now body d w reply :
  let out := upload SECRET_KEY pages_create blocks_children_append
                    markdownToBlocks sizeError fresh now body (Some d) w in
  snd out = Ok reply ->
  (forall err, reply <> ReplyError 400 err) ->
  exists r d',
    snd (fst out) = Some d' /\
    history d' = firstn 100 (r :: history d) /\
    pages d' = pages d /\ config d' = config d /\
    HistoryRecord.id r = fresh /\ HistoryRecord.createdAt r = now /\
    HistoryRecord.title r <> [] /\
    match reply with
    | ReplyUploaded id url _ _ =>
        HistoryRecord.status r = lit "success" /\
        HistoryRecord.notionPageId r = Some id /\
        HistoryRecord.notionUrl r = Some url /\
        HistoryRecord.error r = None
    | ReplyError statusCode err =>
        statusCode = 500 /\
        HistoryRecord.status r = lit "failed" /\
        HistoryRecord.notionPageId r = None /\
        HistoryRecord.error r = or_else (Some err) None
    end.
Proof.
  intros out. unfold out, upload.
  destruct (negb (valid _)).
  { simpl. intros [= <-] H. exfalso. eapply H. reflexivity. }
  destruct (if truthy_opt (body_pageConfigId body) then _ else _) as [targetPage|].
  2:{ simpl. intros [= <-] H. exfalso. eapply H. reflexivity. }
  cbv zeta.
  destruct (convertToBlocks markdownToBlocks (body_markdown body)) as [blocks|e].
  2:{ simpl. intros [= <-] H. exfalso. eapply H. reflexivity. }
  destruct (createPage _ _ _ _ _ _ _ _) as [[w' calls] [id url title|err]];
    cbn [fst snd]; intros [= <-] _.
  - eexists _, _. split; [reflexivity|].
    split; [apply addHistory_history|].
    repeat split; try reflexivity. apply pageTitle_nonempty.
  - eexists _, _. split; [reflexivity|].
    split; [apply addHistory_history|].
    repeat split; try reflexivity. 
    + apply pageTitle_nonempty.
    + cbn [newRecord HistoryRecord.error spec_error].
      destruct (or_else (Some err) None) as [x|] eqn:E; [|reflexivity].
      simpl in E. destruct (truthy err) eqn:T; [|discriminate].
      injection E as <-. simpl. rewrite T. reflexivity.
Qed.

Lemma upload_needs_a_default fresh now body d w :
  valid (validateMarkdown sizeError (body_markdown body)
                          (Some (maxFileSize (settings d)))) = true ->
  truthy_opt (body_pageConfigId body) = false ->
  getDefaultPage d = None ->
  run fresh now body (Some d) w
  = (w, [], Some d,
     Ok (ReplyError 400
           (lit "No target page configured. Please add a page configuration first."))).
Proof.
  intros V P G. unfold upload. rewrite V, P, G. reflexivity.
Qed.

(** Once the default page has been updated with [isDefault: false], an
    upload of an acceptable text that names no page is refused with status
    400 for want of a target page, although the pages are all still there;
    nothing is sent and nothing is recorded. *)
Theorem upload_refused_after_demotion
        fresh now now' id updates body d index p w :
  findIndex (fun q => str_eqb (Page.id q) id) (pages d) = Some index ->
  nth_error (pages d) index = Some p ->
  Page.isDefault p = true ->
  default_count (pages d) = 1 ->
  upd_isDefault updates = Some false ->
  valid (validateMarkdown sizeError (body_markdown body)
                          (Some (maxFileSize (settings d)))) = true ->
  truthy_opt (body_pageConfigId body) = false ->
  let d' := fst (updatePage now' id updates d) in
  length (pages d') = length (pages d) /\
  upload SECRET_KEY pages_create blocks_children_append
         markdownToBlocks sizeError fresh now body (Some d') w
  = (w, [], Some d',
     Ok (ReplyError 400
           (lit "No target page configured. Please add a page configuration first."))).
Proof.
  intros F Hp Hd Hc U V P d'.
  destruct (@updatePage_demotion now' id updates d index p F Hp Hd Hc U)
    as (E & Z).
  unfold d'. rewrite E. split; [apply set_nth_length|].
  apply upload_needs_a_default;
    [exact V | exact P | apply find_none_of_count; exact Z].
Qed.

End Upload.

(** A service that accepts every request, a converter that makes one block
    of each line, and a store with a key and a default page. *)

Lemma upload_records_the_attempt_witness :
  let create := fun (w : nat) (_ _ : str) (_ : list str) =>
                  (S w, Ok (mkResponse (lit "page-1")
                                       (lit "https://www.notion.so/page-1"))) in
  let append := fun (w : nat) (_ : str) (_ : list str) => (S w, Ok tt) in
  let convert := fun s : str => Ok (split_on newline s) in
  let sizeError := fun (_ : nat) (_ : Z) => lit "too large" in
  let page := Page.mk (lit "p1") (lit "Notes")
                      (lit "a1b2c3d4e5f6a1b2c3d4e5f6a1b2c3d4") None true
                      (lit "2024-01-01T00:00:00.000Z") None in
  let d := set_pages [page]
             (fst (@setApiKey CryptoModel.model None (repeat Byte.x2a 16)
                              (Some (wide (lit "secret_abc123"))) defaultData)) in
  let body := mkUploadBody (lit "# Hello" ++ [newline] ++ lit "world") None None in
  let out := @upload CryptoModel.model None str nat create append convert
                     sizeError (lit "h1") (lit "2024-01-03T00:00:00.000Z")
                     body (Some d) 0 in
  exists r d',
    snd (fst out) = Some d' /\
    history d' = firstn 100 (r :: history d) /\
    HistoryRecord.status r = lit "success" /\
    HistoryRecord.title r = lit "Hello".
Proof.
  intros create append convert sizeError page d body out.
  destruct (@upload_records_the_attempt CryptoModel.model None str nat
              create append convert sizeError
              (lit "h1") (lit "2024-01-03T00:00:00.000Z") body d 0
              (ReplyUploaded (lit "page-1") (lit "https://www.notion.so/page-1")
                             (lit "Hello") (mkStats 13 2 3)))
    as (r & d' & A & B & _ & _ & _ & _ & _ & C & _).
  - vm_compute. reflexivity.
  - discriminate.
  - exists r, d'. split; [exact A|]. split; [exact B|]. split; [exact C|].
    unfold out in A. vm_compute in A. injection A as <-.
    vm_compute in B. injection B as <-. reflexivity.
Defined.

Lemma upload_refused_after_demotion_witness :
  let create := fun (w : nat) (_ _ : str) (_ : list str) =>
                  (S w, Ok (mkResponse (lit "page-1")
                                       (lit "https://www.notion.so/page-1"))) in
  let append := fun (w : nat) (_ : str) (_ : list str) => (S w, Ok tt) in
  let convert := fun s : str => Ok (split_on newline s) in
  let sizeError := fun (_ : nat) (_ : Z) => lit "too large" in
  let page := Page.mk (lit "p1") (lit "Notes")
                      (lit "a1b2c3d4e5f6a1b2c3d4e5f6a1b2c3d4") None true
                      (lit "2024-01-01T00:00:00.000Z") None in
  let d := set_pages [page] defaultData in
  let updates := mkUpdates None (Some (lit "Notes")) None None (Some false) None in
  let body := mkUploadBody (lit "# Hello") None None in
  let d' := fst (updatePage (lit "2024-01-02T00:00:00.000Z") (lit "p1") updates d) in
  length (pages d') = 1 /\
  snd (@upload CryptoModel.model None str nat create append convert sizeError
               (lit "h1") (lit "2024-01-03T00:00:00.000Z") body (Some d') 0)
  = Ok (ReplyError 400
          (lit "No target page configured. Please add a page configuration first.")).
Proof.
  intros create append convert sizeError page d updates body d'.
  destruct (@upload_refused_after_demotion CryptoModel.model None str nat
              create append convert sizeError
              (lit "h1") (lit "2024-01-03T00:00:00.000Z")
              (lit "2024-01-02T00:00:00.000Z") (lit "p1") updates body d 0 page 0
              eq_refl eq_refl eq_refl eq_refl eq_refl)
    as [L R]; [vm_compute; reflexivity | reflexivity |].
  split; [exact L|]. fold d' in R. rewrite R. reflexivity.
Defined.

End RoutesFacts.

Module ConfigRoutesFacts.
Import Js JsFacts Storage StorageSpec StorageFacts Notion Validator ValidatorSpec
       ValidatorRest ValidatorMore Crypto CryptoFacts CryptoMore ConfigRoutes.

Section AnyLibrary.
Context {lib : NodeCrypto}.
Variable SECRET_KEY : option utf16.
Variable world : Type.
Variable users_me : world -> str -> world * result User.
Variable pages_retrieve : world -> utf16 -> str -> world * result Retrieved.

(** The handler that adds a page stores a page only under an identifier of
    32 hexadecimal digits, the one [extractPageId] reads in the address
    given; the page is put last and the store keeps exactly one default
    page if it had one. When it answers with an error the store is as it
    was, and when the address holds no identifier nothing is asked of the
    service. *)
Theorem postPage_stores_an_identifier fresh now name pageUrl isDefault d w :
  let out := postPage SECRET_KEY pages_retrieve fresh now name pageUrl
                      isDefault d w in
  (forall page, snd out = PageAdded page ->
     extractPageId pageUrl = Some (Page.pageId page) /\
     length (Page.pageId page) = 32 /\
     forallb is_hex (Page.pageId page) = true /\
     Page.name page = name /\
     nth_error (pages (snd (fst out))) (length (pages d)) = Some page /\
     length (pages (snd (fst out))) = S (length (pages d)) /\
     (one_default d -> one_default (snd (fst out)))) /\
  (forall statusCode error, snd out = ConfigError statusCode error ->
     statusCode = 400 /\ snd (fst out) = d) /\
  (extractPageId pageUrl = None ->
     out = (w, d, ConfigError 400 (lit "Invalid Notion page URL or ID"))).
Proof.
  intros out. unfold out, postPage.
  destruct (extractPageId pageUrl) as [pageId|] eqn:E.
  2:{ simpl. split; [discriminate|]. split; [|reflexivity].
      intros c e [= <- _]. auto. }
  pose proof (extractPageId_result_run _ E) as [Hl Hh].
  assert (T : truthy pageId = true) by (destruct pageId; [discriminate | reflexivity]).
  rewrite T. simpl negb. cbv iota.
  destruct (validatePageAccess _ _ _ _ _ _) as [w' [page|err]].
  - cbn [fst snd]. split; [|split; [discriminate | discriminate]].
    intros p [= <-].
    assert (P : Page.pageId (snd (addPage fresh now
                  (mkPageSpec name pageId (Some (info_url page)) isDefault) d))
                = pageId)
      by (unfold addPage; destruct (_ || _); reflexivity).
    assert (N : Page.name (snd (addPage fresh now
                  (mkPageSpec name pageId (Some (info_url page)) isDefault) d))
                = name)
      by (unfold addPage; destruct (_ || _); reflexivity).
    rewrite P. split; [reflexivity|]. split; [exact Hl|]. split; [exact Hh|].
    split; [exact N|]. split; [|split].
    + unfold addPage. destruct (_ || _); cbn [fst snd pages set_pages].
      * rewrite nth_error_app2; rewrite length_map; [|lia].
        rewrite Nat.sub_diag. reflexivity.
      * rewrite nth_error_app2 by lia. rewrite Nat.sub_diag. reflexivity.
    + rewrite <- (length_map Page.id), addPage_ids, length_app, length_map.
      simpl. lia.
    + apply addPage_one_default.
  - cbn [fst snd]. split; [discriminate|]. split; [|discriminate].
    intros c e [= <- _]. auto.
Qed.

End AnyLibrary.

Section LawfulLibrary.
Context {lib : NodeCrypto} {laws : NodeCryptoLaws lib}.
Variable SECRET_KEY : option utf16.
Variable world : Type.
Variable users_me : world -> str -> world * result User.

(** The handler that saves the API key saves it exactly when the key has
    the format and the service accepted it; [getApiKey] then gives back the
    key as it was sent. In every other case the store is as it was, and a
    key without the format is not even shown to the service. *)
Theorem postApiKey_saves_checked_keys iv apiKey d w :
  length iv = IV_LENGTH ->
  let out := postApiKey SECRET_KEY users_me iv apiKey d w in
  (snd out = ApiKeySaved <->
   isValidApiKeyFormat apiKey = true /\
   exists user, snd (users_me w apiKey) = Ok user) /\
  (snd out = ApiKeySaved ->
   fst (getApiKey SECRET_KEY (snd (fst out))) = Ok (Some (wide apiKey)) /\
   pages (snd (fst out)) = pages d /\ history (snd (fst out)) = history d) /\
  (snd out <> ApiKeySaved -> snd (fst out) = d) /\
  (isValidApiKeyFormat apiKey = false -> fst (fst out) = w).
Proof.
  intros Hiv out. unfold out, postApiKey, validateApiKey.
  destruct (isValidApiKeyFormat apiKey) eqn:F; simpl negb; cbv iota.
  2:{ simpl. split; [split; [discriminate | intros [H _]; discriminate]|].
      split; [discriminate|]. auto. }
  assert (Hk : apiKey <> []).
  { intros ->. vm_compute in F. discriminate. }
  destruct (users_me w apiKey) as [w' [user|e]]; cbn [fst snd].
  - split; [split; [eauto | reflexivity]|]. split; [|split; [congruence | discriminate]].
    intros _.
    assert (Hw : wide apiKey <> [])
      by (destruct apiKey; [congruence | discriminate]).
    split.
    + rewrite (@setApiKey_then_read lib laws SECRET_KEY iv (wide apiKey) d Hiv Hw).
      rewrite (isWellFormed_fixed _ (wide_isWellFormed apiKey)). reflexivity.
    + unfold setApiKey. rewrite (proj2 (truthy_true_iff (wide apiKey)) Hw).
      split; reflexivity.
  - split; [split; [discriminate | intros [_ (u & H)]; discriminate]|].
    split; [discriminate|]. split; [reflexivity | discriminate].
Qed.

End LawfulLibrary.

Lemma postApiKey_saves_checked_keys_witness :
  let users_me := fun (w : nat) (_ : str) =>
                    (S w, Ok (mkUser (lit "u1") (Some (lit "Bot")) (lit "bot") None)) in
  let out := @postApiKey CryptoModel.model None nat users_me
                         (repeat Byte.x2a 16) (lit "ntn_abc123") defaultData 0 in
  snd out = ApiKeySaved /\
  fst (@getApiKey CryptoModel.model None (snd (fst out)))
  = Ok (Some (wide (lit "ntn_abc123"))).
Proof.
  intros users_me out.
  destruct (@postApiKey_saves_checked_keys CryptoModel.model model_laws None nat
              users_me (repeat Byte.x2a 16) (lit "ntn_abc123") defaultData 0
              eq_refl) as (A & B & _).
  assert (S : snd out = ApiKeySaved).
  { apply A. split; [vm_compute; reflexivity | eexists; reflexivity]. }
  split; [exact S | apply B; exact S].
Defined.

End ConfigRoutesFacts.
